(** * aznet: framed, encrypted byte streams over polled cloud storage

    A shallow embedding of the connection engine of [aznet] (frame codec,
    Noise seal/unseal wrapper, adaptive poller, [Conn.Read], [Conn.Write],
    [Conn.flush], [Conn.CloseWrite] and [Listener.janitor]) together with
    the properties its specification states about them.

    Conventions.
    - Go's [int], [int64] and [time.Duration] are [Z]; a conversion to
      [uint32] or an [int64] multiplication has its wrap-around written out.
    - A [[]byte] and a [bytes.Buffer] are [list byte]; [Buffer.Next n] is
      [take n]/[drop n], [Buffer.Write] is [++].
    - The cipher of [github.com/flynn/noise] is not part of the repository:
      it is a parameter ([AEAD]) with the two laws of an authenticated
      cipher the code relies on.
    - A goroutine-free, sequential reading of the code is modelled: each
      method runs to completion before the next one starts. *)

From Stdlib Require Import ZArith Lia List Bool Sorted.
From Stdlib Require Import Init.Byte.
From stdpp Require Import base list gmap strings pretty.

Local Open Scope Z_scope.

(** ** Bytes and big-endian 32-bit integers *)

Abbreviation bytes := (list byte).

#[global] Instance byte_eq_dec : EqDecision byte.
Proof.
  intros a b. destruct (Byte.eqb a b) eqn:E.
  - left. by apply Byte.byte_dec_bl.
  - right. intros ->. rewrite Byte.byte_dec_lb in E; [discriminate|reflexivity].
Defined.

(** [len b] is Go's [len(b)] as an [int]. *)
Definition len {A} (b : list A) : Z := Z.of_nat (length b).

Definition byte_to_Z (b : byte) : Z := Z.of_N (Byte.to_N b).

(** [byte(v)]: the low 8 bits of [v]. *)
Definition byte_of_Z (v : Z) : byte :=
  match Byte.of_N (Z.to_N (v mod 256)) with
  | Some b => b
  | None => x00
  end.

(** [uint32(v)]: an [int] truncated to 32 bits. *)
Definition uint32 (v : Z) : Z := v mod 2 ^ 32.

(** [int64] arithmetic wraps around in two's complement. *)
Definition int64 (v : Z) : Z := (v + 2 ^ 63) mod 2 ^ 64 - 2 ^ 63.

(** [binary.BigEndian.PutUint32(b, v)] for a [uint32] value [v]: the four
    bytes written. *)
Definition PutUint32 (v : Z) : bytes :=
  [ byte_of_Z (Z.shiftr v 24); byte_of_Z (Z.shiftr v 16);
    byte_of_Z (Z.shiftr v 8); byte_of_Z v ].

(** [binary.BigEndian.Uint32(b)] on a slice of (at least) four bytes. *)
Definition Uint32 (b : bytes) : Z :=
  match b with
  | b0 :: b1 :: b2 :: b3 :: _ =>
      Z.lor (Z.lor (Z.lor (Z.shiftl (byte_to_Z b0) 24)
                          (Z.shiftl (byte_to_Z b1) 16))
                   (Z.shiftl (byte_to_Z b2) 8))
            (byte_to_Z b3)
  | _ => 0
  end.

(** ** Frame codec ([frame.go]) *)

Definition FrameHeaderSize : Z := 4 + 1.

Definition MsgTypeData : byte := x00.
Definition MsgTypePing : byte := x01.
Definition MsgTypeFin : byte := x02.
Definition MsgTypeRotate : byte := x03.

Record Frame := mkFrame { Payload : bytes; Type_ : byte }.

(** [BuildFrame(writeBuf, f)]: the buffer after the three writes. *)
Definition BuildFrame (writeBuf : bytes) (f : Frame) : bytes :=
  writeBuf ++ PutUint32 (uint32 (len (Payload f))) ++ [Type_ f] ++ Payload f.

(** ** Errors *)

(** The error values the connection engine returns or inspects.
    [ErrDriver] stands for any other error of a storage driver, [ErrAuth]
    for the failure of the cipher to authenticate a ciphertext. *)
Inductive error :=
  | ErrShortBuffer        (* io.ErrShortBuffer *)
  | ErrClosedPipe         (* io.ErrClosedPipe *)
  | ErrClosed             (* net.ErrClosed *)
  | EOF                   (* io.EOF *)
  | ErrDeadlineExceeded   (* os.ErrDeadlineExceeded *)
  | ErrNoData             (* aznet.ErrNoData *)
  | ErrCanceled           (* context.Canceled *)
  | ErrMaxNonce           (* noise.ErrMaxNonce *)
  | ErrAuth
  | ErrDriver (code : nat).

#[global] Instance error_eq_dec : EqDecision error.
Proof. solve_decision. Defined.

Inductive result (T : Type) :=
  | Ok (v : T)
  | Err (e : error).
Arguments Ok {T} v.
Arguments Err {T} e.

(** ** The Noise session wrapper ([crypto.go]) *)

Definition NoiseOverhead : Z := 4 + 16.

(** The AEAD of the cipher suite (AES-256-GCM in [defaultCipherSuite]):
    [aead_seal k n p] is [Cipher.Encrypt(nil, n, nil, p)], the ciphertext
    followed by its tag; [aead_open] is [Cipher.Decrypt]. *)
Record AEAD := mkAEAD {
  Key : Type;
  aead_seal : Key -> Z -> bytes -> bytes;
  aead_open : Key -> Z -> bytes -> option bytes;
}.

(** What the engine relies on: the tag adds 16 bytes, and opening what was
    sealed under the same key and nonce gives the plaintext back. *)
Definition aead_ok (A : AEAD) : Prop :=
  (forall k n p, len (aead_seal A k n p) = len p + 16) /\
  (forall k n p, aead_open A k n (aead_seal A k n p) = Some p).

(** A small cipher to run the model on: each byte is shifted by the key and
    the nonce, the tag is sixteen copies of a checksum byte. *)
Definition toy_pad (k n : Z) (b : byte) : byte := byte_of_Z (byte_to_Z b + k + n).
Definition toy_unpad (k n : Z) (b : byte) : byte := byte_of_Z (byte_to_Z b - k - n).
Definition toy_tag (k n : Z) : bytes := replicate 16 (byte_of_Z (k + 7 * n + 1)).

Definition toy_seal (k n : Z) (p : bytes) : bytes :=
  map (toy_pad k n) p ++ toy_tag k n.

Definition toy_open (k n : Z) (c : bytes) : option bytes :=
  let m := (length c - 16)%nat in
  if (length c <? 16)%nat then None
  else if decide (drop m c = toy_tag k n)
       then Some (map (toy_unpad k n) (take m c))
       else None.

Definition toy : AEAD := mkAEAD Z toy_seal toy_open.

Section Noise.
Context {A : AEAD}.

(** [noise.CipherState]: a key and the nonce of the next message. *)
Record CipherState := mkCipherState { cs_k : Key A; cs_n : Z }.

(** The largest nonce [Encrypt] and [Decrypt] accept ([2^64 - 1] is
    reserved). *)
Definition MaxNonce : Z := 2 ^ 64 - 2.

(** [CipherState.Encrypt(out, nil, plaintext)] with an empty [out]. *)
Definition Encrypt (s : CipherState) (plaintext : bytes)
  : result (bytes * CipherState) :=
  if MaxNonce <? cs_n s then Err ErrMaxNonce
  else Ok (aead_seal A (cs_k s) (cs_n s) plaintext,
           mkCipherState (cs_k s) (cs_n s + 1)).

(** [CipherState.Decrypt(out, nil, ciphertext)] with an empty [out]; the
    nonce advances only when the ciphertext authenticates. *)
Definition Decrypt (s : CipherState) (ciphertext : bytes)
  : result (bytes * CipherState) :=
  if MaxNonce <? cs_n s then Err ErrMaxNonce
  else match aead_open A (cs_k s) (cs_n s) ciphertext with
       | Some p => Ok (p, mkCipherState (cs_k s) (cs_n s + 1))
       | None => Err ErrAuth
       end.

(** [Noise] once the handshake is complete: both cipher states are set. *)
Record Noise := mkNoise {
  cs1 : CipherState;
  cs2 : CipherState;
  isInitiator : bool;
}.

Definition EncryptData (nh : Noise) (plaintext : bytes)
  : result (bytes * Noise) :=
  if isInitiator nh then
    match Encrypt (cs1 nh) plaintext with
    | Ok (c, s) => Ok (c, mkNoise s (cs2 nh) (isInitiator nh))
    | Err e => Err e
    end
  else
    match Encrypt (cs2 nh) plaintext with
    | Ok (c, s) => Ok (c, mkNoise (cs1 nh) s (isInitiator nh))
    | Err e => Err e
    end.

Definition DecryptData (nh : Noise) (ciphertext : bytes)
  : result (bytes * Noise) :=
  if isInitiator nh then
    match Decrypt (cs2 nh) ciphertext with
    | Ok (p, s) => Ok (p, mkNoise (cs1 nh) s (isInitiator nh))
    | Err e => Err e
    end
  else
    match Decrypt (cs1 nh) ciphertext with
    | Ok (p, s) => Ok (p, mkNoise s (cs2 nh) (isInitiator nh))
    | Err e => Err e
    end.

(** [SealData(dst, plaintext)]. [dst] only lends its capacity; the bytes
    returned are the length prefix followed by the ciphertext. *)
Definition SealData (nh : Noise) (dst plaintext : bytes)
  : result (bytes * Noise) :=
  match EncryptData nh plaintext with
  | Err e => Err e
  | Ok (ciphertext, nh') =>
      Ok (PutUint32 (uint32 (len ciphertext)) ++ ciphertext, nh')
  end.

(** The three results of [UnsealData]; [None] is Go's [nil] slice. *)
Record Unsealed := mkUnsealed {
  plaintext : option bytes;
  remaining : option bytes;
  err : option error;
}.

Definition UnsealData (nh : Noise) (dst data : bytes) : Unsealed * Noise :=
  if len data <? 4 then (mkUnsealed None (Some data) (Some ErrShortBuffer), nh)
  else
    let length := Uint32 (take 4 data) in
    if len data <? 4 + length
    then (mkUnsealed None (Some data) (Some ErrShortBuffer), nh)
    else
      match DecryptData nh (take (Z.to_nat length) (drop 4 data)) with
      | Err e => (mkUnsealed None None (Some e), nh)
      | Ok (decrypted, nh') =>
          (mkUnsealed (Some decrypted)
                      (Some (drop (Z.to_nat (4 + length)) data)) None, nh')
      end.

(** Two ends of one session: what one side sends with, the other receives
    with, and the nonce has not run out. *)
Definition send_cs (nh : Noise) : CipherState :=
  if isInitiator nh then cs1 nh else cs2 nh.
Definition recv_cs (nh : Noise) : CipherState :=
  if isInitiator nh then cs2 nh else cs1 nh.

Definition paired (sender receiver : Noise) : Prop :=
  send_cs sender = recv_cs receiver /\
  0 <= cs_n (send_cs sender) <= MaxNonce.
End Noise.

Arguments CipherState : clear implicits.
Arguments Noise : clear implicits.
Arguments Unsealed : clear implicits.

(** ** The adaptive poller *)

Definition DefaultFastPoll : Z := 10 * 1000000.

Record AdaptivePoll := mkAdaptivePoll {
  Cur : Z;
  Fast : Z;
  Steady : Z;
  skip : bool;
}.

Definition NewAdaptivePoll (fast steady : Z) : AdaptivePoll :=
  let fast := if fast <=? 0 then DefaultFastPoll else fast in
  let steady := if steady <? fast then fast else steady in
  mkAdaptivePoll fast fast steady false.

(** [Sleep]: the poller afterwards, and the duration handed to
    [time.Sleep] ([None] when the call returns without sleeping). *)
Definition Sleep (p : AdaptivePoll) : AdaptivePoll * option Z :=
  if skip p then (mkAdaptivePoll (Cur p) (Fast p) (Steady p) false, None)
  else
    let cur :=
      if Cur p <? Steady p then
        let doubled := int64 (Cur p * 2) in
        if Steady p <? doubled then Steady p else doubled
      else Cur p in
    (mkAdaptivePoll cur (Fast p) (Steady p) false, Some (Cur p)).

Definition Reset (p : AdaptivePoll) : AdaptivePoll :=
  mkAdaptivePoll (Fast p) (Fast p) (Steady p) true.

(** Inputs used to run the model: a payload too long for the 32-bit length
    field, a plaintext whose ciphertext is, and a session pair over the toy
    cipher. *)
Definition huge_payload : bytes := replicate (Z.to_nat (2 ^ 32)) x00.
Definition huge_plaintext : bytes := replicate (Z.to_nat (2 ^ 32 - 16)) x00.

Definition toy_initiator : Noise toy :=
  mkNoise (mkCipherState (A:=toy) 11 0) (mkCipherState (A:=toy) 22 0) true.
Definition toy_responder : Noise toy :=
  mkNoise (mkCipherState (A:=toy) 11 0) (mkCipherState (A:=toy) 22 0) false.

(** The poller's invariant. *)
Definition poll_inv (p : AdaptivePoll) : Prop :=
  Fast p <= Cur p <= Steady p.

(** The durations slept by [n] successive calls of [Sleep] with no [Reset]
    in between (a skipped call sleeps for nothing and contributes nothing). *)
Fixpoint idle_intervals (n : nat) (p : AdaptivePoll) : list Z :=
  match n with
  | O => []
  | S n' =>
      match Sleep p with
      | (p', Some d) => d :: idle_intervals n' p'
      | (p', None) => idle_intervals n' p'
      end
  end.

(** A poller whose doubling leaves the range of [int64]. *)
Definition overflowing_poll : AdaptivePoll :=
  NewAdaptivePoll (2 ^ 62) (2 ^ 63 - 1).

(** ** The raw transport

    [Transport] (and [Rotator]) are interfaces implemented by the storage
    drivers. A transport is modelled by what it was told and what it will
    answer: the chunks [WriteRaw] accepted so far, and the results of the
    calls to come. When the results of [WriteRaw], [ShouldRotate] or
    [RotateTX] run out, the call succeeds (resp. answers [false]); when the
    results of [ReadRaw] run out, the record of the peer's activity ends
    there. The stream a successful [ReadRaw] returns is taken to be read
    to its end without error: [RawData b] is what [Noise.ReadFrom] adds to
    the Noise buffer. *)

Inductive RawResult :=
  | RawData (b : bytes)
  | RawErr (e : error).

Record Transport := mkTransport {
  MaxRawSize : Z;
  isRotator : bool;
  written : list bytes;
  writeResults : list (option error);
  shouldRotate : list bool;
  rotateTXResults : list (option error);
  rotatedTX : nat;
  readResults : list RawResult;
  rotatedRX : nat;
  transportClosed : bool;
}.

Definition set_MaxRawSize (v : Z) (x : Transport) : Transport :=
  mkTransport v (isRotator x) (written x) (writeResults x) (shouldRotate x) (rotateTXResults x) (rotatedTX x) (readResults x) (rotatedRX x) (transportClosed x).
Definition set_isRotator (v : bool) (x : Transport) : Transport :=
  mkTransport (MaxRawSize x) v (written x) (writeResults x) (shouldRotate x) (rotateTXResults x) (rotatedTX x) (readResults x) (rotatedRX x) (transportClosed x).
Definition set_written (v : list bytes) (x : Transport) : Transport :=
  mkTransport (MaxRawSize x) (isRotator x) v (writeResults x) (shouldRotate x) (rotateTXResults x) (rotatedTX x) (readResults x) (rotatedRX x) (transportClosed x).
Definition set_writeResults (v : list (option error)) (x : Transport) : Transport :=
  mkTransport (MaxRawSize x) (isRotator x) (written x) v (shouldRotate x) (rotateTXResults x) (rotatedTX x) (readResults x) (rotatedRX x) (transportClosed x).
Definition set_shouldRotate (v : list bool) (x : Transport) : Transport :=
  mkTransport (MaxRawSize x) (isRotator x) (written x) (writeResults x) v (rotateTXResults x) (rotatedTX x) (readResults x) (rotatedRX x) (transportClosed x).
Definition set_rotateTXResults (v : list (option error)) (x : Transport) : Transport :=
  mkTransport (MaxRawSize x) (isRotator x) (written x) (writeResults x) (shouldRotate x) v (rotatedTX x) (readResults x) (rotatedRX x) (transportClosed x).
Definition set_rotatedTX (v : nat) (x : Transport) : Transport :=
  mkTransport (MaxRawSize x) (isRotator x) (written x) (writeResults x) (shouldRotate x) (rotateTXResults x) v (readResults x) (rotatedRX x) (transportClosed x).
Definition set_readResults (v : list RawResult) (x : Transport) : Transport :=
  mkTransport (MaxRawSize x) (isRotator x) (written x) (writeResults x) (shouldRotate x) (rotateTXResults x) (rotatedTX x) v (rotatedRX x) (transportClosed x).
Definition set_rotatedRX (v : nat) (x : Transport) : Transport :=
  mkTransport (MaxRawSize x) (isRotator x) (written x) (writeResults x) (shouldRotate x) (rotateTXResults x) (rotatedTX x) (readResults x) v (transportClosed x).
Definition set_transportClosed (v : bool) (x : Transport) : Transport :=
  mkTransport (MaxRawSize x) (isRotator x) (written x) (writeResults x) (shouldRotate x) (rotateTXResults x) (rotatedTX x) (readResults x) (rotatedRX x) v.

(** [WriteRaw]: the next result decides; an accepted chunk is recorded. *)
Definition WriteRaw (t : Transport) (data : bytes) : Transport * option error :=
  match writeResults t with
  | Some e :: rs => (set_writeResults rs t, Some e)
  | None :: rs => (set_written (written t ++ [data]) (set_writeResults rs t), None)
  | [] => (set_written (written t ++ [data]) t, None)
  end.

Definition ShouldRotate (t : Transport) : Transport * bool :=
  match shouldRotate t with
  | b :: bs => (set_shouldRotate bs t, b)
  | [] => (t, false)
  end.

Definition RotateTX (t : Transport) : Transport * option error :=
  let t := set_rotatedTX (S (rotatedTX t)) t in
  match rotateTXResults t with
  | r :: rs => (set_rotateTXResults rs t, r)
  | [] => (t, None)
  end.

Definition RotateRX (t : Transport) : Transport :=
  set_rotatedRX (S (rotatedRX t)) t.

(** [ReadRaw]: [None] when the record of results has ended. *)
Definition ReadRaw (t : Transport) : option (Transport * RawResult) :=
  match readResults t with
  | r :: rs => Some (set_readResults rs t, r)
  | [] => None
  end.

(** ** The connection ([aznet.go]) *)

Section Conn.
Context {A : AEAD}.

(** [Conn]. The three buffers of [Buffers] are [bufRead], [bufWrite] and
    [bufNoise]; a deadline is [None] when the pointer is nil or the time
    is zero; [cleanupToken] and [closeOnce] tell whether the [sync.Once]
    has fired; [tokenDeletes] counts the scheduled [DeleteToken] calls;
    [clock] is the wall clock in nanoseconds, which advances when the
    poller sleeps. *)
Record Conn := mkConn {
  transport : Transport;
  noise : Noise A;
  poll : AdaptivePoll;
  bufRead : bytes;
  bufWrite : bytes;
  bufNoise : bytes;
  readDeadline : option Z;
  writeDeadline : option Z;
  lastActive : Z;
  peerLastSeen : Z;
  cleanupToken : bool;
  tokenDeletes : nat;
  closeOnce : bool;
  closed : bool;
  closedRead : bool;
  closedWrite : bool;
  mtu : Z;
  readRemain : Z;
  clock : Z;
}.

Definition set_transport (v : Transport) (x : Conn) : Conn :=
  mkConn v (noise x) (poll x) (bufRead x) (bufWrite x) (bufNoise x) (readDeadline x) (writeDeadline x) (lastActive x) (peerLastSeen x) (cleanupToken x) (tokenDeletes x) (closeOnce x) (closed x) (closedRead x) (closedWrite x) (mtu x) (readRemain x) (clock x).
Definition set_noise (v : Noise A) (x : Conn) : Conn :=
  mkConn (transport x) v (poll x) (bufRead x) (bufWrite x) (bufNoise x) (readDeadline x) (writeDeadline x) (lastActive x) (peerLastSeen x) (cleanupToken x) (tokenDeletes x) (closeOnce x) (closed x) (closedRead x) (closedWrite x) (mtu x) (readRemain x) (clock x).
Definition set_poll (v : AdaptivePoll) (x : Conn) : Conn :=
  mkConn (transport x) (noise x) v (bufRead x) (bufWrite x) (bufNoise x) (readDeadline x) (writeDeadline x) (lastActive x) (peerLastSeen x) (cleanupToken x) (tokenDeletes x) (closeOnce x) (closed x) (closedRead x) (closedWrite x) (mtu x) (readRemain x) (clock x).
Definition set_bufRead (v : bytes) (x : Conn) : Conn :=
  mkConn (transport x) (noise x) (poll x) v (bufWrite x) (bufNoise x) (readDeadline x) (writeDeadline x) (lastActive x) (peerLastSeen x) (cleanupToken x) (tokenDeletes x) (closeOnce x) (closed x) (closedRead x) (closedWrite x) (mtu x) (readRemain x) (clock x).
Definition set_bufWrite (v : bytes) (x : Conn) : Conn :=
  mkConn (transport x) (noise x) (poll x) (bufRead x) v (bufNoise x) (readDeadline x) (writeDeadline x) (lastActive x) (peerLastSeen x) (cleanupToken x) (tokenDeletes x) (closeOnce x) (closed x) (closedRead x) (closedWrite x) (mtu x) (readRemain x) (clock x).
Definition set_bufNoise (v : bytes) (x : Conn) : Conn :=
  mkConn (transport x) (noise x) (poll x) (bufRead x) (bufWrite x) v (readDeadline x) (writeDeadline x) (lastActive x) (peerLastSeen x) (cleanupToken x) (tokenDeletes x) (closeOnce x) (closed x) (closedRead x) (closedWrite x) (mtu x) (readRemain x) (clock x).
Definition set_readDeadline (v : option Z) (x : Conn) : Conn :=
  mkConn (transport x) (noise x) (poll x) (bufRead x) (bufWrite x) (bufNoise x) v (writeDeadline x) (lastActive x) (peerLastSeen x) (cleanupToken x) (tokenDeletes x) (closeOnce x) (closed x) (closedRead x) (closedWrite x) (mtu x) (readRemain x) (clock x).
Definition set_writeDeadline (v : option Z) (x : Conn) : Conn :=
  mkConn (transport x) (noise x) (poll x) (bufRead x) (bufWrite x) (bufNoise x) (readDeadline x) v (lastActive x) (peerLastSeen x) (cleanupToken x) (tokenDeletes x) (closeOnce x) (closed x) (closedRead x) (closedWrite x) (mtu x) (readRemain x) (clock x).
Definition set_lastActive (v : Z) (x : Conn) : Conn :=
  mkConn (transport x) (noise x) (poll x) (bufRead x) (bufWrite x) (bufNoise x) (readDeadline x) (writeDeadline x) v (peerLastSeen x) (cleanupToken x) (tokenDeletes x) (closeOnce x) (closed x) (closedRead x) (closedWrite x) (mtu x) (readRemain x) (clock x).
Definition set_peerLastSeen (v : Z) (x : Conn) : Conn :=
  mkConn (transport x) (noise x) (poll x) (bufRead x) (bufWrite x) (bufNoise x) (readDeadline x) (writeDeadline x) (lastActive x) v (cleanupToken x) (tokenDeletes x) (closeOnce x) (closed x) (closedRead x) (closedWrite x) (mtu x) (readRemain x) (clock x).
Definition set_cleanupToken (v : bool) (x : Conn) : Conn :=
  mkConn (transport x) (noise x) (poll x) (bufRead x) (bufWrite x) (bufNoise x) (readDeadline x) (writeDeadline x) (lastActive x) (peerLastSeen x) v (tokenDeletes x) (closeOnce x) (closed x) (closedRead x) (closedWrite x) (mtu x) (readRemain x) (clock x).
Definition set_tokenDeletes (v : nat) (x : Conn) : Conn :=
  mkConn (transport x) (noise x) (poll x) (bufRead x) (bufWrite x) (bufNoise x) (readDeadline x) (writeDeadline x) (lastActive x) (peerLastSeen x) (cleanupToken x) v (closeOnce x) (closed x) (closedRead x) (closedWrite x) (mtu x) (readRemain x) (clock x).
Definition set_closeOnce (v : bool) (x : Conn) : Conn :=
  mkConn (transport x) (noise x) (poll x) (bufRead x) (bufWrite x) (bufNoise x) (readDeadline x) (writeDeadline x) (lastActive x) (peerLastSeen x) (cleanupToken x) (tokenDeletes x) v (closed x) (closedRead x) (closedWrite x) (mtu x) (readRemain x) (clock x).
Definition set_closed (v : bool) (x : Conn) : Conn :=
  mkConn (transport x) (noise x) (poll x) (bufRead x) (bufWrite x) (bufNoise x) (readDeadline x) (writeDeadline x) (lastActive x) (peerLastSeen x) (cleanupToken x) (tokenDeletes x) (closeOnce x) v (closedRead x) (closedWrite x) (mtu x) (readRemain x) (clock x).
Definition set_closedRead (v : bool) (x : Conn) : Conn :=
  mkConn (transport x) (noise x) (poll x) (bufRead x) (bufWrite x) (bufNoise x) (readDeadline x) (writeDeadline x) (lastActive x) (peerLastSeen x) (cleanupToken x) (tokenDeletes x) (closeOnce x) (closed x) v (closedWrite x) (mtu x) (readRemain x) (clock x).
Definition set_closedWrite (v : bool) (x : Conn) : Conn :=
  mkConn (transport x) (noise x) (poll x) (bufRead x) (bufWrite x) (bufNoise x) (readDeadline x) (writeDeadline x) (lastActive x) (peerLastSeen x) (cleanupToken x) (tokenDeletes x) (closeOnce x) (closed x) (closedRead x) v (mtu x) (readRemain x) (clock x).
Definition set_mtu (v : Z) (x : Conn) : Conn :=
  mkConn (transport x) (noise x) (poll x) (bufRead x) (bufWrite x) (bufNoise x) (readDeadline x) (writeDeadline x) (lastActive x) (peerLastSeen x) (cleanupToken x) (tokenDeletes x) (closeOnce x) (closed x) (closedRead x) (closedWrite x) v (readRemain x) (clock x).
Definition set_readRemain (v : Z) (x : Conn) : Conn :=
  mkConn (transport x) (noise x) (poll x) (bufRead x) (bufWrite x) (bufNoise x) (readDeadline x) (writeDeadline x) (lastActive x) (peerLastSeen x) (cleanupToken x) (tokenDeletes x) (closeOnce x) (closed x) (closedRead x) (closedWrite x) (mtu x) v (clock x).
Definition set_clock (v : Z) (x : Conn) : Conn :=
  mkConn (transport x) (noise x) (poll x) (bufRead x) (bufWrite x) (bufNoise x) (readDeadline x) (writeDeadline x) (lastActive x) (peerLastSeen x) (cleanupToken x) (tokenDeletes x) (closeOnce x) (closed x) (closedRead x) (closedWrite x) (mtu x) (readRemain x) v.

(** [newConn]; [now] is [time.Now()], [fastPoll] and [dataPoll] come from
    the configuration. The keep-alive goroutine is not modelled. *)
Definition newConn (t : Transport) (fastPoll dataPoll : Z) (nh : Noise A)
    (now : Z) : Conn :=
  mkConn t nh (NewAdaptivePoll fastPoll dataPoll) [] [] [] None None
         now now false 0 false false false false
         (MaxRawSize t - NoiseOverhead - FrameHeaderSize) 0 now.

(** The deadline test of [Read] and [Write]: a deadline is set, is not the
    zero time, and the clock is after it. *)
Definition deadline_passed (deadline : option Z) (now : Z) : bool :=
  match deadline with
  | Some d => d <? now
  | None => false
  end.

(** *** [Conn.flush] *)

(** One turn of the loop of [flush]. [FlushPanic] is the slice-bounds
    panic of [Buffer.Next] on a negative count. *)
Inductive FlushStep :=
  | FlushDone (c : Conn)
  | FlushMore (c : Conn)
  | FlushErr (c : Conn) (e : error)
  | FlushPanic.

Definition flush_step (c : Conn) : FlushStep :=
  let maxChunk := MaxRawSize (transport c) - NoiseOverhead in
  if len (bufWrite c) =? 0 then FlushDone c
  else
    let '(t1, rotate) :=
      if isRotator (transport c) then ShouldRotate (transport c)
      else (transport c, false) in
    let c := set_transport t1 c in
    if rotate then
      let rBuf := BuildFrame [] (mkFrame [] MsgTypeRotate) in
      match SealData (noise c) [] rBuf with
      | Err e => FlushErr c e
      | Ok (sealed, nh) =>
          let c := set_noise nh c in
          match WriteRaw (transport c) sealed with
          | (t2, Some e) => FlushErr (set_transport t2 c) e
          | (t2, None) =>
              match RotateTX t2 with
              | (t3, Some e) => FlushErr (set_transport t3 c) e
              | (t3, None) => FlushMore (set_transport t3 c)
              end
          end
      end
    else
      let takeLen := Z.min (len (bufWrite c)) maxChunk in
      if takeLen <? 0 then FlushPanic
      else
        let plaintext := take (Z.to_nat takeLen) (bufWrite c) in
        let c := set_bufWrite (drop (Z.to_nat takeLen) (bufWrite c)) c in
        match SealData (noise c) [] plaintext with
        | Err e => FlushErr c e
        | Ok (sealed, nh) =>
            let c := set_noise nh c in
            match WriteRaw (transport c) sealed with
            | (t2, Some e) => FlushErr (set_transport t2 c) e
            | (t2, None) =>
                FlushMore (set_lastActive (clock c) (set_transport t2 c))
            end
        end.

(** The loop; [None] when it does not return within [fuel] turns, or
    panics. *)
Fixpoint flush_loop (fuel : nat) (c : Conn) : option (Conn * option error) :=
  match fuel with
  | O => None
  | S fuel =>
      match flush_step c with
      | FlushDone c' => Some (c', None)
      | FlushErr c' e => Some (c', Some e)
      | FlushPanic => None
      | FlushMore c' => flush_loop fuel c'
      end
  end.

(** Every turn that continues takes a byte from the write buffer or an
    answer from [ShouldRotate], so this many turns are enough for any run
    that ends. *)
Definition flush_fuel (c : Conn) : nat :=
  S (length (bufWrite c) + length (shouldRotate (transport c))).

Definition flush (c : Conn) : option (Conn * option error) :=
  flush_loop (flush_fuel c) c.

(** *** [Conn.Write] *)

(** The framing loop of [Write]: the write buffer after it. [None] when
    the loop does not end ([mtu = 0]) or panics ([mtu < 0]). *)
Fixpoint write_loop (fuel : nat) (mtu : Z) (buf p : bytes) : option bytes :=
  if len p <=? 0 then Some buf
  else
    match fuel with
    | O => None
    | S fuel =>
        let chunkSize := Z.min (len p) mtu in
        if chunkSize <? 0 then None
        else write_loop fuel mtu
               (BuildFrame buf (mkFrame (take (Z.to_nat chunkSize) p) MsgTypeData))
               (drop (Z.to_nat chunkSize) p)
    end.

(** The frames that loop hands to [BuildFrame], in order. *)
Fixpoint write_frames (fuel : nat) (mtu : Z) (p : bytes) : list Frame :=
  if len p <=? 0 then []
  else
    match fuel with
    | O => []
    | S fuel =>
        let chunkSize := Z.min (len p) mtu in
        if chunkSize <? 0 then []
        else mkFrame (take (Z.to_nat chunkSize) p) MsgTypeData
               :: write_frames fuel mtu (drop (Z.to_nat chunkSize) p)
    end.

(** [Write] returns the pair [(n, err)]. *)
Definition Write (c : Conn) (p : bytes) : option (Conn * (Z * option error)) :=
  if closed c || closedWrite c then Some (c, (0, Some ErrClosedPipe))
  else if deadline_passed (writeDeadline c) (clock c)
  then Some (c, (0, Some ErrDeadlineExceeded))
  else
    let total := len p in
    match write_loop (length p) (mtu c) (bufWrite c) p with
    | None => None
    | Some buf =>
        match flush (set_bufWrite buf c) with
        | None => None
        | Some (c', Some e) => Some (c', (0, Some e))
        | Some (c', None) => Some (c', (total, None))
        end
    end.

(** *** [Conn.CloseWrite] and [Conn.Close] *)

Definition CloseWrite (c : Conn) : option (Conn * option error) :=
  if closed c then Some (c, None)
  else if closedWrite c then Some (c, None)
  else
    let c := set_closedWrite true c in
    let c := set_bufWrite (BuildFrame (bufWrite c) (mkFrame [] MsgTypeFin)) c in
    flush c.

(** [Close]; the transport's own [Close] returns no error. *)
Definition Close (c : Conn) : option (Conn * option error) :=
  if closeOnce c then Some (c, None)
  else
    let c := set_closed true (set_closeOnce true c) in
    match flush c with
    | None => None
    | Some (c, _) =>
        let c :=
          if closedWrite c then c
          else set_bufWrite (BuildFrame (bufWrite c) (mkFrame [] MsgTypeFin)) c in
        match flush c with
        | None => None
        | Some (c, _) =>
            let c := set_transport (set_transportClosed true (transport c)) c in
            Some (set_bufRead [] (set_bufWrite [] (set_bufNoise [] c)), None)
        end
    end.

Definition SetDeadline (t : option Z) (c : Conn) : Conn :=
  set_writeDeadline t (set_readDeadline t c).
Definition SetReadDeadline (t : option Z) (c : Conn) : Conn :=
  set_readDeadline t c.
Definition SetWriteDeadline (t : option Z) (c : Conn) : Conn :=
  set_writeDeadline t c.

(** *** [Conn.Read] *)

(** The first half of a turn of the loop of [Read], from the [closed]
    check to the end of the [switch]: the call returns ([data] is what was
    copied into [p], so [n = len data]), or a frame was consumed and the
    loop continues, or no complete frame is buffered. [lenp] is
    [len(p)]. *)
Inductive FrameStep :=
  | FrameReturn (c : Conn) (data : bytes) (e : option error)
  | FrameSkip (c : Conn)
  | FrameNone (c : Conn).

Definition read_head (c : Conn) (lenp : nat) : FrameStep :=
  if closed c then FrameReturn c [] (Some ErrClosed)
  else if closedRead c then FrameReturn c [] (Some EOF)
  else if deadline_passed (readDeadline c) (clock c)
  then FrameReturn c [] (Some ErrDeadlineExceeded)
  else if 0 <? readRemain c then
    let k := Z.to_nat (Z.min (readRemain c) (Z.of_nat lenp)) in
    let data := take k (bufRead c) in
    FrameReturn (set_readRemain (readRemain c - len data)
                   (set_bufRead (drop k (bufRead c)) c)) data None
  else if FrameHeaderSize <=? len (bufRead c) then
    let header := take 5 (bufRead c) in
    let fType := nth 4 header x00 in
    let fLen := Uint32 (take 4 header) in
    if FrameHeaderSize + fLen <=? len (bufRead c) then
      let c := set_peerLastSeen (clock c) c in
      let next := drop (Z.to_nat (FrameHeaderSize + fLen)) (bufRead c) in
      if decide (fType = MsgTypeData) then
        let payload := drop 5 (bufRead c) in
        let k := Z.to_nat (Z.min fLen (Z.of_nat lenp)) in
        let data := take k payload in
        FrameReturn (set_readRemain (fLen - len data)
                       (set_bufRead (drop k payload) c)) data None
      else if decide (fType = MsgTypePing) then
        FrameSkip (set_bufRead next c)
      else if decide (fType = MsgTypeFin) then
        FrameReturn (set_closedRead true (set_bufRead next c)) [] (Some EOF)
      else if decide (fType = MsgTypeRotate) then
        let c := set_bufRead next c in
        FrameSkip (if isRotator (transport c)
                   then set_transport (RotateRX (transport c)) c else c)
      else FrameSkip (set_bufRead next c)
    else FrameNone c
  else FrameNone c.

(** Turns of the loop that only consume control frames. Each takes at
    least five bytes from the read buffer. *)
Fixpoint skip_frames (fuel : nat) (c : Conn) (lenp : nat) : FrameStep :=
  match read_head c lenp with
  | FrameSkip c' =>
      match fuel with
      | O => FrameSkip c'
      | S fuel => skip_frames fuel c' lenp
      end
  | r => r
  end.

(** [c.cleanupToken.Do(...)]: the first time, on the responder, the
    deletion of the token is scheduled. *)
Definition cleanupToken_Do (c : Conn) : Conn :=
  if cleanupToken c then c
  else set_cleanupToken true
         (if isInitiator (noise c) then c
          else set_tokenDeletes (S (tokenDeletes c)) c).

(** The decrypt loop of [Read]: unseal chunks from the Noise buffer into
    the read buffer until the rest is short. The first chunk unsealed on
    the responder schedules the deletion of the token. *)
Fixpoint unseal_loop (fuel : nat) (c : Conn) : Conn * option error :=
  match fuel with
  | O => (c, None)
  | S fuel =>
      let '(u, nh) := UnsealData (noise c) [] (bufNoise c) in
      match err u with
      | Some e =>
          if decide (e = ErrShortBuffer) then (c, None) else (c, Some e)
      | None =>
          let decrypted := default [] (plaintext u) in
          let rest := default [] (remaining u) in
          let c := cleanupToken_Do (set_noise nh c) in
          let c := set_bufRead (bufRead c ++ decrypted) c in
          let used := len (bufNoise c) - len rest in
          unseal_loop fuel (set_bufNoise (drop (Z.to_nat used) (bufNoise c)) c)
      end
  end.

(** What [Read] did by the end of the record of [ReadRaw] results: it
    returned, or it is still polling. *)
Inductive ReadOutcome :=
  | Returned (c : Conn) (data : bytes) (e : option error)
  | Polling (c : Conn).

Fixpoint read_loop (fuel : nat) (c : Conn) (lenp : nat) : ReadOutcome :=
  match skip_frames (length (bufRead c)) c lenp with
  | FrameReturn c' data e => Returned c' data e
  | FrameSkip c' => Polling c'
  | FrameNone c' =>
      match fuel with
      | O => Polling c'
      | S fuel =>
          match ReadRaw (transport c') with
          | None => Polling c'
          | Some (t, RawErr e) =>
              let c1 := set_transport t c' in
              if decide (e = ErrNoData) then
                let '(p, slept) := Sleep (poll c1) in
                let c2 := set_poll p c1 in
                read_loop fuel
                  (set_clock (clock c2 + Z.max 0 (default 0 slept)) c2) lenp
              else if decide (e = ErrCanceled) then
                if closed c1 then Returned c1 [] (Some ErrClosed)
                else Returned c1 [] (Some e)
              else Returned c1 [] (Some e)
          | Some (t, RawData b) =>
              let c1 := set_bufNoise (bufNoise c' ++ b) (set_transport t c') in
              match unseal_loop (S (length (bufNoise c1))) c1 with
              | (c2, Some e) => Returned c2 [] (Some e)
              | (c2, None) => read_loop fuel (set_poll (Reset (poll c2)) c2) lenp
              end
          end
      end
  end.

(** One turn of the loop per [ReadRaw] result, and one more. *)
Definition Read (c : Conn) (lenp : nat) : ReadOutcome :=
  read_loop (S (length (readResults (transport c)))) c lenp.

(** A connection whose [Read] gets past the checks at the top of the
    loop and looks for a frame header. *)
Definition at_frame_boundary (c : Conn) : Prop :=
  closed c = false /\ closedRead c = false /\
  deadline_passed (readDeadline c) (clock c) = false /\
  readRemain c = 0.

(** *** Keep-alive *)

(** What [keepAlive] does on one tick of its ticker (errors of [flush]
    are dropped). *)
Definition keepAlive_tick (pingInterval : Z) (c : Conn) : option Conn :=
  if closed c || closedWrite c then Some c
  else if pingInterval <=? clock c - lastActive c then
    match flush (set_bufWrite (BuildFrame (bufWrite c) (mkFrame [] MsgTypePing)) c) with
    | Some (c', _) => Some c'
    | None => None
    end
  else Some c.

(** *** What can happen to a connection

    One step of the life of a connection: a call of its methods that
    has returned (or a [Read] that is polling), a tick of the keep-alive,
    or the environment moving on: the clock, and the transport's
    record. *)
Inductive conn_step : Conn -> Conn -> Prop :=
  | step_Write c p c' r : Write c p = Some (c', r) -> conn_step c c'
  | step_Read c lenp c' data e :
      Read c lenp = Returned c' data e -> conn_step c c'
  | step_Read_polling c lenp c' : Read c lenp = Polling c' -> conn_step c c'
  | step_CloseWrite c c' e : CloseWrite c = Some (c', e) -> conn_step c c'
  | step_Close c c' e : Close c = Some (c', e) -> conn_step c c'
  | step_SetDeadline c t : conn_step c (SetDeadline t c)
  | step_SetReadDeadline c t : conn_step c (SetReadDeadline t c)
  | step_SetWriteDeadline c t : conn_step c (SetWriteDeadline t c)
  | step_keepAlive c d c' : keepAlive_tick d c = Some c' -> conn_step c c'
  | step_environment c t now :
      conn_step c (set_clock now (set_transport t c)).

(** [later c c']: [c'] is the connection [c] after any number of steps. *)
Definition later : Conn -> Conn -> Prop := rtc conn_step.
End Conn.

Arguments Conn : clear implicits.
Arguments FlushStep : clear implicits.
Arguments FrameStep : clear implicits.
Arguments ReadOutcome : clear implicits.

(** ** Connections to run the model on *)

Definition toy_transport (maxRawSize : Z) : Transport :=
  mkTransport maxRawSize false [] [] [] [] 0 [] 0 false.

Definition toy_dialer (maxRawSize : Z) : Conn toy :=
  newConn (toy_transport maxRawSize) 10 100 toy_initiator 0.

Definition toy_listener (maxRawSize : Z) : Conn toy :=
  newConn (toy_transport maxRawSize) 10 100 toy_responder 0.

(** The peer's transport after the driver has delivered [raw], one
    [ReadRaw] result per element. *)
Definition deliver {A : AEAD} (raw : list bytes) (c : Conn A) : Conn A :=
  set_transport
    (set_readResults (readResults (transport c) ++ map RawData raw) (transport c)) c.

(** The dialer after [CloseWrite]. *)
Definition toy_half_closed : Conn toy :=
  match CloseWrite (toy_dialer 64) with
  | Some (c, _) => c
  | None => toy_dialer 64
  end.

(** A dialer whose transport refuses the next raw write. *)
Definition toy_failing_dialer : Conn toy :=
  set_transport (set_writeResults [Some (ErrDriver 1)] (toy_transport 64))
    (toy_dialer 64).

(** ** The listener's janitor ([aznet.go]) *)

(** The calls the janitor makes when it evicts a connection: the
    connection's [Close], then the driver's [DeleteToken] and
    [CleanupSession]. Their results are dropped by the janitor. *)
Inductive JanitorCall :=
  | CallClose (id : string)
  | CallDeleteToken (id : string)
  | CallCleanupSession (id : string).

Section Listener.
Context {A : AEAD}.

(** [Listener]: the live map [conns], the [idleTimeout] of its
    configuration, and the calls made so far. *)
Record Listener := mkListener {
  conns : gmap string (Conn A);
  idleTimeout : Z;
  calls : list JanitorCall;
}.

(** The test of the janitor on one connection; [now - peerLastSeen] is
    [time.Since(peerLastSeen)]. *)
Definition evict (idle now : Z) (conn : Conn A) : bool :=
  (closed conn && closedRead conn) || (idle <? now - peerLastSeen conn).

(** The body of the [Range] callback. *)
Definition janitor_visit (now : Z) (l : Listener) (entry : string * Conn A)
  : Listener :=
  let '(id, conn) := entry in
  if evict (idleTimeout l) now conn then
    mkListener (delete id (conns l)) (idleTimeout l)
      (calls l ++ [CallClose id; CallDeleteToken id; CallCleanupSession id])
  else l.

(** One tick of the janitor: [Range] visits every entry of the map once. *)
Definition janitor_tick (now : Z) (l : Listener) : Listener :=
  foldl (janitor_visit now) l (map_to_list (conns l)).

(** The calls made for [id] among [cs], in order. *)
Definition call_id (call : JanitorCall) : string :=
  match call with
  | CallClose i | CallDeleteToken i | CallCleanupSession i => i
  end.

Definition calls_for (id : string) (cs : list JanitorCall) : list JanitorCall :=
  filter (fun call => call_id call = id) cs.
End Listener.

Arguments Listener : clear implicits.

(** A listener with an idle connection, a closed one and a live one. *)
Definition toy_listener_state : Listener toy :=
  mkListener
    (<["idle" := set_peerLastSeen 0 (toy_listener 64)]>
       (<["done" := set_closed true (set_closedRead true
                      (set_peerLastSeen 950 (toy_listener 64)))]>
          (<["live" := set_peerLastSeen 950 (toy_listener 64)]> ∅)))
    100 [].

(** ** Auxiliary predicates *)

(** The bytes of a sequence of frames on the wire. *)
Definition encode_frames (fs : list Frame) : bytes :=
  concat (map (BuildFrame []) fs).

(** A chunk handed to [WriteRaw] within the size bounds of a transport whose
    [MaxRawSize] is [maxRaw]: it was sealed from at most
    [maxRaw - NoiseOverhead] bytes, its ciphertext (tag included) has at
    most [maxRaw - 4] bytes and the chunk at most [maxRaw]. *)
Definition sealed_chunk_ok {A : AEAD} (maxRaw : Z) (chunk : bytes) : Prop :=
  exists k n pt,
    len pt <= maxRaw - NoiseOverhead /\
    chunk = PutUint32 (uint32 (len (aead_seal A k n pt))) ++ aead_seal A k n pt /\
    len (aead_seal A k n pt) <= maxRaw - 4 /\
    len chunk <= maxRaw.

(** The application bytes carried by a sequence of frames: the payloads of
    its DATA frames. *)
Definition payloads (fs : list Frame) : bytes :=
  concat (map (fun f => if decide (Type_ f = MsgTypeData) then Payload f else [])
              fs).

(** A frame as [Write] and [flush] put it on the wire: a DATA frame with a
    payload, or an empty ROTATE frame; short enough for its length, and the
    length of its sealed chunk, to fit 32 bits. *)
Definition wire_frame (f : Frame) : Prop :=
  ((Type_ f = MsgTypeData /\ 0 < len (Payload f)) \/
   (Type_ f = MsgTypeRotate /\ Payload f = [])) /\
  len (BuildFrame [] f) + 16 < 2 ^ 32.

(** The frames in the write buffer line up with the chunks [flush] takes:
    every frame but the last fills a chunk of [maxChunk] bytes, and the
    last one fits in. *)
Fixpoint aligned (maxChunk : Z) (fs : list Frame) : Prop :=
  match fs with
  | [] => True
  | f :: fs' =>
      match fs' with
      | [] => len (BuildFrame [] f) <= maxChunk
      | _ :: _ => len (BuildFrame [] f) = maxChunk /\ aligned maxChunk fs'
      end
  end.

(** The chunks [SealData] makes of the plaintexts [pts] under the key [k],
    starting at the nonce [n]. *)
Fixpoint seal_all {A : AEAD} (k : Key A) (n : Z) (pts : list bytes)
  : list bytes :=
  match pts with
  | [] => []
  | p :: pts =>
      (PutUint32 (uint32 (len (aead_seal A k n p))) ++ aead_seal A k n p)
        :: seal_all k (n + 1) pts
  end.

(** [Write] called on each of [xs] in turn, every call returning its whole
    count and no error. *)
Fixpoint Writes {A : AEAD} (c : Conn A) (xs : list bytes) : option (Conn A) :=
  match xs with
  | [] => Some c
  | x :: xs =>
      match Write c x with
      | Some (c', (_, None)) => Writes c' xs
      | _ => None
      end
  end.

(** How a run of [Read] calls ended. *)
Inductive ReadsEnd :=
  | AllReturned
  | LeftPolling
  | Failed (e : error).

(** [Read] called with destinations of the sizes [ns] in turn, until a call
    returns an error or is left polling: the bytes delivered, and how the
    run ended. *)
Fixpoint Reads {A : AEAD} (c : Conn A) (ns : list nat) : bytes * ReadsEnd :=
  match ns with
  | [] => ([], AllReturned)
  | n :: ns =>
      match Read c n with
      | Returned c' data None =>
          let '(rest, ended) := Reads c' ns in (data ++ rest, ended)
      | Returned c' data (Some e) => (data, Failed e)
      | Polling c' => ([], LeftPolling)
      end
  end.

Section Frames.
Context {A : AEAD}.
Implicit Types c : Conn A.

(** What [flush] leaves alone. *)
Definition flush_frame c c' : Prop :=
  closed c' = closed c /\ closedWrite c' = closedWrite c /\
  closedRead c' = closedRead c /\ closeOnce c' = closeOnce c /\
  bufRead c' = bufRead c /\ bufNoise c' = bufNoise c /\
  readRemain c' = readRemain c /\ mtu c' = mtu c /\
  readDeadline c' = readDeadline c /\ writeDeadline c' = writeDeadline c /\
  clock c' = clock c /\ poll c' = poll c /\
  MaxRawSize (transport c') = MaxRawSize (transport c) /\
  isRotator (transport c') = isRotator (transport c) /\
  readResults (transport c') = readResults (transport c).

(** What [Read] leaves alone; [closedRead] may go from unset to set. *)
Definition read_frame c c' : Prop :=
  closed c' = closed c /\ closedWrite c' = closedWrite c /\
  (closedRead c = true -> closedRead c' = true) /\
  closeOnce c' = closeOnce c /\
  bufWrite c' = bufWrite c /\ mtu c' = mtu c /\
  MaxRawSize (transport c') = MaxRawSize (transport c) /\
  isRotator (transport c') = isRotator (transport c).

(** The write side is shut: [Write] refuses. *)
Definition write_shut c : Prop := closed c = true \/ closedWrite c = true.

(** The result of [Read], with the connection in it changed by [f]. *)
Definition map_step (f : Conn A -> Conn A) (s : FrameStep A) : FrameStep A :=
  match s with
  | FrameReturn c d e => FrameReturn (f c) d e
  | FrameSkip c => FrameSkip (f c)
  | FrameNone c => FrameNone (f c)
  end.

Definition map_outcome (f : Conn A -> Conn A) (o : ReadOutcome A)
  : ReadOutcome A :=
  match o with
  | Returned c d e => Returned (f c) d e
  | Polling c => Polling (f c)
  end.

(** A connection ready to write: nothing is left in the write buffer, the
    MTU is the one [newConn] computed and is positive, and a raw unit is
    short enough for its length to fit 32 bits. *)
Definition writer_ready c : Prop :=
  bufWrite c = [] /\
  mtu c = MaxRawSize (transport c) - NoiseOverhead - FrameHeaderSize /\
  0 < mtu c /\
  MaxRawSize (transport c) < 2 ^ 32.

(** The bytes the transport still has to hand to [Read]. *)
Definition inbound_data (rs : list RawResult) : bytes :=
  concat (map (fun r => match r with RawData b => b | RawErr _ => [] end) rs).

(** A transport that only ever reports that nothing is there yet. *)
Definition no_failure (rs : list RawResult) : Prop :=
  Forall (fun r => match r with RawData _ => True | RawErr e => e = ErrNoData end)
         rs.

(** The reading side in the middle of a stream. [hd] is the part of a DATA
    payload still to be drained, [Fbuf] the frames in the read buffer,
    [Frest] the frames still sealed: their chunks are what the Noise buffer
    holds, followed by what the transport will deliver, followed by
    [future], the part of the stream the peer's driver has not made
    visible. *)
Definition reader_inv (future : bytes) c (hd : bytes) (Fbuf Frest : list Frame)
  : Prop :=
  closed c = false /\ closedRead c = false /\ readDeadline c = None /\
  no_failure (readResults (transport c)) /\
  readRemain c = len hd /\
  bufRead c = hd ++ encode_frames Fbuf /\
  Forall wire_frame Fbuf /\ Forall wire_frame Frest /\
  (bufNoise c ++ inbound_data (readResults (transport c))) ++ future =
    concat (seal_all (cs_k (recv_cs (noise c))) (cs_n (recv_cs (noise c)))
              (map (BuildFrame []) Frest)) /\
  (Frest <> [] ->
     cs_n (recv_cs (noise c)) + Z.of_nat (length Frest) <= MaxNonce + 1).

(** The reading side before the first byte of the stream: open, no
    deadline, empty buffers. *)
Definition reader_fresh c : Prop :=
  closed c = false /\ closedRead c = false /\ readDeadline c = None /\
  readRemain c = 0 /\ bufRead c = [] /\ bufNoise c = [].

(** The Noise buffer holds no whole chunk. *)
Definition noise_short c (Frest : list Frame) : Prop :=
  match Frest with
  | [] => True
  | f :: _ =>
      len (bufNoise c) <
      4 + len (aead_seal A (cs_k (recv_cs (noise c))) (cs_n (recv_cs (noise c)))
                 (BuildFrame [] f))
  end.
End Frames.


(** The dialer after writing "hello" and "!", and the listener once the
    driver has handed over the chunks, cut in pieces of its own and with
    polls that found nothing in between. *)
Definition toy_messages : list bytes := [[x68; x65; x6c; x6c; x6f]; [x21]].

Definition toy_dialer_written : Conn toy :=
  default (toy_dialer 28) (Writes (toy_dialer 28) toy_messages).

Definition toy_wire : bytes := concat (written (transport toy_dialer_written)).

Definition toy_listener_fed : Conn toy :=
  set_transport
    (set_readResults
       [RawErr ErrNoData; RawData (take 7 toy_wire); RawErr ErrNoData;
        RawData (drop 7 toy_wire)]
       (toy_transport 28))
    (toy_listener 28).

(** ** Further connections to run the model on *)

(** The dialer after [Close]. *)
Definition toy_closed : Conn toy :=
  match Close (toy_dialer 64) with
  | Some (c, _) => c
  | None => toy_dialer 64
  end.

(** ** The inbound stream up to its FIN frame *)

(** The frame [CloseWrite] and [Close] put on the wire. *)
Definition fin_frame : Frame := mkFrame [] MsgTypeFin.

(** The end of a stream of frames: the FIN frame when the peer has shut
    its writing side, nothing otherwise. *)
Definition fin_tail (fin : bool) : list Frame :=
  if fin then [fin_frame] else [].

Definition stream_frame (f : Frame) : Prop := wire_frame f \/ f = fin_frame.

(** [reader_inv] for a stream that may end with the FIN frame: the frames
    buffered and still sealed are wire frames, followed by the FIN frame
    when [fin] is set. *)
Definition stream_inv {A : AEAD} (fin : bool) (future : bytes) (c : Conn A)
    (hd : bytes) (Fbuf Frest : list Frame) : Prop :=
  closed c = false /\ closedRead c = false /\ readDeadline c = None /\
  no_failure (readResults (transport c)) /\
  readRemain c = len hd /\
  bufRead c = hd ++ encode_frames Fbuf /\
  (exists F, Fbuf ++ Frest = F ++ fin_tail fin /\ Forall wire_frame F) /\
  (bufNoise c ++ inbound_data (readResults (transport c))) ++ future =
    concat (seal_all (cs_k (recv_cs (noise c))) (cs_n (recv_cs (noise c)))
              (map (BuildFrame []) Frest)) /\
  (Frest <> [] ->
     cs_n (recv_cs (noise c)) + Z.of_nat (length Frest) <= MaxNonce + 1).

(** The listener after writing "hello" and shutting its writing side, and
    the half-closed dialer once the driver has handed over what the
    listener sent. *)
Definition toy_peer_frames : list Frame :=
  [mkFrame [x68; x65; x6c; x6c; x6f] MsgTypeData].

Definition toy_peer_closed : Conn toy :=
  match Writes (toy_listener 64) [[x68; x65; x6c; x6c; x6f]] with
  | Some c =>
      match CloseWrite c with
      | Some (c', _) => c'
      | None => c
      end
  | None => toy_listener 64
  end.

Definition toy_half_closed_fed : Conn toy :=
  set_clock 0
    (set_transport
       (set_readResults (map RawData (written (transport toy_peer_closed)))
          (transport toy_half_closed))
       toy_half_closed).

(** A dialer over a rotating transport too small for a frame header,
    which asks for a rotation at once. *)
Definition toy_small_rotator : Conn toy :=
  newConn (set_shouldRotate [true] (set_isRotator true (toy_transport 22)))
    10 100 toy_initiator 0.

(** ** The configuration ([Config], its defaults and its options)

    Durations are in nanoseconds. The context and the metrics of a
    [Config] are not modelled, nor are the two options that only set
    them ([WithContext], [WithMetrics]). *)

Module Cfg.

Definition Millisecond : Z := 1000000.
Definition Second : Z := 1000 * Millisecond.
Definition Minute : Z := 60 * Second.
Definition Hour : Z := 60 * Minute.

Definition DefaultHandshakeEndpoint : string := "handshake".
Definition DefaultTokenEndpoint : string := "token".
Definition DefaultReqPrefix : string := "req".
Definition DefaultResPrefix : string := "res".
Definition DefaultSASExpiry : Z := 24 * Hour.
Definition DefaultDataPoll : Z := 500 * Millisecond.
Definition DefaultAcceptPoll : Z := 1 * Second.
Definition DefaultPingInterval : Z := 30 * Second.
Definition DefaultConnectTimeout : Z := 30 * Second.
Definition DefaultIdleTimeout : Z := 5 * Minute.

Record Config := mkConfig {
  tokenEndpoint : string;
  handshakeEndpoint : string;
  reqPrefix : string;
  resPrefix : string;
  sasExpiry : Z;
  fastPoll : Z;
  dataPoll : Z;
  acceptPoll : Z;
  pingInterval : Z;
  connectTimeout : Z;
  idleTimeout : Z;
}.

Inductive config_error := ErrInvalidConfig.

(** [Config.Validate]; [None] is the nil error. *)
Definition Validate (c : Config) : option config_error :=
  if decide (handshakeEndpoint c = tokenEndpoint c) then Some ErrInvalidConfig
  else if decide (reqPrefix c = resPrefix c) then Some ErrInvalidConfig
  else None.

Definition defaultConfig : Config :=
  mkConfig DefaultTokenEndpoint DefaultHandshakeEndpoint
    DefaultReqPrefix DefaultResPrefix DefaultSASExpiry
    DefaultFastPoll DefaultDataPoll DefaultAcceptPoll DefaultPingInterval
    DefaultConnectTimeout DefaultIdleTimeout.

(** The functional options, each the closure its constructor returns. *)
Inductive Option :=
  | WithEndpoints (handshake token : string)
  | WithPrefixes (req res : string)
  | WithSASExpiry (d : Z)
  | WithAcceptPoll (d : Z)
  | WithFastPoll (d : Z)
  | WithDataPoll (d : Z)
  | WithPing (d : Z)
  | WithConnectTimeout (d : Z)
  | WithIdleTimeout (d : Z).

(** [o(cfg)]. *)
Definition apply (o : Option) (c : Config) : Config :=
  match o with
  | WithEndpoints handshake token =>
      let c :=
        if decide (handshake = "") then c
        else mkConfig (tokenEndpoint c) handshake (reqPrefix c) (resPrefix c)
               (sasExpiry c) (fastPoll c) (dataPoll c) (acceptPoll c)
               (pingInterval c) (connectTimeout c) (idleTimeout c) in
      if decide (token = "") then c
      else mkConfig token (handshakeEndpoint c) (reqPrefix c) (resPrefix c)
             (sasExpiry c) (fastPoll c) (dataPoll c) (acceptPoll c)
             (pingInterval c) (connectTimeout c) (idleTimeout c)
  | WithPrefixes req res =>
      let c :=
        if decide (req = "") then c
        else mkConfig (tokenEndpoint c) (handshakeEndpoint c) req (resPrefix c)
               (sasExpiry c) (fastPoll c) (dataPoll c) (acceptPoll c)
               (pingInterval c) (connectTimeout c) (idleTimeout c) in
      if decide (res = "") then c
      else mkConfig (tokenEndpoint c) (handshakeEndpoint c) (reqPrefix c) res
             (sasExpiry c) (fastPoll c) (dataPoll c) (acceptPoll c)
             (pingInterval c) (connectTimeout c) (idleTimeout c)
  | WithSASExpiry d =>
      if 0 <? d
      then mkConfig (tokenEndpoint c) (handshakeEndpoint c) (reqPrefix c)
             (resPrefix c) d (fastPoll c) (dataPoll c) (acceptPoll c)
             (pingInterval c) (connectTimeout c) (idleTimeout c)
      else c
  | WithAcceptPoll d =>
      if 0 <? d
      then mkConfig (tokenEndpoint c) (handshakeEndpoint c) (reqPrefix c)
             (resPrefix c) (sasExpiry c) (fastPoll c) (dataPoll c) d
             (pingInterval c) (connectTimeout c) (idleTimeout c)
      else c
  | WithFastPoll d =>
      if 0 <? d
      then mkConfig (tokenEndpoint c) (handshakeEndpoint c) (reqPrefix c)
             (resPrefix c) (sasExpiry c) d (dataPoll c) (acceptPoll c)
             (pingInterval c) (connectTimeout c) (idleTimeout c)
      else c
  | WithDataPoll d =>
      if 0 <? d
      then mkConfig (tokenEndpoint c) (handshakeEndpoint c) (reqPrefix c)
             (resPrefix c) (sasExpiry c) (fastPoll c) d (acceptPoll c)
             (pingInterval c) (connectTimeout c) (idleTimeout c)
      else c
  | WithPing d =>
      if 0 <=? d
      then mkConfig (tokenEndpoint c) (handshakeEndpoint c) (reqPrefix c)
             (resPrefix c) (sasExpiry c) (fastPoll c) (dataPoll c)
             (acceptPoll c) d (connectTimeout c) (idleTimeout c)
      else c
  | WithConnectTimeout d =>
      if 0 <? d
      then mkConfig (tokenEndpoint c) (handshakeEndpoint c) (reqPrefix c)
             (resPrefix c) (sasExpiry c) (fastPoll c) (dataPoll c)
             (acceptPoll c) (pingInterval c) d (idleTimeout c)
      else c
  | WithIdleTimeout d =>
      if 0 <? d
      then mkConfig (tokenEndpoint c) (handshakeEndpoint c) (reqPrefix c)
             (resPrefix c) (sasExpiry c) (fastPoll c) (dataPoll c)
             (acceptPoll c) (pingInterval c) (connectTimeout c) d
      else c
  end.

(** [applyConfig]: the options applied in order on top of the defaults. *)
Definition applyConfig (opts : list Option) : Config :=
  foldl (fun c o => apply o c) defaultConfig opts.

(** What every configuration made by [applyConfig] satisfies. *)
Definition sane (c : Config) : Prop :=
  tokenEndpoint c <> "" /\ handshakeEndpoint c <> "" /\
  reqPrefix c <> "" /\ resPrefix c <> "" /\
  0 < sasExpiry c /\ 0 < fastPoll c /\ 0 < dataPoll c /\ 0 < acceptPoll c /\
  0 <= pingInterval c /\ 0 < connectTimeout c /\ 0 < idleTimeout c.

End Cfg.

(** ** The table driver ([aztable.go])

    An entity is the JSON object [buildTableEntity] marshals and
    [extractTableData] unmarshals: a map from property names to strings.
    [json.Marshal] writes a [[]byte] as the base64 string of its bytes
    ([b64encode]); [extractTableData] decodes such a string with
    [base64.StdEncoding.DecodeString] ([b64decode], whose error it
    drops). *)

Module Table.

Definition MaxTableBinaryPropertySize : Z := 64 * 1024.
Definition MaxTableProperties : Z := 15.
Definition MaxTableEntitySize : Z :=
  MaxTableProperties * MaxTableBinaryPropertySize.

Definition dataKeys : list string :=
  ["Data"; "Data01"; "Data02"; "Data03"; "Data04"; "Data05"; "Data06";
   "Data07"; "Data08"; "Data09"; "Data10"; "Data11"; "Data12"; "Data13";
   "Data14"].

Abbreviation Entity := (gmap string string).

Section Entity.
Variable b64encode : bytes -> string.
Variable b64decode : string -> bytes.

(** The loop of [buildTableEntity] from the property [keys] on. *)
Fixpoint build_loop (keys : list string) (data : bytes) (m : Entity) : Entity :=
  match keys with
  | [] => m
  | key :: keys =>
      if 0 <? len data then
        let take_ := Z.min (len data) MaxTableBinaryPropertySize in
        build_loop keys (drop (Z.to_nat take_) data)
          (<[(key +:+ "@odata.type")%string := "Edm.Binary"]>
             (<[key := b64encode (take (Z.to_nat take_) data)]> m))
      else m
  end.

Definition buildTableEntity (pk rk : string) (data : bytes) : Entity :=
  build_loop dataKeys data (<["RowKey" := rk]> (<["PartitionKey" := pk]> ∅)).

(** The loop of [extractTableData] from the property [keys] on. *)
Fixpoint extract_loop (keys : list string) (m : Entity) (res : bytes) : bytes :=
  match keys with
  | [] => res
  | key :: keys =>
      match m !! key with
      | None => res
      | Some v => extract_loop keys m (res ++ b64decode v)
      end
  end.

Definition extractTableData (m : Entity) : bytes := extract_loop dataKeys m [].
End Entity.

(** [byte('0' + d)] as a character. *)
Definition digit (d : Z) : Ascii.ascii :=
  Ascii.ascii_of_N (Z.to_N ((48 + d) mod 256)).

(** The loop of [formatRowKey] with [i] digits to go; Go's [%] and [/]
    truncate towards zero. *)
Fixpoint formatRowKey_loop (i : nat) (seq : Z) (b : string) : string :=
  match i with
  | O => b
  | S i => formatRowKey_loop i (Z.quot seq 10) (String (digit (Z.rem seq 10)) b)
  end.

Definition formatRowKey (seq : Z) : string := formatRowKey_loop 9 seq "".

(** [tableTransport]: the two sequence numbers (the clients and names do
    not change). *)
Record tableTransport := mkTableTransport { txSeq : Z; rxSeq : Z }.

Section Transport.
Variable b64encode : bytes -> string.
Variable b64decode : string -> bytes.

(** [WriteRaw]: the transport afterwards and the entity handed to
    [AddEntity], whose error is what [WriteRaw] returns. *)
Definition WriteRaw (t : tableTransport) (data : bytes)
  : tableTransport * Entity :=
  (mkTableTransport (txSeq t + 1) (rxSeq t),
   buildTableEntity b64encode "data" (formatRowKey (txSeq t)) data).

(** What the pager of [ReadRaw] gives: no page, an error, or the entities
    of the first page. *)
Inductive PageResponse :=
  | NoPage
  | PageError
  | Page (entities : list Entity).

(** [meta.RowKey] after [json.Unmarshal(e, &meta)]. *)
Definition RowKey (e : Entity) : string := default "" (e !! "RowKey").

(** The loop of [ReadRaw] over the entities of the page. *)
Fixpoint read_page (seq : Z) (es : list Entity) (combined : bytes)
    (processed : Z) : bytes * Z :=
  match es with
  | [] => (combined, processed)
  | e :: es =>
      if decide (RowKey e = formatRowKey (seq + processed))
      then read_page seq es (combined ++ extractTableData b64decode e)
             (processed + 1)
      else (combined, processed)
  end.

Definition ReadRaw (t : tableTransport) (resp : PageResponse)
  : tableTransport * result bytes :=
  match resp with
  | Page (e :: es) =>
      let '(combined, processed) := read_page (rxSeq t) (e :: es) [] 0 in
      if 0 <? processed
      then (mkTableTransport (txSeq t) (rxSeq t + processed), Ok combined)
      else (t, Err ErrNoData)
  | _ => (t, Err ErrNoData)
  end.
(** [WriteRaw] called on each chunk in turn, each with whether
    [AddEntity] stored the entity ([WriteRaw] returns its error when it
    did not): the transport afterwards and the entities stored, in the
    order of the calls. *)
Fixpoint WriteRaws (t : tableTransport) (ws : list (bytes * bool))
  : tableTransport * list Entity :=
  match ws with
  | [] => (t, [])
  | (d, stored) :: ws =>
      let '(t1, e) := WriteRaw t d in
      let '(t2, es) := WriteRaws t1 ws in
      (t2, if stored then e :: es else es)
  end.
End Transport.

End Table.

(** ** The blob transport ([frame.go])

    The append blobs live in the storage service. What the service
    answers to a call is an input of the model: whether [AppendBlock]
    and [Create] succeeded, and the response to [DownloadStream]. *)

Module Blob.

Definition MaxBlobBlockSize : Z := 4 * 1024 * 1024.
Definition MaxBlocksPerBlob : Z := 50000.

Record blobTransport := mkBlobTransport {
  reqPrefix : string;
  resPrefix : string;
  txBlob : string;
  rxBlob : string;
  blocksWritten : Z;
  readOffset : Z;
  txSeq : Z;
  rxSeq : Z;
  isInitiator : bool;
}.

(** [strconv.Itoa]. *)
Definition Itoa (n : Z) : string := pretty n.

(** The transport [NewTransport] makes (the creation of the two blobs on
    the responder's side apart). *)
Definition NewTransport (reqPrefix resPrefix : string) (isInitiator : bool)
  : blobTransport :=
  if isInitiator
  then mkBlobTransport reqPrefix resPrefix
         (reqPrefix +:+ "-0") (resPrefix +:+ "-0") 0 0 0 0 true
  else mkBlobTransport reqPrefix resPrefix
         (resPrefix +:+ "-0") (reqPrefix +:+ "-0") 0 0 0 0 false.

(** [WriteRaw]; [appended] tells whether [AppendBlock] returned no
    error. *)
Definition WriteRaw (t : blobTransport) (appended : bool) : blobTransport :=
  if appended
  then mkBlobTransport (reqPrefix t) (resPrefix t) (txBlob t) (rxBlob t)
         (blocksWritten t + 1) (readOffset t) (txSeq t) (rxSeq t)
         (isInitiator t)
  else t.

(** The outcome of [DownloadStream] from an offset: the two status codes
    [ReadRaw] takes for "nothing there yet", another error, or a body
    with the content length of the response, if it has one. *)
Inductive DownloadResponse :=
  | DlNotFound
  | DlRangeNotSatisfiable
  | DlError (e : error)
  | DlBody (contentLength : option Z) (body : bytes).

Definition ReadRaw (t : blobTransport) (resp : DownloadResponse)
  : blobTransport * result bytes :=
  match resp with
  | DlNotFound | DlRangeNotSatisfiable => (t, Err ErrNoData)
  | DlError e => (t, Err e)
  | DlBody contentLength body =>
      let contentLen := default 0 contentLength in
      if contentLen =? 0 then (t, Err ErrNoData)
      else (mkBlobTransport (reqPrefix t) (resPrefix t) (txBlob t) (rxBlob t)
              (blocksWritten t) (readOffset t + contentLen) (txSeq t)
              (rxSeq t) (isInitiator t),
            Ok body)
  end.

Definition ShouldRotate (t : blobTransport) : bool :=
  MaxBlocksPerBlob - 10 <=? blocksWritten t.

(** [RotateTX]; the error it returns is that of [Create]. *)
Definition RotateTX (t : blobTransport) : blobTransport :=
  let txSeq' := txSeq t + 1 in
  let prefix := if isInitiator t then reqPrefix t else resPrefix t in
  mkBlobTransport (reqPrefix t) (resPrefix t)
    (prefix +:+ "-" +:+ Itoa txSeq') (rxBlob t) 0 (readOffset t) txSeq'
    (rxSeq t) (isInitiator t).

Definition RotateRX (t : blobTransport) : blobTransport :=
  let rxSeq' := rxSeq t + 1 in
  let prefix := if isInitiator t then resPrefix t else reqPrefix t in
  mkBlobTransport (reqPrefix t) (resPrefix t)
    (txBlob t) (prefix +:+ "-" +:+ Itoa rxSeq') (blocksWritten t) 0 (txSeq t)
    rxSeq' (isInitiator t).

(** What the service answers to a download from [offset] when the blob
    is absent ([None]) or holds [content]: not found; the range cannot be
    satisfied, at or past the end; the bytes from the offset on, with
    their number as the content length. Another error can come at any
    time. *)
Definition answers (blob : option bytes) (offset : Z)
    (resp : DownloadResponse) : Prop :=
  match resp with
  | DlNotFound => blob = None
  | DlRangeNotSatisfiable =>
      exists content, blob = Some content /\ len content <= offset
  | DlError _ => True
  | DlBody contentLength body =>
      exists content,
        blob = Some content /\
        body = drop (Z.to_nat offset) content /\
        contentLength = Some (len body)
  end.

(** [ReadRaw] called once for each response in turn: the transport
    afterwards and the bytes of the bodies returned, end to end. *)
Fixpoint ReadRaws (t : blobTransport) (resps : list DownloadResponse)
  : blobTransport * bytes :=
  match resps with
  | [] => (t, [])
  | resp :: resps =>
      match ReadRaw t resp with
      | (t', Ok body) =>
          let '(t'', rest) := ReadRaws t' resps in (t'', body ++ rest)
      | (t', Err _) => ReadRaws t' resps
      end
  end.

(** A run of downloads of one blob that only grows, up to [final]: each
    response answers a download, from the offset the transport has by
    then, of the blob as it is at that moment. *)
Fixpoint served (final : bytes) (t : blobTransport)
    (resps : list DownloadResponse) : Prop :=
  match resps with
  | [] => True
  | resp :: resps =>
      (exists blob,
         answers blob (readOffset t) resp /\
         match blob with
         | Some content => content `prefix_of` final
         | None => True
         end) /\
      served final (ReadRaw t resp).1 resps
  end.

End Blob.

(** ** Byte and integer lemmas *)

Lemma byte_to_Z_range b : 0 <= byte_to_Z b < 256.
Proof.
  unfold byte_to_Z. pose proof (Byte.to_N_bounded b). lia.
Qed.

Lemma byte_to_of_Z v : byte_to_Z (byte_of_Z v) = v mod 256.
Proof.
  unfold byte_to_Z, byte_of_Z.
  assert (Hr : 0 <= v mod 256 < 256) by (apply Z.mod_pos_bound; lia).
  destruct (Byte.of_N (Z.to_N (v mod 256))) as [b|] eqn:E.
  - apply Byte.to_of_N in E. rewrite E. lia.
  - apply Byte.of_N_None_iff in E. lia.
Qed.

Lemma byte_of_to_Z b : byte_of_Z (byte_to_Z b) = b.
Proof.
  unfold byte_of_Z, byte_to_Z.
  pose proof (Byte.to_N_bounded b) as Hb.
  rewrite Z.mod_small by lia. rewrite N2Z.id.
  by rewrite Byte.of_to_N.
Qed.

Lemma len_app {A} (a b : list A) : len (a ++ b) = len a + len b.
Proof. unfold len. rewrite length_app. lia. Qed.

Lemma len_nonneg {A} (a : list A) : 0 <= len a.
Proof. unfold len. lia. Qed.

Lemma len_PutUint32 v : len (PutUint32 v) = 4.
Proof. reflexivity. Qed.

Lemma uint32_range v : 0 <= uint32 v < 2 ^ 32.
Proof. unfold uint32. apply Z.mod_pos_bound. lia. Qed.

Lemma uint32_small v : 0 <= v < 2 ^ 32 -> uint32 v = v.
Proof. unfold uint32. intros. by apply Z.mod_small. Qed.

Lemma Uint32_PutUint32_app v rest :
  0 <= v < 2 ^ 32 -> Uint32 (PutUint32 v ++ rest) = v.
Proof.
  intros Hv. unfold PutUint32, Uint32. cbn [app].
  rewrite !byte_to_of_Z.
  apply Z.bits_inj'. intros n Hn.
  rewrite !Z.lor_spec.
  rewrite !Z.shiftl_spec by lia.
  change 256 with (2 ^ 8).
  destruct (Z.ltb_spec n 8) as [H8|H8].
  { rewrite (Z.testbit_neg_r _ (n - 24)), (Z.testbit_neg_r _ (n - 16)),
      (Z.testbit_neg_r _ (n - 8)) by lia.
    rewrite Z.mod_pow2_bits_low by lia. done. }
  rewrite (Z.mod_pow2_bits_high v 8 n) by lia. rewrite orb_false_r.
  destruct (Z.ltb_spec n 16) as [H16|H16].
  { rewrite (Z.testbit_neg_r _ (n - 24)), (Z.testbit_neg_r _ (n - 16)) by lia.
    rewrite Z.mod_pow2_bits_low by lia.
    rewrite Z.shiftr_spec by lia. cbn [orb]. f_equal. lia. }
  rewrite (Z.mod_pow2_bits_high _ 8 (n - 8)) by lia. rewrite orb_false_r.
  destruct (Z.ltb_spec n 24) as [H24|H24].
  { rewrite (Z.testbit_neg_r _ (n - 24)) by lia.
    rewrite Z.mod_pow2_bits_low by lia.
    rewrite Z.shiftr_spec by lia. cbn [orb]. f_equal. lia. }
  rewrite (Z.mod_pow2_bits_high _ 8 (n - 16)) by lia. rewrite orb_false_r.
  destruct (Z.ltb_spec n 32) as [H32|H32].
  { rewrite Z.mod_pow2_bits_low by lia.
    rewrite Z.shiftr_spec by lia. f_equal. lia. }
  rewrite (Z.mod_pow2_bits_high _ 8 (n - 24)) by lia.
  symmetry. apply (Z.bits_above_log2 v n); [lia|].
  destruct (Z.eq_dec v 0) as [->|Hz]; [cbn; lia|].
  apply Z.log2_lt_pow2; [lia|].
  apply Z.lt_le_trans with (2 ^ 32); [lia|].
  apply Z.pow_le_mono_r; lia.
Qed.

Lemma Uint32_PutUint32 v : 0 <= v < 2 ^ 32 -> Uint32 (PutUint32 v) = v.
Proof.
  intros Hv. rewrite <- (app_nil_r (PutUint32 v)).
  by apply Uint32_PutUint32_app.
Qed.

Lemma Uint32_app4 (h rest : bytes) :
  length h = 4%nat -> Uint32 (h ++ rest) = Uint32 h.
Proof.
  intros Hh. destruct h as [|a [|b [|c [|d [|e h]]]]]; try discriminate.
  reflexivity.
Qed.

Lemma lor_lt_pow2 a b n :
  0 <= n -> 0 <= a < 2 ^ n -> 0 <= b < 2 ^ n -> 0 <= Z.lor a b < 2 ^ n.
Proof.
  intros Hn Ha Hb.
  assert (Hnn : 0 <= Z.lor a b) by (apply Z.lor_nonneg; lia).
  split; [done|].
  destruct (Z.eq_dec (Z.lor a b) 0) as [->|Hne].
  { apply Z.pow_pos_nonneg; lia. }
  apply Z.log2_lt_pow2; [lia|].
  rewrite Z.log2_lor by lia.
  assert (Hl : forall x, 0 <= x < 2 ^ n -> Z.log2 x < n \/ x = 0).
  { intros x Hx. destruct (Z.eq_dec x 0) as [->|Hx0]; [by right|left].
    apply Z.log2_lt_pow2; lia. }
  pose proof (Z.log2_nonneg a). pose proof (Z.log2_nonneg b).
  destruct (Hl a Ha) as [?| ->], (Hl b Hb) as [?| ->];
    change (Z.log2 0) with 0 in *; try lia.
  exfalso. apply Hne. reflexivity.
Qed.

Lemma Uint32_range b : 0 <= Uint32 b < 2 ^ 32.
Proof.
  unfold Uint32.
  destruct b as [|b0 [|b1 [|b2 [|b3 r]]]]; try (cbn; lia).
  pose proof (byte_to_Z_range b0). pose proof (byte_to_Z_range b1).
  pose proof (byte_to_Z_range b2). pose proof (byte_to_Z_range b3).
  rewrite !Z.shiftl_mul_pow2 by lia.
  repeat (apply lor_lt_pow2; [lia| |]); lia.
Qed.

Lemma take_4_PutUint32_app v (rest : bytes) :
  take 4 (PutUint32 v ++ rest) = PutUint32 v.
Proof. reflexivity. Qed.

Lemma drop_4_PutUint32_app v (rest : bytes) :
  drop 4 (PutUint32 v ++ rest) = rest.
Proof. reflexivity. Qed.

Lemma len_take {A} (n : Z) (l : list A) :
  0 <= n <= len l -> len (take (Z.to_nat n) l) = n.
Proof. unfold len. intros. rewrite length_take. lia. Qed.

Lemma len_drop {A} (n : Z) (l : list A) :
  0 <= n -> len (drop (Z.to_nat n) l) = Z.max 0 (len l - n).
Proof. unfold len. intros. rewrite length_drop. lia. Qed.

Lemma len_replicate {A} (n : Z) (x : A) :
  0 <= n -> len (replicate (Z.to_nat n) x) = n.
Proof. unfold len. intros. rewrite length_replicate. lia. Qed.

Lemma len_nil {A} : len (@nil A) = 0.
Proof. reflexivity. Qed.

Lemma len_cons {A} (x : A) l : len (x :: l) = 1 + len l.
Proof. unfold len. cbn [length]. lia. Qed.

Lemma len_0_nil {A} (l : list A) : len l = 0 -> l = [].
Proof. unfold len. destruct l; [done|cbn; lia]. Qed.

(** ** The toy cipher satisfies the cipher laws *)

Lemma byte_of_Z_cong a b : a mod 256 = b mod 256 -> byte_of_Z a = byte_of_Z b.
Proof. unfold byte_of_Z. by intros ->. Qed.

Lemma toy_unpad_pad k n b : toy_unpad k n (toy_pad k n b) = b.
Proof.
  unfold toy_unpad, toy_pad. rewrite byte_to_of_Z.
  rewrite <- (byte_of_to_Z b) at 2. apply byte_of_Z_cong.
  replace ((byte_to_Z b + k + n) mod 256 - k - n)
    with ((byte_to_Z b + k + n) mod 256 - (k + n)) by lia.
  rewrite Zminus_mod_idemp_l. f_equal. lia.
Qed.

Lemma toy_ok : aead_ok toy.
Proof.
  split; cbn [toy aead_seal aead_open Key]; intros k n p.
  - unfold toy_seal, toy_tag. rewrite len_app. unfold len.
    rewrite length_map, length_replicate. lia.
  - unfold toy_open, toy_seal.
    assert (Ht : length (toy_tag k n) = 16%nat) by apply length_replicate.
    rewrite length_app, length_map, Ht.
    replace (length p + 16 - 16)%nat with (length (map (toy_pad k n) p))
      by (rewrite length_map; lia).
    rewrite drop_app_length, take_app_length.
    rewrite ?length_map.
    destruct (Nat.ltb_spec (length p + 16) 16); [lia|].
    rewrite decide_True by done.
    f_equal. rewrite map_map. rewrite <- (map_id p) at 2.
    apply map_ext. intros b. apply toy_unpad_pad.
Qed.

(** ** Seal and unseal *)

Section NoiseLemmas.
Context {A : AEAD} (HA : aead_ok A).

Lemma EncryptData_ok (nh : Noise A) p :
  cs_n (send_cs nh) <= MaxNonce ->
  exists nh',
    EncryptData nh p =
      Ok (aead_seal A (cs_k (send_cs nh)) (cs_n (send_cs nh)) p, nh') /\
    send_cs nh' =
      mkCipherState (cs_k (send_cs nh)) (cs_n (send_cs nh) + 1) /\
    recv_cs nh' = recv_cs nh /\
    isInitiator nh' = isInitiator nh.
Proof.
  unfold send_cs, recv_cs, EncryptData, Encrypt. intros Hn.
  destruct (isInitiator nh) eqn:Hi.
  - destruct (Z.ltb_spec MaxNonce (cs_n (cs1 nh))); [lia|].
    eexists. split; [reflexivity|]. cbn. rewrite ?Hi. done.
  - destruct (Z.ltb_spec MaxNonce (cs_n (cs2 nh))); [lia|].
    eexists. split; [reflexivity|]. cbn. rewrite ?Hi. done.
Qed.

Lemma DecryptData_ok (nh : Noise A) p :
  cs_n (recv_cs nh) <= MaxNonce ->
  exists nh',
    DecryptData nh
      (aead_seal A (cs_k (recv_cs nh)) (cs_n (recv_cs nh)) p) = Ok (p, nh') /\
    recv_cs nh' =
      mkCipherState (cs_k (recv_cs nh)) (cs_n (recv_cs nh) + 1) /\
    send_cs nh' = send_cs nh /\
    isInitiator nh' = isInitiator nh.
Proof.
  destruct HA as [_ Hopen].
  unfold send_cs, recv_cs, DecryptData, Decrypt. intros Hn.
  destruct (isInitiator nh) eqn:Hi.
  - destruct (Z.ltb_spec MaxNonce (cs_n (cs2 nh))); [lia|].
    rewrite Hopen. eexists. split; [reflexivity|]. cbn. rewrite ?Hi. done.
  - destruct (Z.ltb_spec MaxNonce (cs_n (cs1 nh))); [lia|].
    rewrite Hopen. eexists. split; [reflexivity|]. cbn. rewrite ?Hi. done.
Qed.

Lemma SealData_ok (nh : Noise A) dst p :
  cs_n (send_cs nh) <= MaxNonce ->
  exists nh',
    SealData nh dst p =
      Ok (PutUint32 (uint32 (len p + 16)) ++
          aead_seal A (cs_k (send_cs nh)) (cs_n (send_cs nh)) p, nh') /\
    send_cs nh' =
      mkCipherState (cs_k (send_cs nh)) (cs_n (send_cs nh) + 1) /\
    recv_cs nh' = recv_cs nh /\
    isInitiator nh' = isInitiator nh.
Proof.
  intros Hn. destruct (EncryptData_ok nh p Hn) as (nh' & E & H1 & H2 & H3).
  exists nh'. unfold SealData. rewrite E.
  destruct HA as [Hlen _]. by rewrite Hlen.
Qed.

(** [UnsealData] on a buffer that starts with a whole chunk. *)
Lemma UnsealData_chunk (nh : Noise A) dst L (c rest : bytes) :
  0 <= L < 2 ^ 32 -> len c = L ->
  UnsealData nh dst (PutUint32 L ++ c ++ rest) =
    match DecryptData nh c with
    | Err e => (mkUnsealed None None (Some e), nh)
    | Ok (decrypted, nh') =>
        (mkUnsealed (Some decrypted) (Some rest) None, nh')
    end.
Proof.
  intros HL Hc. unfold UnsealData.
  rewrite take_4_PutUint32_app, drop_4_PutUint32_app.
  rewrite Uint32_PutUint32 by done.
  rewrite !len_app, len_PutUint32.
  pose proof (len_nonneg rest).
  destruct (Z.ltb_spec (4 + (len c + len rest)) 4); [lia|].
  destruct (Z.ltb_spec (4 + (len c + len rest)) (4 + L)); [lia|].
  assert (Hn : Z.to_nat L = length c) by (unfold len in Hc; lia).
  rewrite Hn, take_app_length.
  replace (Z.to_nat (4 + L)) with (length (PutUint32 L) + length c)%nat
    by (cbn [PutUint32 length]; lia).
  rewrite drop_app_add', drop_app_length by done.
  reflexivity.
Qed.

Lemma UnsealData_short (nh : Noise A) dst data :
  len data < 4 \/ len data < 4 + Uint32 (take 4 data) ->
  UnsealData nh dst data =
    (mkUnsealed None (Some data) (Some ErrShortBuffer), nh).
Proof.
  intros H. unfold UnsealData.
  destruct (Z.ltb_spec (len data) 4); [done|].
  destruct (Z.ltb_spec (len data) (4 + Uint32 (take 4 data))); [done|lia].
Qed.
End NoiseLemmas.

(** ** Adaptive poller *)

Lemma int64_small v : - 2 ^ 63 <= v < 2 ^ 63 -> int64 v = v.
Proof. unfold int64. intros. rewrite Z.mod_small; lia. Qed.

Lemma Sleep_Fast p : Fast (Sleep p).1 = Fast p.
Proof. unfold Sleep. by destruct (skip p). Qed.

Lemma Sleep_Steady p : Steady (Sleep p).1 = Steady p.
Proof. unfold Sleep. by destruct (skip p). Qed.

Lemma Sleep_skip p : skip (Sleep p).1 = false.
Proof. unfold Sleep. by destruct (skip p). Qed.

Lemma Sleep_skipped p : skip p = true -> Sleep p =
  (mkAdaptivePoll (Cur p) (Fast p) (Steady p) false, None).
Proof. unfold Sleep. by intros ->. Qed.

Lemma Sleep_blocking p :
  0 <= Cur p <= Steady p -> Steady p <= 2 ^ 62 -> skip p = false ->
  Sleep p = (mkAdaptivePoll (Z.min (2 * Cur p) (Steady p)) (Fast p) (Steady p)
               false, Some (Cur p)).
Proof.
  intros Hc Hs Hk. unfold Sleep. rewrite Hk.
  destruct (Z.ltb_spec (Cur p) (Steady p)).
  - rewrite int64_small by lia.
    destruct (Z.ltb_spec (Steady p) (Cur p * 2)); do 2 f_equal; lia.
  - do 2 f_equal. lia.
Qed.

Lemma Sleep_inv p :
  0 <= Fast p -> Steady p <= 2 ^ 62 -> poll_inv p ->
  poll_inv (Sleep p).1 /\ Cur p <= Cur (Sleep p).1.
Proof.
  unfold poll_inv. intros Hf Hs Hi.
  destruct (skip p) eqn:Hk.
  - rewrite Sleep_skipped by done. cbn. lia.
  - rewrite Sleep_blocking by (done || lia). cbn. lia.
Qed.

Lemma idle_intervals_sorted n : forall p,
  0 <= Fast p -> Steady p <= 2 ^ 62 -> poll_inv p ->
  StronglySorted Z.le (idle_intervals n p) /\
  Forall (fun d => Cur p <= d <= Steady p) (idle_intervals n p).
Proof.
  induction n as [|n IH]; intros p Hf Hs Hi; cbn [idle_intervals].
  { split; constructor. }
  destruct (Sleep_inv p Hf Hs Hi) as [Hi' Hmono].
  specialize (IH (Sleep p).1).
  rewrite Sleep_Fast, Sleep_Steady in IH.
  destruct (IH Hf Hs Hi') as [Hsorted Hall].
  assert (Hall' : Forall (fun d => Cur p <= d <= Steady p)
                    (idle_intervals n (Sleep p).1)).
  { eapply Forall_impl; [exact Hall|]. cbn. intros d Hd. lia. }
  destruct (Sleep p) as [p' [d|]] eqn:E; cbn [fst] in *; [|done].
  assert (d = Cur p) as ->.
  { unfold Sleep in E. destruct (skip p); congruence. }
  unfold poll_inv in Hi.
  split.
  - constructor; [done|]. eapply Forall_impl; [exact Hall'|]. cbn. lia.
  - constructor; [lia|done].
Qed.

(** ** Frames at the head of the read buffer *)

Lemma BuildFrame_nil (f : Frame) :
  BuildFrame [] f = PutUint32 (uint32 (len (Payload f))) ++ [Type_ f] ++ Payload f.
Proof. reflexivity. Qed.

Lemma BuildFrame_app buf f : BuildFrame buf f = buf ++ BuildFrame [] f.
Proof. reflexivity. Qed.

Lemma len_BuildFrame buf f :
  len (BuildFrame buf f) = len buf + (FrameHeaderSize + len (Payload f)).
Proof.
  unfold BuildFrame, FrameHeaderSize.
  rewrite !len_app, len_PutUint32, len_cons, len_nil. lia.
Qed.

Section ReadHead.
Context {A : AEAD}.
Implicit Types c : Conn A.

Lemma read_head_frame c lenp ty payload rest :
  at_frame_boundary c -> len payload < 2 ^ 32 ->
  bufRead c = BuildFrame [] (mkFrame payload ty) ++ rest ->
  read_head c lenp =
    let c := set_peerLastSeen (clock c) c in
    if decide (ty = MsgTypeData) then
      let k := Z.to_nat (Z.min (len payload) (Z.of_nat lenp)) in
      FrameReturn (set_readRemain (len payload - len (take k (payload ++ rest)))
                     (set_bufRead (drop k (payload ++ rest)) c))
                  (take k (payload ++ rest)) None
    else if decide (ty = MsgTypePing) then FrameSkip (set_bufRead rest c)
    else if decide (ty = MsgTypeFin) then
      FrameReturn (set_closedRead true (set_bufRead rest c)) [] (Some EOF)
    else if decide (ty = MsgTypeRotate) then
      let c := set_bufRead rest c in
      FrameSkip (if isRotator (transport c)
                 then set_transport (RotateRX (transport c)) c else c)
    else FrameSkip (set_bufRead rest c).
Proof.
  intros (Hc & Hr & Hd & Hm) Hp Hb.
  pose proof (len_nonneg payload) as Hp0. pose proof (len_nonneg rest) as Hr0.
  unfold read_head. rewrite Hc, Hr, Hd, Hm. cbn [Z.ltb Z.compare].
  rewrite Hb, BuildFrame_nil. cbn [Payload Type_].
  rewrite uint32_small by lia.
  assert (Hlen : len (((PutUint32 (len payload) ++ [ty] ++ payload) ++ rest))
                 = 5 + len payload + len rest).
  { rewrite !len_app, len_PutUint32, len_cons, len_nil. lia. }
  rewrite Hlen. unfold FrameHeaderSize.
  destruct (Z.leb_spec (4 + 1) (5 + len payload + len rest)); [|lia].
  change (take 5 ((PutUint32 (len payload) ++ [ty] ++ payload) ++ rest))
    with (PutUint32 (len payload) ++ [ty] ++ take 0 (payload ++ rest)).
  rewrite take_0.
  change (take 4 (PutUint32 (len payload) ++ [ty] ++ []))
    with (PutUint32 (len payload)).
  change (nth 4 (PutUint32 (len payload) ++ [ty] ++ []) x00) with ty.
  rewrite Uint32_PutUint32 by lia.
  destruct (Z.leb_spec (4 + 1 + len payload) (5 + len payload + len rest)); [|lia].
  assert (Hnext : drop (Z.to_nat (4 + 1 + len payload))
                    ((PutUint32 (len payload) ++ [ty] ++ payload) ++ rest) = rest).
  { replace (Z.to_nat (4 + 1 + len payload))
      with (length (PutUint32 (len payload) ++ [ty] ++ payload)).
    - by rewrite drop_app_length.
    - rewrite !length_app. cbn [PutUint32 length]. unfold len. lia. }
  cbn zeta. cbn [bufRead set_peerLastSeen]. rewrite Hb, BuildFrame_nil.
  cbn [Payload Type_]. rewrite uint32_small by lia.
  rewrite Hnext.
  change (drop 5 ((PutUint32 (len payload) ++ [ty] ++ payload) ++ rest))
    with (payload ++ rest).
  reflexivity.
Qed.
End ReadHead.

Section ReadLoop.
Context {A : AEAD}.
Implicit Types c : Conn A.

Lemma skip_frames_return fuel c lenp c' d e :
  read_head c lenp = FrameReturn c' d e ->
  skip_frames fuel c lenp = FrameReturn c' d e.
Proof. intros H. destruct fuel; cbn [skip_frames]; by rewrite H. Qed.

Lemma skip_frames_none fuel c lenp c' :
  read_head c lenp = FrameNone c' ->
  skip_frames fuel c lenp = FrameNone c'.
Proof. intros H. destruct fuel; cbn [skip_frames]; by rewrite H. Qed.

Lemma skip_frames_skip fuel c lenp c' :
  read_head c lenp = FrameSkip c' ->
  skip_frames (S fuel) c lenp = skip_frames fuel c' lenp.
Proof. intros H. cbn [skip_frames]. by rewrite H. Qed.

Lemma read_loop_return fuel c lenp c' d e :
  read_head c lenp = FrameReturn c' d e ->
  read_loop fuel c lenp = Returned c' d e.
Proof.
  intros H. destruct fuel; cbn [read_loop];
    by rewrite (skip_frames_return _ _ _ _ _ _ H).
Qed.

(** Draining the rest of a partly read DATA frame. *)
Lemma read_head_remain c lenp :
  closed c = false -> closedRead c = false ->
  deadline_passed (readDeadline c) (clock c) = false ->
  0 < readRemain c ->
  read_head c lenp =
    let k := Z.to_nat (Z.min (readRemain c) (Z.of_nat lenp)) in
    FrameReturn (set_readRemain (readRemain c - len (take k (bufRead c)))
                   (set_bufRead (drop k (bufRead c)) c))
                (take k (bufRead c)) None.
Proof.
  intros Hc Hr Hd Hm. unfold read_head. rewrite Hc, Hr, Hd.
  destruct (Z.ltb_spec 0 (readRemain c)); [done|lia].
Qed.
End ReadLoop.

(** ** The close flags only ever go up *)

Section Flags.
Context {A : AEAD}.
Implicit Types c : Conn A.

Lemma flush_frame_refl c : flush_frame c c.
Proof. by repeat split. Qed.

Lemma flush_frame_trans c1 c2 c3 :
  flush_frame c1 c2 -> flush_frame c2 c3 -> flush_frame c1 c3.
Proof. unfold flush_frame. intros H1 H2. intuition congruence. Qed.

Lemma ShouldRotate_frame (t : Transport) :
  MaxRawSize (ShouldRotate t).1 = MaxRawSize t /\
  isRotator (ShouldRotate t).1 = isRotator t /\
  readResults (ShouldRotate t).1 = readResults t /\
  written (ShouldRotate t).1 = written t /\
  writeResults (ShouldRotate t).1 = writeResults t.
Proof. unfold ShouldRotate. destruct (shouldRotate t); by cbn. Qed.

Lemma WriteRaw_frame (t : Transport) d :
  MaxRawSize (WriteRaw t d).1 = MaxRawSize t /\
  isRotator (WriteRaw t d).1 = isRotator t /\
  readResults (WriteRaw t d).1 = readResults t /\
  shouldRotate (WriteRaw t d).1 = shouldRotate t.
Proof. unfold WriteRaw. destruct (writeResults t) as [|[e|] rs]; by cbn. Qed.

Lemma WriteRaw_written (t : Transport) d :
  match WriteRaw t d with
  | (t', None) => written t' = written t ++ [d]
  | (t', Some _) => written t' = written t
  end.
Proof. unfold WriteRaw. by destruct (writeResults t) as [|[e|] rs]. Qed.

Lemma RotateTX_frame (t : Transport) :
  MaxRawSize (RotateTX t).1 = MaxRawSize t /\
  isRotator (RotateTX t).1 = isRotator t /\
  readResults (RotateTX t).1 = readResults t /\
  shouldRotate (RotateTX t).1 = shouldRotate t /\
  written (RotateTX t).1 = written t /\
  writeResults (RotateTX t).1 = writeResults t.
Proof. unfold RotateTX. cbn. destruct (rotateTXResults t); by cbn. Qed.

Lemma flush_step_frame c :
  match flush_step c with
  | FlushDone c' => c' = c
  | FlushMore c' | FlushErr c' _ => flush_frame c c'
  | FlushPanic => True
  end.
Proof.
  unfold flush_step.
  destruct (len (bufWrite c) =? 0); [done|].
  pose proof (ShouldRotate_frame (transport c)) as HS.
  destruct (isRotator (transport c)) eqn:Hrot.
  - destruct (ShouldRotate (transport c)) as [t1 rot]. cbn [fst] in HS.
    destruct rot.
    + destruct (SealData _ _ _) as [[sealed nh]|e]; cbn.
      2:{ repeat split; cbn; intuition congruence. }
      pose proof (WriteRaw_frame t1 sealed) as HW.
      destruct (WriteRaw t1 sealed) as [t2 [e|]]; cbn [fst] in HW.
      { repeat split; cbn; intuition congruence. }
      pose proof (RotateTX_frame t2) as HR.
      destruct (RotateTX t2) as [t3 [e|]]; cbn [fst] in HR;
        repeat split; cbn; intuition congruence.
    + destruct (_ <? 0); [done|].
      destruct (SealData _ _ _) as [[sealed nh]|e]; cbn.
      2:{ repeat split; cbn; intuition congruence. }
      pose proof (WriteRaw_frame t1 sealed) as HW.
      destruct (WriteRaw t1 sealed) as [t2 [e|]]; cbn [fst] in HW;
        repeat split; cbn; intuition congruence.
  - destruct (_ <? 0); [done|].
    destruct (SealData _ _ _) as [[sealed nh]|e]; cbn.
    2:{ repeat split; cbn; intuition congruence. }
    pose proof (WriteRaw_frame (transport c) sealed) as HW.
    destruct (WriteRaw (transport c) sealed) as [t2 [e|]]; cbn [fst] in HW;
      repeat split; cbn; intuition congruence.
Qed.

Lemma flush_loop_frame fuel : forall c c' r,
  flush_loop fuel c = Some (c', r) -> flush_frame c c'.
Proof.
  induction fuel as [|fuel IH]; intros c c' r; cbn [flush_loop]; [done|].
  pose proof (flush_step_frame c) as Hs.
  destruct (flush_step c) as [c1|c1|c1 e|]; intros H; simplify_eq.
  - apply flush_frame_refl.
  - eapply flush_frame_trans; [exact Hs|]. by eapply IH.
  - done.
Qed.

Lemma flush_frame_set_bufWrite c b : flush_frame c (set_bufWrite b c).
Proof. by repeat split. Qed.
End Flags.

Section ReadFrame.
Context {A : AEAD}.
Implicit Types c : Conn A.

Lemma read_frame_refl c : read_frame c c.
Proof. by repeat split. Qed.

Lemma read_frame_trans c1 c2 c3 :
  read_frame c1 c2 -> read_frame c2 c3 -> read_frame c1 c3.
Proof. unfold read_frame. intros H1 H2. intuition congruence. Qed.

Lemma read_head_frame_inv c lenp :
  match read_head c lenp with
  | FrameReturn c' _ _ | FrameSkip c' | FrameNone c' => read_frame c c'
  end.
Proof.
  unfold read_head.
  repeat case_match; simplify_eq; repeat split; cbn; done.
Qed.

Lemma skip_frames_frame_inv fuel : forall c lenp,
  match skip_frames fuel c lenp with
  | FrameReturn c' _ _ | FrameSkip c' | FrameNone c' => read_frame c c'
  end.
Proof.
  induction fuel as [|fuel IH]; intros c lenp; cbn [skip_frames];
    pose proof (read_head_frame_inv c lenp) as Hh;
    destruct (read_head c lenp) as [c1 d e|c1|c1]; try done.
  specialize (IH c1 lenp).
  destruct (skip_frames fuel c1 lenp); by eapply read_frame_trans.
Qed.

Lemma unseal_loop_frame_inv fuel : forall c,
  read_frame c (unseal_loop fuel c).1.
Proof.
  induction fuel as [|fuel IH]; intros c; cbn [unseal_loop].
  { apply read_frame_refl. }
  destruct (UnsealData (noise c) [] (bufNoise c)) as [u nh].
  destruct (err u) as [e|].
  { destruct (decide (e = ErrShortBuffer)); apply read_frame_refl. }
  eapply read_frame_trans; [|apply IH].
  unfold cleanupToken_Do. repeat case_match; by repeat split.
Qed.

Lemma read_loop_frame_inv fuel : forall c lenp,
  match read_loop fuel c lenp with
  | Returned c' _ _ | Polling c' => read_frame c c'
  end.
Proof.
  induction fuel as [|fuel IH]; intros c lenp; cbn [read_loop];
    pose proof (skip_frames_frame_inv (length (bufRead c)) c lenp) as Hs;
    destruct (skip_frames (length (bufRead c)) c lenp) as [c1 d e|c1|c1];
    try done.
  unfold ReadRaw.
  destruct (readResults (transport c1)) as [|[b|e] rs]; [done| |].
  - match goal with
    | |- context [unseal_loop ?n ?x] =>
        pose proof (unseal_loop_frame_inv n x) as Hu;
        destruct (unseal_loop n x) as [c2 [e|]]
    end; cbn [fst] in Hu.
    + eapply read_frame_trans; [exact Hs|].
      eapply read_frame_trans; [|exact Hu]. by repeat split.
    + match goal with
      | |- context [read_loop fuel ?x lenp] =>
          specialize (IH x lenp); destruct (read_loop fuel x lenp)
      end;
      (eapply read_frame_trans; [exact Hs|];
       eapply read_frame_trans; [|exact IH];
       eapply read_frame_trans; [|eapply read_frame_trans; [exact Hu|]];
       by repeat split).
  - destruct (decide (e = ErrNoData)).
    + destruct (Sleep _) as [p slept].
      match goal with
      | |- context [read_loop fuel ?x lenp] =>
          specialize (IH x lenp); destruct (read_loop fuel x lenp)
      end;
      (eapply read_frame_trans; [exact Hs|];
       eapply read_frame_trans; [|exact IH]; by repeat split).
    + destruct (decide (e = ErrCanceled)); [destruct (closed _)|];
        (eapply read_frame_trans; [exact Hs|]; by repeat split).
Qed.
End ReadFrame.

(** ** [Read] does not look at the write side *)

Section ReadIgnoresWrite.
Context {A : AEAD}.
Implicit Types c : Conn A.

Lemma read_head_closedWrite b c lenp :
  read_head (set_closedWrite b c) lenp =
  map_step (set_closedWrite b) (read_head c lenp).
Proof.
  unfold read_head.
  cbn [set_closedWrite closed closedRead readDeadline clock readRemain
       bufRead transport].
  repeat case_match; try reflexivity; cbn in *; congruence.
Qed.

Lemma skip_frames_closedWrite b fuel : forall c lenp,
  skip_frames fuel (set_closedWrite b c) lenp =
  map_step (set_closedWrite b) (skip_frames fuel c lenp).
Proof.
  induction fuel as [|fuel IH]; intros c lenp; cbn [skip_frames];
    rewrite read_head_closedWrite;
    destruct (read_head c lenp); cbn [map_step]; try reflexivity.
  apply IH.
Qed.

Lemma unseal_loop_closedWrite b fuel : forall c,
  unseal_loop fuel (set_closedWrite b c) =
  ((set_closedWrite b (unseal_loop fuel c).1), (unseal_loop fuel c).2).
Proof.
  induction fuel as [|fuel IH]; intros c; cbn [unseal_loop]; [done|].
  cbn [set_closedWrite noise bufNoise].
  destruct (UnsealData (noise c) [] (bufNoise c)) as [u nh].
  destruct (err u) as [e|].
  { by destruct (decide (e = ErrShortBuffer)). }
  match goal with
  | |- unseal_loop fuel ?x = (set_closedWrite b (unseal_loop fuel ?y).1, _) =>
      replace x with (set_closedWrite b y)
  end.
  - apply IH.
  - unfold cleanupToken_Do. cbn. by repeat case_match.
Qed.

Lemma read_loop_closedWrite b fuel : forall c lenp,
  read_loop fuel (set_closedWrite b c) lenp =
  map_outcome (set_closedWrite b) (read_loop fuel c lenp).
Proof.
  induction fuel as [|fuel IH]; intros c lenp; cbn [read_loop];
    change (bufRead (set_closedWrite b c)) with (bufRead c);
    rewrite skip_frames_closedWrite;
    destruct (skip_frames (length (bufRead c)) c lenp) as [c1 d e|c1|c1];
    cbn [map_step map_outcome]; try reflexivity.
  change (transport (set_closedWrite b c1)) with (transport c1).
  destruct (ReadRaw (transport c1)) as [[t [data|e]]|]; [| |done].
  - change (bufNoise (set_closedWrite b c1)) with (bufNoise c1).
    change (set_bufNoise (bufNoise c1 ++ data)
              (set_transport t (set_closedWrite b c1)))
      with (set_closedWrite b
              (set_bufNoise (bufNoise c1 ++ data) (set_transport t c1))).
    rewrite unseal_loop_closedWrite.
    change (bufNoise (set_closedWrite b ?x)) with (bufNoise x).
    destruct (unseal_loop _ _) as [c2 [e|]]; cbn [fst snd map_outcome];
      [reflexivity|].
    apply (IH (set_poll (Reset (poll c2)) c2)).
  - destruct (decide (e = ErrNoData)).
    + change (poll (set_transport t (set_closedWrite b c1)))
        with (poll (set_transport t c1)).
      destruct (Sleep (poll (set_transport t c1))) as [p slept].
      match goal with
      | |- _ = map_outcome _ (read_loop fuel ?y lenp) => apply (IH y)
      end.
    + destruct (decide (e = ErrCanceled)); [|reflexivity].
      change (closed (set_transport t (set_closedWrite b c1)))
        with (closed (set_transport t c1)).
      by destruct (closed (set_transport t c1)).
Qed.

Lemma Read_closedWrite b c lenp :
  Read (set_closedWrite b c) lenp =
  map_outcome (set_closedWrite b) (Read c lenp).
Proof. unfold Read. apply read_loop_closedWrite. Qed.
End ReadIgnoresWrite.

(** ** Steps of a connection and the close flags *)

Section Steps.
Context {A : AEAD}.
Implicit Types c : Conn A.

Lemma Write_shut c p :
  write_shut c -> Write c p = Some (c, (0, Some ErrClosedPipe)).
Proof.
  intros [H|H]; unfold Write; rewrite H; [done|].
  by rewrite orb_true_r.
Qed.

Lemma Write_frame c p c' r :
  Write c p = Some (c', r) -> flush_frame c c'.
Proof.
  unfold Write. intros H.
  destruct (closed c || closedWrite c); [simplify_eq; apply flush_frame_refl|].
  destruct (deadline_passed _ _); [simplify_eq; apply flush_frame_refl|].
  destruct (write_loop _ _ _ _) as [buf|]; [|done].
  destruct (flush _) as [[c1 [e|]]|] eqn:E; simplify_eq;
    (eapply flush_frame_trans;
     [apply (flush_frame_set_bufWrite c buf)|by eapply flush_loop_frame]).
Qed.

Lemma CloseWrite_shut c c' e :
  CloseWrite c = Some (c', e) ->
  write_shut c' /\ closedRead c' = closedRead c /\ closed c' = closed c.
Proof.
  unfold CloseWrite, write_shut. intros H.
  destruct (closed c) eqn:Hc; [simplify_eq; by auto|].
  destruct (closedWrite c) eqn:Hw; [simplify_eq; by auto|].
  apply flush_loop_frame in H.
  destruct H as (H1 & H2 & H3 & _). cbn in H1, H2, H3.
  rewrite H1, H2, H3. auto.
Qed.

Lemma Close_flags c c' e :
  Close c = Some (c', e) ->
  (write_shut c -> write_shut c') /\
  (closedRead c = true -> closedRead c' = true).
Proof.
  unfold Close, write_shut. intros H.
  destruct (closeOnce c); [by simplify_eq|].
  destruct (flush _) as [[c1 r1]|] eqn:E1; [|done].
  apply flush_loop_frame in E1.
  match type of H with
  | context [flush ?x] => destruct (flush x) as [[c2 r2]|] eqn:E2; [|done];
      apply flush_loop_frame in E2;
      assert (F : flush_frame c1 x) by (destruct (closedWrite c1); by repeat split)
  end.
  simplify_eq. cbn.
  destruct E1 as (H1 & _ & H3 & _), E2 as (G1 & _ & G3 & _),
    F as (F1 & _ & F3 & _).
  cbn in H1, H3. split.
  - intros _. left. congruence.
  - intros Hr. congruence.
Qed.

Lemma keepAlive_frame d c c' :
  keepAlive_tick d c = Some c' -> flush_frame c c'.
Proof.
  unfold keepAlive_tick. intros H.
  destruct (closed c || closedWrite c); [simplify_eq; apply flush_frame_refl|].
  destruct (_ <=? _); [|simplify_eq; apply flush_frame_refl].
  destruct (flush _) as [[c1 r]|] eqn:E; simplify_eq.
  eapply flush_frame_trans; [|by eapply flush_loop_frame].
  apply flush_frame_set_bufWrite.
Qed.

Lemma Read_frame c lenp :
  match Read c lenp with
  | Returned c' _ _ | Polling c' => read_frame c c'
  end.
Proof. apply read_loop_frame_inv. Qed.

Lemma conn_step_flags c c' :
  conn_step c c' ->
  (write_shut c -> write_shut c') /\
  (closedRead c = true -> closedRead c' = true).
Proof.
  unfold write_shut.
  destruct 1 as [c p c' r H|c lenp c' d e H|c lenp c' H|c c' e H|c c' e H
                |c t|c t|c t|c d c' H|c t now].
  - apply Write_frame in H. destruct H as (H1 & H2 & H3 & _).
    rewrite H1, H2, H3. auto.
  - pose proof (Read_frame c lenp) as F. rewrite H in F.
    destruct F as (H1 & H2 & H3 & _). rewrite H1, H2. auto.
  - pose proof (Read_frame c lenp) as F. rewrite H in F.
    destruct F as (H1 & H2 & H3 & _). rewrite H1, H2. auto.
  - apply CloseWrite_shut in H. destruct H as (H1 & H2 & H3).
    rewrite H2. auto.
  - by apply Close_flags in H.
  - auto. - auto. - auto.
  - apply keepAlive_frame in H. destruct H as (H1 & H2 & H3 & _).
    rewrite H1, H2, H3. auto.
  - auto.
Qed.

Lemma later_flags c c' :
  later c c' ->
  (write_shut c -> write_shut c') /\
  (closedRead c = true -> closedRead c' = true).
Proof.
  induction 1 as [|c1 c2 c3 Hstep _ IH]; [auto|].
  apply conn_step_flags in Hstep. intuition.
Qed.

Lemma set_closedWrite_id c :
  set_closedWrite (closedWrite c) (set_closedWrite false c) = c.
Proof. by destruct c. Qed.

Lemma Read_EOF c lenp :
  closed c = false -> closedRead c = true ->
  Read c lenp = Returned c [] (Some EOF).
Proof.
  intros Hc Hr. unfold Read. apply read_loop_return.
  unfold read_head. by rewrite Hc, Hr.
Qed.

Lemma take_min_app (payload rest : bytes) (lenp : nat) :
  take (Z.to_nat (Z.min (len payload) (Z.of_nat lenp))) (payload ++ rest)
  = take lenp payload.
Proof.
  unfold len.
  destruct (Nat.le_gt_cases (length payload) lenp).
  - replace (Z.to_nat _) with (length payload) by lia.
    rewrite take_app_length. by rewrite take_ge.
  - replace (Z.to_nat _) with lenp by lia.
    rewrite take_app_le by lia. done.
Qed.
End Steps.

(** ** [flush] only ever takes bytes from the head of the write buffer *)

Section FlushBuffer.
Context {A : AEAD}.
Implicit Types c : Conn A.

Lemma flush_step_suffix c :
  match flush_step c with
  | FlushDone c' => c' = c /\ bufWrite c = []
  | FlushMore c' | FlushErr c' _ => exists k, bufWrite c' = drop k (bufWrite c)
  | FlushPanic => True
  end.
Proof.
  unfold flush_step.
  destruct (Z.eqb_spec (len (bufWrite c)) 0) as [H0|H0].
  { split; [done|]. by apply len_0_nil. }
  destruct (if isRotator (transport c) then ShouldRotate (transport c)
            else (transport c, false)) as [t1 rot].
  destruct rot.
  - destruct (SealData _ _ _) as [[sealed nh]|e]; [|by exists 0%nat].
    cbn [transport set_noise set_transport].
    destruct (WriteRaw t1 sealed) as [t2 [e|]]; [by exists 0%nat|].
    destruct (RotateTX t2) as [t3 [e|]]; by exists 0%nat.
  - destruct (_ <? 0); [done|].
    destruct (SealData _ _ _) as [[sealed nh]|e]; [|by eexists].
    cbn [transport set_noise set_transport set_bufWrite].
    destruct (WriteRaw t1 sealed) as [t2 [e|]]; by eexists.
Qed.

Lemma flush_loop_suffix fuel : forall c c' r,
  flush_loop fuel c = Some (c', r) ->
  (exists k, bufWrite c' = drop k (bufWrite c)) /\
  (r = None -> bufWrite c' = []).
Proof.
  induction fuel as [|fuel IH]; intros c c' r; cbn [flush_loop]; [done|].
  pose proof (flush_step_suffix c) as Hs.
  destruct (flush_step c) as [c1|c1|c1 e|]; intros H; simplify_eq.
  - destruct Hs as [-> Hnil]. split; [by exists 0%nat|done].
  - destruct Hs as [k Hk]. destruct (IH _ _ _ H) as [[k' Hk'] Hnone].
    split; [|done]. exists (k + k')%nat. by rewrite Hk', Hk, drop_drop.
  - split; [done|]. intros; discriminate.
Qed.

Lemma Write_error_count c p c' n e :
  Write c p = Some (c', (n, Some e)) -> n = 0.
Proof.
  unfold Write. intros H.
  destruct (closed c || closedWrite c); [by simplify_eq|].
  destruct (deadline_passed _ _); [by simplify_eq|].
  destruct (write_loop _ _ _ _); [|done].
  destruct (flush _) as [[c1 [e1|]]|]; by simplify_eq.
Qed.

(** What a turn of [flush] takes from the write buffer and gives to the
    transport: a turn that continues has handed over one chunk, a turn
    that fails has handed over at most the ROTATE chunk, and either has
    taken no more than one chunk's worth of bytes from the buffer. *)
Lemma flush_step_taken c :
  let maxChunk := Z.max 0 (MaxRawSize (transport c) - NoiseOverhead) in
  match flush_step c with
  | FlushDone _ | FlushPanic => True
  | FlushMore c' =>
      exists k ch,
        written (transport c') = written (transport c) ++ [ch] /\
        bufWrite c' = drop k (bufWrite c) /\ Z.of_nat k <= maxChunk
  | FlushErr c' _ =>
      exists k new,
        written (transport c') = written (transport c) ++ new /\
        bufWrite c' = drop k (bufWrite c) /\ Z.of_nat k <= maxChunk
  end.
Proof.
  intros maxChunk. unfold flush_step.
  destruct (len (bufWrite c) =? 0); [done|].
  assert (Hrot : exists t1 rot,
            (if isRotator (transport c) then ShouldRotate (transport c)
             else (transport c, false)) = (t1, rot) /\
            written t1 = written (transport c)).
  { destruct (isRotator (transport c)); [|by eexists _, _].
    pose proof (ShouldRotate_frame (transport c)) as (_ & _ & _ & S4 & _).
    destruct (ShouldRotate (transport c)) as [t1 rot]. by exists t1, rot. }
  destruct Hrot as (t1 & rot & -> & Ht1).
  assert (H0 : Z.of_nat 0 <= maxChunk) by (subst maxChunk; lia).
  destruct rot.
  - destruct (SealData _ _ _) as [[sealed nh]|e].
    2:{ exists 0%nat, []. cbn. by rewrite Ht1, app_nil_r. }
    cbn [transport set_noise set_transport].
    pose proof (WriteRaw_written t1 sealed) as HW.
    destruct (WriteRaw t1 sealed) as [t2 [e|]].
    { exists 0%nat, []. cbn. by rewrite HW, Ht1, app_nil_r. }
    pose proof (RotateTX_frame t2) as (_ & _ & _ & _ & R5 & _).
    destruct (RotateTX t2) as [t3 [e|]]; cbn [fst] in R5.
    + exists 0%nat, [sealed]. cbn. by rewrite R5, HW, Ht1.
    + exists 0%nat, sealed. cbn. by rewrite R5, HW, Ht1.
  - destruct (Z.ltb_spec (Z.min (len (bufWrite (set_transport t1 c)))
                            (MaxRawSize (transport c) - NoiseOverhead)) 0)
      as [|Hge]; [done|].
    set (k := Z.to_nat (Z.min (len (bufWrite (set_transport t1 c)))
                          (MaxRawSize (transport c) - NoiseOverhead))).
    assert (Hk : Z.of_nat k <= maxChunk) by (subst k maxChunk; lia).
    destruct (SealData _ _ _) as [[sealed nh]|e].
    2:{ exists k, []. cbn. by rewrite Ht1, app_nil_r. }
    cbn [transport set_noise set_transport set_bufWrite].
    pose proof (WriteRaw_written t1 sealed) as HW.
    destruct (WriteRaw t1 sealed) as [t2 [e|]]; cbn; rewrite HW, Ht1.
    + exists k, []. by rewrite app_nil_r.
    + by exists k, sealed.
Qed.

(** A [flush] that returns has taken a prefix of the write buffer: no
    more than one chunk's worth of bytes for each chunk the transport
    accepted, and one more for the chunk in hand when it failed. *)
Lemma flush_loop_taken fuel : forall c c' r,
  flush_loop fuel c = Some (c', r) ->
  exists k new,
    written (transport c') = written (transport c) ++ new /\
    bufWrite c' = drop k (bufWrite c) /\
    Z.of_nat k <=
      (len new + 1) * Z.max 0 (MaxRawSize (transport c) - NoiseOverhead).
Proof.
  induction fuel as [|fuel IH]; intros c c' r; cbn [flush_loop]; [done|].
  pose proof (flush_step_taken c) as Hs. cbn zeta in Hs.
  pose proof (flush_step_frame c) as Hf.
  set (M := Z.max 0 (MaxRawSize (transport c) - NoiseOverhead)) in *.
  assert (HM : 0 <= M) by (subst M; lia).
  destruct (flush_step c) as [c1|c1|c1 e|]; intros H; simplify_eq.
  - exists 0%nat, []. rewrite app_nil_r. split; [done|]. split; [done|].
    change (len (@nil bytes)) with 0. lia.
  - destruct Hs as (k1 & ch & W1 & B1 & K1).
    destruct Hf as (_ & _ & _ & _ & _ & _ & _ & _ & _ & _ & _ & _ & HMax & _).
    destruct (IH _ _ _ H) as (k2 & new2 & W2 & B2 & K2).
    rewrite HMax in K2. fold M in K2.
    exists (k1 + k2)%nat, (ch :: new2). split; [|split].
    + rewrite W2, W1, <- app_assoc. done.
    + by rewrite B2, B1, drop_drop.
    + rewrite len_cons. nia.
  - destruct Hs as (k1 & new & W1 & B1 & K1).
    exists k1, new. split; [done|]. split; [done|].
    pose proof (len_nonneg new). nia.
Qed.
End FlushBuffer.

(** ** A turn of [flush] whose raw write fails *)

Section FlushFailure.
Context {A : AEAD} (HA : aead_ok A).
Implicit Types c : Conn A.

Lemma flush_step_write_fails c e rs :
  0 < len (bufWrite c) ->
  NoiseOverhead <= MaxRawSize (transport c) ->
  cs_n (send_cs (noise c)) <= MaxNonce ->
  writeResults (transport c) = Some e :: rs ->
  exists c',
    flush_step c = FlushErr c' e /\
    written (transport c') = written (transport c) /\
    writeResults (transport c') = rs /\
    bufWrite c' =
      if isRotator (transport c) && (ShouldRotate (transport c)).2
      then bufWrite c
      else drop (Z.to_nat (MaxRawSize (transport c) - NoiseOverhead)) (bufWrite c).
Proof.
  intros Hlen Hmax Hn Hw. unfold flush_step.
  destruct (Z.eqb_spec (len (bufWrite c)) 0) as [H0|_]; [lia|].
  pose proof (ShouldRotate_frame (transport c)) as (S1 & S2 & S3 & S4 & S5).
  assert (Hfail : forall t d, writeResults t = Some e :: rs ->
            WriteRaw t d = (set_writeResults rs t, Some e)).
  { intros t d Ht. unfold WriteRaw. by rewrite Ht. }
  destruct (isRotator (transport c)) eqn:Hrot; cbn [andb].
  - destruct (ShouldRotate (transport c)) as [t1 rot] eqn:ES. cbn [fst snd] in *.
    destruct rot.
    + destruct (SealData_ok HA (noise (set_transport t1 c)) []
                  (BuildFrame [] (mkFrame [] MsgTypeRotate)))
        as (nh & E & _); [done|].
      rewrite E. cbn [transport set_noise set_transport].
      rewrite (Hfail t1) by congruence.
      eexists. split; [reflexivity|]. cbn. by rewrite S4.
    + destruct (Z.ltb_spec (Z.min (len (bufWrite (set_transport t1 c)))
                  (MaxRawSize (transport c) - NoiseOverhead)) 0) as [Hneg|_].
      { cbn in Hneg. lia. }
      match goal with
      | |- context [SealData ?n ?d ?p] =>
          destruct (SealData_ok HA n d p) as (nh & E & _); [done|]; rewrite E
      end.
      cbn [transport set_noise set_transport set_bufWrite].
      rewrite (Hfail t1) by congruence.
      eexists. split; [reflexivity|]. cbn. rewrite S4.
      split; [done|]. split; [done|].
      destruct (Z.le_gt_cases (len (bufWrite c))
                  (MaxRawSize (transport c) - NoiseOverhead)).
      * rewrite Z.min_l by done. rewrite !drop_ge; [done| |]; unfold len in *; lia.
      * by rewrite Z.min_r by lia.
  - destruct (Z.ltb_spec (Z.min (len (bufWrite (set_transport (transport c) c)))
                (MaxRawSize (transport c) - NoiseOverhead)) 0) as [Hneg|_].
    { cbn in Hneg. lia. }
    match goal with
    | |- context [SealData ?n ?d ?p] =>
        destruct (SealData_ok HA n d p) as (nh & E & _); [done|]; rewrite E
    end.
    cbn [transport set_noise set_transport set_bufWrite].
    rewrite (Hfail (transport c)) by congruence.
    eexists. split; [reflexivity|]. cbn.
    split; [done|]. split; [done|].
    destruct (Z.le_gt_cases (len (bufWrite c))
                (MaxRawSize (transport c) - NoiseOverhead)).
    * rewrite Z.min_l by done. rewrite !drop_ge; [done| |]; unfold len in *; lia.
    * by rewrite Z.min_r by lia.
Qed.
End FlushFailure.

(** ** The framing loop of [Write] *)

Lemma foldl_BuildFrame fs : forall buf,
  foldl BuildFrame buf fs = buf ++ encode_frames fs.
Proof.
  unfold encode_frames.
  induction fs as [|f fs IH]; intros buf; cbn [foldl map concat].
  - by rewrite app_nil_r.
  - rewrite IH, BuildFrame_app. by rewrite <- app_assoc.
Qed.

Lemma write_loop_frames fuel : forall mtu buf p buf',
  write_loop fuel mtu buf p = Some buf' ->
  buf' = foldl BuildFrame buf (write_frames fuel mtu p).
Proof.
  induction fuel as [|fuel IH]; intros mtu buf p buf'; cbn [write_loop write_frames].
  - destruct (len p <=? 0); [|done]. by intros [= <-].
  - destruct (len p <=? 0); [by intros [= <-]|].
    destruct (_ <? 0); [done|].
    intros H. apply IH in H. by rewrite H.
Qed.

Lemma write_frames_bound fuel : forall mtu p,
  Forall (fun f => Type_ f = MsgTypeData /\ len (Payload f) <= mtu)
         (write_frames fuel mtu p).
Proof.
  induction fuel as [|fuel IH]; intros mtu p; cbn [write_frames].
  - destruct (len p <=? 0); constructor.
  - destruct (len p <=? 0); [constructor|].
    destruct (Z.ltb_spec (Z.min (len p) mtu) 0); constructor; [|apply IH].
    cbn [Type_ Payload]. split; [done|].
    unfold len. rewrite length_take. lia.
Qed.

Lemma write_loop_total fuel : forall mtu buf p,
  0 < mtu -> (length p <= fuel)%nat ->
  write_loop fuel mtu buf p = Some (buf ++ encode_frames (write_frames fuel mtu p)) /\
  concat (map Payload (write_frames fuel mtu p)) = p /\
  Forall (fun f => 0 < len (Payload f)) (write_frames fuel mtu p).
Proof.
  induction fuel as [|fuel IH]; intros mtu buf p Hm Hf;
    cbn [write_loop write_frames].
  - destruct p; [|cbn in Hf; lia]. cbn. by rewrite app_nil_r.
  - destruct (Z.leb_spec (len p) 0) as [Hp|Hp].
    { assert (Hp0 : len p = 0) by (pose proof (len_nonneg p); lia).
      apply len_0_nil in Hp0. subst p. cbn. by rewrite app_nil_r. }
    destruct (Z.ltb_spec (Z.min (len p) mtu) 0); [lia|].
    set (k := Z.to_nat (Z.min (len p) mtu)).
    assert (Hk : (0 < k <= length p)%nat) by (unfold len in *; lia).
    destruct (IH mtu (BuildFrame buf (mkFrame (take k p) MsgTypeData)) (drop k p) Hm)
      as (E & Hcat & Hpos).
    { rewrite length_drop. lia. }
    rewrite E. split.
    + f_equal. unfold encode_frames. cbn [map concat].
      rewrite BuildFrame_app. by rewrite <- app_assoc.
    + split.
      * cbn [map concat Payload]. rewrite Hcat. apply take_drop.
      * constructor; [|done]. cbn [Payload]. unfold len.
        rewrite length_take. lia.
Qed.

Lemma encode_frames_nonempty fs :
  fs <> [] -> 0 < len (encode_frames fs).
Proof.
  destruct fs as [|f fs]; [done|]. intros _.
  unfold encode_frames. cbn [map concat].
  rewrite len_app, len_BuildFrame. unfold FrameHeaderSize.
  pose proof (len_nonneg (Payload f)).
  pose proof (len_nonneg (concat (map (BuildFrame []) fs))).
  change (len (@nil byte)) with 0. lia.
Qed.

(** ** Size of the chunks handed to [WriteRaw] *)

Section ChunkSize.
Context {A : AEAD} (HA : aead_ok A).
Implicit Types c : Conn A.

Lemma SealData_inv (nh nh' : Noise A) dst p sealed :
  SealData nh dst p = Ok (sealed, nh') ->
  sealed = PutUint32 (uint32 (len (aead_seal A (cs_k (send_cs nh)) (cs_n (send_cs nh)) p)))
             ++ aead_seal A (cs_k (send_cs nh)) (cs_n (send_cs nh)) p.
Proof.
  unfold SealData, EncryptData, Encrypt, send_cs.
  destruct (isInitiator nh); destruct (MaxNonce <? _); intros H; by simplify_eq.
Qed.

Lemma sealed_chunk_ok_intro maxRaw (nh nh' : Noise A) dst p sealed :
  len p <= maxRaw - NoiseOverhead ->
  SealData nh dst p = Ok (sealed, nh') ->
  sealed_chunk_ok (A:=A) maxRaw sealed.
Proof.
  intros Hp E. apply SealData_inv in E. destruct HA as [Hlen _].
  exists (cs_k (send_cs nh)), (cs_n (send_cs nh)), p.
  split; [done|]. split; [done|].
  unfold NoiseOverhead in Hp.
  split; [rewrite Hlen; lia|].
  rewrite E, len_app, len_PutUint32, Hlen. lia.
Qed.

Lemma flush_step_chunks c :
  (isRotator (transport c) = true ->
   FrameHeaderSize + NoiseOverhead <= MaxRawSize (transport c)) ->
  match flush_step c with
  | FlushDone c' | FlushMore c' | FlushErr c' _ =>
      exists new,
        written (transport c') = written (transport c) ++ new /\
        Forall (sealed_chunk_ok (A:=A) (MaxRawSize (transport c))) new
  | FlushPanic => True
  end.
Proof.
  intros Hmax. unfold flush_step.
  assert (Hnil : forall l : list bytes, exists new,
            l = l ++ new /\
            Forall (sealed_chunk_ok (A:=A) (MaxRawSize (transport c))) new).
  { intros l. exists []. by rewrite app_nil_r. }
  destruct (len (bufWrite c) =? 0); [apply Hnil|].
  assert (Hrot : exists t1 rot,
            (if isRotator (transport c) then ShouldRotate (transport c)
             else (transport c, false)) = (t1, rot) /\
            written t1 = written (transport c) /\
            (rot = true -> isRotator (transport c) = true)).
  { destruct (isRotator (transport c)); [|by eexists _, _].
    pose proof (ShouldRotate_frame (transport c)) as (_ & _ & _ & S4 & _).
    destruct (ShouldRotate (transport c)) as [t1 rot]. by exists t1, rot. }
  destruct Hrot as (t1 & rot & -> & Ht1 & Hr).
  destruct rot.
  - specialize (Hmax (Hr eq_refl)).
    destruct (SealData _ _ _) as [[sealed nh]|e] eqn:E;
      [|cbn; rewrite Ht1; apply Hnil].
    apply (sealed_chunk_ok_intro (MaxRawSize (transport c))) in E.
    2:{ rewrite len_BuildFrame. cbn [Payload]. change (len (@nil byte)) with 0.
        unfold FrameHeaderSize, NoiseOverhead in *. lia. }
    cbn [transport set_noise set_transport].
    pose proof (WriteRaw_written t1 sealed) as HW.
    destruct (WriteRaw t1 sealed) as [t2 [e|]].
    { cbn. rewrite HW, Ht1. apply Hnil. }
    pose proof (RotateTX_frame t2) as (_ & _ & _ & _ & R5 & _).
    destruct (RotateTX t2) as [t3 [e|]]; cbn [fst] in R5; cbn;
      rewrite R5, HW, Ht1; exists [sealed]; by repeat constructor.
  - destruct (Z.ltb_spec (Z.min (len (bufWrite (set_transport t1 c)))
                            (MaxRawSize (transport c) - NoiseOverhead)) 0)
      as [|Hge]; [done|].
    destruct (SealData _ _ _) as [[sealed nh]|e] eqn:E;
      [|cbn; rewrite Ht1; apply Hnil].
    apply (sealed_chunk_ok_intro (MaxRawSize (transport c))) in E.
    2:{ unfold len. rewrite length_take. cbn [bufWrite set_transport] in *.
        unfold len in *. lia. }
    cbn [transport set_noise set_transport set_bufWrite].
    pose proof (WriteRaw_written t1 sealed) as HW.
    destruct (WriteRaw t1 sealed) as [t2 [e|]]; cbn; rewrite HW, Ht1.
    + apply Hnil.
    + exists [sealed]. by repeat constructor.
Qed.

Lemma flush_loop_chunks fuel : forall c c' r,
  (isRotator (transport c) = true ->
   FrameHeaderSize + NoiseOverhead <= MaxRawSize (transport c)) ->
  flush_loop fuel c = Some (c', r) ->
  exists new,
    written (transport c') = written (transport c) ++ new /\
    Forall (sealed_chunk_ok (A:=A) (MaxRawSize (transport c))) new.
Proof.
  induction fuel as [|fuel IH]; intros c c' r Hmax; cbn [flush_loop]; [done|].
  pose proof (flush_step_chunks c Hmax) as Hs.
  pose proof (flush_step_frame c) as Hf.
  destruct (flush_step c) as [c1|c1|c1 e|]; intros H; simplify_eq; try done.
  destruct Hs as (new1 & E1 & F1).
  destruct Hf as (_ & _ & _ & _ & _ & _ & _ & _ & _ & _ & _ & _ & HM & HR & _).
  destruct (IH _ _ _ ltac:(rewrite HM, HR; exact Hmax) H) as (new2 & E2 & F2).
  exists (new1 ++ new2). split.
  - by rewrite E2, E1, <- app_assoc.
  - apply Forall_app. split; [done|]. by rewrite <- HM.
Qed.
End ChunkSize.

(** ** The janitor *)

Section Janitor.
Context {A : AEAD}.
Implicit Types l : Listener A.

Lemma calls_for_app id (a b : list JanitorCall) :
  calls_for id (a ++ b) = calls_for id a ++ calls_for id b.
Proof. unfold calls_for. apply filter_app. Qed.

Lemma calls_for_evicted id :
  calls_for id [CallClose id; CallDeleteToken id; CallCleanupSession id]
  = [CallClose id; CallDeleteToken id; CallCleanupSession id].
Proof.
  unfold calls_for. rewrite !filter_cons, filter_nil. cbn [call_id].
  by rewrite !decide_True by done.
Qed.

Lemma calls_for_other id i :
  i <> id ->
  calls_for id [CallClose i; CallDeleteToken i; CallCleanupSession i] = [].
Proof.
  intros Hne. unfold calls_for. rewrite !filter_cons, filter_nil. cbn [call_id].
  by rewrite !decide_False by done.
Qed.

Lemma janitor_visit_idle now l entry :
  idleTimeout (janitor_visit now l entry) = idleTimeout l.
Proof. destruct entry as [i cn]. unfold janitor_visit. by destruct (evict _ _ _). Qed.

Lemma janitor_visit_other now l i cn id :
  i <> id ->
  conns (janitor_visit now l (i, cn)) !! id = conns l !! id /\
  calls_for id (calls (janitor_visit now l (i, cn))) = calls_for id (calls l).
Proof.
  intros Hne. unfold janitor_visit. destruct (evict _ _ _); [|done].
  cbn [conns calls]. split.
  - by rewrite lookup_delete_ne.
  - by rewrite calls_for_app, calls_for_other, app_nil_r.
Qed.

Lemma janitor_visit_same now l i cn :
  if evict (idleTimeout l) now cn
  then conns (janitor_visit now l (i, cn)) !! i = None /\
       calls_for i (calls (janitor_visit now l (i, cn))) =
         calls_for i (calls l) ++
           [CallClose i; CallDeleteToken i; CallCleanupSession i]
  else janitor_visit now l (i, cn) = l.
Proof.
  unfold janitor_visit. destruct (evict _ _ _); [|done].
  cbn [conns calls]. split.
  - by rewrite lookup_delete_eq.
  - by rewrite calls_for_app, calls_for_evicted.
Qed.

Lemma janitor_fold now (xs : list (string * Conn A)) : forall l,
  NoDup xs.*1 ->
  let l' := foldl (janitor_visit now) l xs in
  idleTimeout l' = idleTimeout l /\
  (forall id, id ∉ xs.*1 ->
     conns l' !! id = conns l !! id /\
     calls_for id (calls l') = calls_for id (calls l)) /\
  (forall id cn, (id, cn) ∈ xs ->
     if evict (idleTimeout l) now cn
     then conns l' !! id = None /\
          calls_for id (calls l') =
            calls_for id (calls l) ++
              [CallClose id; CallDeleteToken id; CallCleanupSession id]
     else conns l' !! id = conns l !! id /\
          calls_for id (calls l') = calls_for id (calls l)).
Proof.
  induction xs as [|[i cn] xs IH]; intros l Hnd; cbn [foldl].
  { split; [done|]. split; [done|]. intros id c Hin. by apply elem_of_nil in Hin. }
  cbn [fmap list_fmap fst] in Hnd. apply NoDup_cons in Hnd as [Hi Hnd].
  destruct (IH (janitor_visit now l (i, cn)) Hnd) as (Hidle & Hout & Hin).
  rewrite janitor_visit_idle in Hidle, Hin.
  split; [done|]. split.
  - intros id Hid. cbn [fmap list_fmap fst] in Hid.
    apply not_elem_of_cons in Hid as [Hne Hid].
    destruct (Hout id Hid) as [H1 H2].
    destruct (janitor_visit_other now l i cn id ltac:(done)) as [G1 G2].
    split; congruence.
  - intros id c Hel. apply elem_of_cons in Hel as [[= -> ->]|Hel].
    + destruct (Hout i Hi) as [H1 H2].
      pose proof (janitor_visit_same now l i cn) as Hs.
      destruct (evict (idleTimeout l) now cn).
      * destruct Hs as [G1 G2]. split; congruence.
      * rewrite Hs in H1, H2 |- *. done.
    + assert (Hne : i <> id).
      { intros ->. apply Hi. apply list_elem_of_fmap. by exists (id, c). }
      destruct (janitor_visit_other now l i cn id Hne) as [G1 G2].
      specialize (Hin id c Hel).
      destruct (evict (idleTimeout l) now c); destruct Hin as [H1 H2];
        split; congruence.
Qed.

Lemma evict_spec idle now (conn : Conn A) :
  evict idle now conn = true <->
  (closed conn = true /\ closedRead conn = true) \/
  now - peerLastSeen conn > idle.
Proof.
  unfold evict. rewrite orb_true_iff, andb_true_iff, Z.ltb_lt.
  intuition lia.
Qed.
End Janitor.

(** ** What a run of successful writes puts on the wire *)

Section Writer.
Context {A : AEAD} (HA : aead_ok A).
Implicit Types c : Conn A.

Lemma SealData_Ok_inv (nh nh' : Noise A) dst p sealed :
  SealData nh dst p = Ok (sealed, nh') ->
  cs_n (send_cs nh) <= MaxNonce /\
  [sealed] = seal_all (cs_k (send_cs nh)) (cs_n (send_cs nh)) [p] /\
  send_cs nh' = mkCipherState (cs_k (send_cs nh)) (cs_n (send_cs nh) + 1) /\
  recv_cs nh' = recv_cs nh /\
  isInitiator nh' = isInitiator nh.
Proof.
  unfold SealData, EncryptData, Encrypt, send_cs, recv_cs.
  destruct (isInitiator nh) eqn:Hi.
  - destruct (Z.ltb_spec MaxNonce (cs_n (cs1 nh))) as [?|Hn]; intros E;
      simplify_eq. cbn [cs1 cs2 isInitiator seal_all]. rewrite ?Hi. done.
  - destruct (Z.ltb_spec MaxNonce (cs_n (cs2 nh))) as [?|Hn]; intros E;
      simplify_eq. cbn [cs1 cs2 isInitiator seal_all]. rewrite ?Hi. done.
Qed.

Lemma seal_all_app (k : Key A) n a b :
  seal_all k n (a ++ b) = seal_all k n a ++ seal_all k (n + Z.of_nat (length a)) b.
Proof.
  revert n. induction a as [|p a IH]; intros n; cbn [seal_all app length].
  - by rewrite Z.add_0_r.
  - rewrite IH. do 3 f_equal. lia.
Qed.

Lemma encode_frames_cons f fs :
  encode_frames (f :: fs) = BuildFrame [] f ++ encode_frames fs.
Proof. reflexivity. Qed.

Lemma len_encode_frame_pos f : FrameHeaderSize <= len (BuildFrame [] f).
Proof.
  rewrite len_BuildFrame. change (len (@nil byte)) with 0.
  pose proof (len_nonneg (Payload f)). lia.
Qed.

Lemma encode_frames_nil_inv fs : len (encode_frames fs) = 0 -> fs = [].
Proof.
  destruct fs as [|f fs]; [done|]. rewrite encode_frames_cons, len_app.
  pose proof (len_encode_frame_pos f). pose proof (len_nonneg (encode_frames fs)).
  unfold FrameHeaderSize in *. lia.
Qed.

Lemma payloads_cons f fs :
  payloads (f :: fs) =
  (if decide (Type_ f = MsgTypeData) then Payload f else []) ++ payloads fs.
Proof. reflexivity. Qed.

Lemma payloads_app a b : payloads (a ++ b) = payloads a ++ payloads b.
Proof. unfold payloads. by rewrite map_app, concat_app. Qed.

(** The first chunk [flush] takes from aligned frames is the first frame. *)
Lemma aligned_take maxChunk f fs :
  aligned maxChunk (f :: fs) ->
  let k := Z.to_nat (Z.min (len (encode_frames (f :: fs))) maxChunk) in
  take k (encode_frames (f :: fs)) = BuildFrame [] f /\
  drop k (encode_frames (f :: fs)) = encode_frames fs /\
  aligned maxChunk fs /\
  len (BuildFrame [] f) <= maxChunk.
Proof.
  intros Hal k. subst k. rewrite encode_frames_cons.
  assert (Hk : Z.to_nat (Z.min (len (BuildFrame [] f ++ encode_frames fs)) maxChunk)
               = length (BuildFrame [] f)).
  { rewrite len_app. pose proof (len_nonneg (encode_frames fs)).
    cbn [aligned] in Hal. destruct fs as [|g fs].
    - change (len (encode_frames [])) with 0. unfold len in *. lia.
    - destruct Hal as [Hf _]. unfold len in *. lia. }
  rewrite Hk, take_app_length, drop_app_length.
  split; [done|]. split; [done|].
  cbn [aligned] in Hal. destruct fs as [|g fs]; [done|].
  destruct Hal as [Hf Hal]. split; [done|lia].
Qed.
(** What a turn of [flush] that goes on has done. *)
Lemma flush_step_more c c1 :
  flush_step c = FlushMore c1 ->
  exists pt sealed,
    SealData (noise c) [] pt = Ok (sealed, noise c1) /\
    written (transport c1) = written (transport c) ++ [sealed] /\
    MaxRawSize (transport c1) = MaxRawSize (transport c) /\
    len (bufWrite c) <> 0 /\
    ((pt = BuildFrame [] (mkFrame [] MsgTypeRotate) /\ bufWrite c1 = bufWrite c) \/
     (let k := Z.to_nat (Z.min (len (bufWrite c))
                           (MaxRawSize (transport c) - NoiseOverhead)) in
      pt = take k (bufWrite c) /\ bufWrite c1 = drop k (bufWrite c))).
Proof.
  unfold flush_step.
  destruct (Z.eqb_spec (len (bufWrite c)) 0) as [|Hne]; [done|].
  assert (Hrot : exists t1 rot,
            (if isRotator (transport c) then ShouldRotate (transport c)
             else (transport c, false)) = (t1, rot) /\
            written t1 = written (transport c) /\
            MaxRawSize t1 = MaxRawSize (transport c)).
  { destruct (isRotator (transport c)); [|by eexists _, _].
    pose proof (ShouldRotate_frame (transport c)) as (S1 & _ & _ & S4 & _).
    destruct (ShouldRotate (transport c)) as [t1 rot]. by exists t1, rot. }
  destruct Hrot as (t1 & rot & -> & Ht1 & Hm1).
  destruct rot.
  - destruct (SealData _ _ _) as [[sealed nh]|e] eqn:E; [|done].
    cbn [transport set_noise set_transport].
    pose proof (WriteRaw_written t1 sealed) as HW.
    pose proof (WriteRaw_frame t1 sealed) as (W1 & _).
    destruct (WriteRaw t1 sealed) as [t2 [e|]]; [done|]. cbn [fst] in W1.
    pose proof (RotateTX_frame t2) as (R1 & _ & _ & _ & R5 & _).
    destruct (RotateTX t2) as [t3 [e|]]; [done|]. cbn [fst] in R1, R5.
    intros [= <-]. eexists _, sealed. split; [exact E|]. cbn.
    split; [congruence|]. split; [congruence|]. split; [done|]. by left.
  - destruct (_ <? 0); [done|].
    destruct (SealData _ _ _) as [[sealed nh]|e] eqn:E; [|done].
    cbn [transport set_noise set_transport set_bufWrite].
    pose proof (WriteRaw_written t1 sealed) as HW.
    pose proof (WriteRaw_frame t1 sealed) as (W1 & _).
    destruct (WriteRaw t1 sealed) as [t2 [e|]]; [done|]. cbn [fst] in W1.
    intros [= <-]. eexists _, sealed. split; [exact E|]. cbn.
    split; [congruence|]. split; [congruence|]. split; [done|]. by right.
Qed.

Lemma wire_frame_rotate : wire_frame (mkFrame [] MsgTypeRotate).
Proof. split; [by right|]. vm_compute. reflexivity. Qed.

(** A [flush] that succeeds on aligned frames seals them one per chunk,
    with ROTATE frames of its own in between. *)
Lemma flush_loop_wire fuel : forall c c' fs,
  bufWrite c = encode_frames fs ->
  aligned (MaxRawSize (transport c) - NoiseOverhead) fs ->
  Forall wire_frame fs ->
  flush_loop fuel c = Some (c', None) ->
  exists F,
    written (transport c') =
      written (transport c) ++
        seal_all (cs_k (send_cs (noise c))) (cs_n (send_cs (noise c)))
          (map (BuildFrame []) F) /\
    payloads F = payloads fs /\
    Forall wire_frame F /\
    send_cs (noise c') =
      mkCipherState (cs_k (send_cs (noise c)))
        (cs_n (send_cs (noise c)) + Z.of_nat (length F)) /\
    recv_cs (noise c') = recv_cs (noise c) /\
    (F <> [] -> cs_n (send_cs (noise c)) + Z.of_nat (length F) <= MaxNonce + 1) /\
    bufWrite c' = [].
Proof.
  induction fuel as [|fuel IH]; intros c c' fs Hbuf Hal Hwf; cbn [flush_loop];
    [done|].
  pose proof (flush_step_suffix c) as Hsuf.
  pose proof (flush_step_more c) as Hmore.
  destruct (flush_step c) as [c1|c1|c1 e|]; intros H; simplify_eq.
  - destruct Hsuf as [-> Hnil]. exists []. cbn [map seal_all length].
    rewrite app_nil_r, Z.add_0_r.
    assert (fs = []) as ->.
    { apply encode_frames_nil_inv. by rewrite <- Hbuf, Hnil. }
    repeat split; try done. by destruct (send_cs (noise c)).
  - destruct (Hmore c1 eq_refl) as (pt & sealed & E & Hw & HM & Hne & Hcase).
    apply SealData_Ok_inv in E as (Hn & Hs & Hsend & Hrecv & _).
    destruct Hcase as [[-> Hb]|Hcase].
    + destruct (IH c1 c' fs) as (F & G1 & G2 & G3 & G4 & G5 & G6 & G7);
        [congruence|by rewrite HM|done|done|].
      exists (mkFrame [] MsgTypeRotate :: F).
      rewrite Hsend in G1, G4, G6. cbn [cs_k cs_n] in G1, G4, G6.
      split.
      { rewrite G1, Hw. cbn [map]. rewrite <- app_assoc. f_equal.
        change (?a :: ?l) with ([a] ++ l) at 2.
        rewrite seal_all_app. cbn [length]. rewrite <- Hs. done. }
      split; [by rewrite payloads_cons, decide_False by done|].
      split; [constructor; [apply wire_frame_rotate|done]|].
      split; [rewrite G4; f_equal; cbn [length]; lia|].
      split; [congruence|]. split; [|done].
      intros _. cbn [length]. destruct F as [|f0 F]; [cbn; lia|].
      specialize (G6 ltac:(done)). lia.
    + cbn zeta in Hcase. destruct Hcase as [-> Hb].
      destruct fs as [|f fs].
      { exfalso. apply Hne. by rewrite Hbuf. }
      rewrite Hbuf in Hb, Hs.
      destruct (aligned_take _ f fs Hal) as (T1 & T2 & T3 & T4).
      rewrite T1 in Hs. rewrite T2 in Hb.
      apply Forall_cons in Hwf as [Hwf1 Hwf].
      destruct (IH c1 c' fs) as (F & G1 & G2 & G3 & G4 & G5 & G6 & G7);
        [done|by rewrite HM|done|done|].
      exists (f :: F).
      rewrite Hsend in G1, G4, G6. cbn [cs_k cs_n] in G1, G4, G6.
      split.
      { rewrite G1, Hw. cbn [map]. rewrite <- app_assoc. f_equal.
        change (?a :: ?l) with ([a] ++ l) at 2.
        rewrite seal_all_app. cbn [length]. rewrite <- Hs. done. }
      split; [by rewrite !payloads_cons, G2|].
      split; [by constructor|].
      split; [rewrite G4; f_equal; cbn [length]; lia|].
      split; [congruence|]. split; [|done].
      intros _. cbn [length]. destruct F as [|f0 F]; [cbn; lia|].
      specialize (G6 ltac:(done)). lia.
Qed.
Lemma payloads_data fs :
  Forall (fun f => Type_ f = MsgTypeData) fs ->
  payloads fs = concat (map Payload fs).
Proof.
  induction 1 as [|f fs Hf _ IH]; [done|].
  rewrite payloads_cons, decide_True by done. cbn [map concat]. by rewrite IH.
Qed.

Lemma write_frames_aligned fuel : forall mtu p,
  0 < mtu -> mtu + FrameHeaderSize + 16 < 2 ^ 32 -> (length p <= fuel)%nat ->
  aligned (mtu + FrameHeaderSize) (write_frames fuel mtu p) /\
  Forall wire_frame (write_frames fuel mtu p) /\
  (p <> [] -> write_frames fuel mtu p <> []).
Proof.
  induction fuel as [|fuel IH]; intros mtu p Hm Hmax Hf; cbn [write_frames].
  { destruct p; [|cbn in Hf; lia]. cbn. by repeat split. }
  destruct (Z.leb_spec (len p) 0) as [Hp|Hp].
  { assert (Hp0 : len p = 0) by (pose proof (len_nonneg p); lia).
    apply len_0_nil in Hp0. subst p. by repeat split. }
  destruct (Z.ltb_spec (Z.min (len p) mtu) 0); [lia|].
  set (k := Z.to_nat (Z.min (len p) mtu)).
  assert (Hk : (0 < k <= length p)%nat) by (unfold len in *; lia).
  destruct (IH mtu (drop k p) Hm Hmax) as (Hal & Hwf & Hne).
  { rewrite length_drop. lia. }
  assert (Hlen : len (BuildFrame [] (mkFrame (take k p) MsgTypeData))
                 = FrameHeaderSize + Z.of_nat k).
  { rewrite len_BuildFrame. change (len (@nil byte)) with 0. cbn [Payload].
    unfold len. rewrite length_take. lia. }
  split; [|split; [|done]].
  - cbn [aligned].
    destruct (write_frames fuel mtu (drop k p)) as [|g gs] eqn:E.
    + rewrite Hlen. unfold len in *. lia.
    + split; [|done]. rewrite Hlen.
      assert (drop k p <> []) as Hd.
      { intros Hd. rewrite Hd in E. destruct fuel; cbn in E; done. }
      assert (k < length p)%nat.
      { destruct (Nat.le_gt_cases (length p) k); [|done].
        exfalso. apply Hd. by apply drop_ge. }
      unfold len in *. lia.
  - constructor; [|done]. split.
    + left. cbn [Type_ Payload]. split; [done|]. unfold len.
      rewrite length_take. lia.
    + rewrite Hlen. unfold len, FrameHeaderSize in *. lia.
Qed.

Lemma Write_wire c x c' n :
  writer_ready c ->
  Write c x = Some (c', (n, None)) ->
  exists F,
    written (transport c') =
      written (transport c) ++
        seal_all (cs_k (send_cs (noise c))) (cs_n (send_cs (noise c)))
          (map (BuildFrame []) F) /\
    payloads F = x /\
    Forall wire_frame F /\
    send_cs (noise c') =
      mkCipherState (cs_k (send_cs (noise c)))
        (cs_n (send_cs (noise c)) + Z.of_nat (length F)) /\
    recv_cs (noise c') = recv_cs (noise c) /\
    (F <> [] -> cs_n (send_cs (noise c)) + Z.of_nat (length F) <= MaxNonce + 1) /\
    writer_ready c'.
Proof.
  intros (Hb & Hmtu & Hpos & Hmax) H. unfold Write in H.
  destruct (closed c || closedWrite c); [done|].
  destruct (deadline_passed _ _); [done|].
  destruct (write_loop_total (length x) (mtu c) (bufWrite c) x Hpos (le_n _))
    as (E & Hcat & Hnz).
  rewrite E, Hb, app_nil_l in H.
  unfold FrameHeaderSize, NoiseOverhead in Hmtu.
  destruct (write_frames_aligned (length x) (mtu c) x Hpos) as (Hal & Hwf & _);
    [unfold FrameHeaderSize; lia|done|].
  destruct (flush _) as [[c1 [e|]]|] eqn:Ef; simplify_eq.
  pose proof (flush_loop_frame _ _ _ _ Ef) as Hfr.
  apply (flush_loop_wire _ _ _ (write_frames (length x) (mtu c) x)) in Ef;
    [|done| |done].
  2:{ cbn [transport set_bufWrite]. unfold NoiseOverhead, FrameHeaderSize in *.
      replace (MaxRawSize (transport c) - (4 + 16)) with (mtu c + (4 + 1)) by lia.
      exact Hal. }
  destruct Ef as (F & G1 & G2 & G3 & G4 & G5 & G6 & G7).
  exists F. cbn [transport noise set_bufWrite] in *.
  split; [done|]. split.
  { rewrite G2. rewrite <- Hcat at 3. apply payloads_data.
    eapply Forall_impl; [apply write_frames_bound|]. by intros f [? _]. }
  do 4 (split; [done|]).
  destruct Hfr as (_ & _ & _ & _ & _ & _ & _ & Hm' & _ & _ & _ & _ & HM & _).
  cbn in Hm', HM. unfold writer_ready.
  rewrite G7, Hm', HM. unfold FrameHeaderSize, NoiseOverhead. done.
Qed.
Lemma Writes_wire xs : forall c c',
  writer_ready c ->
  Writes c xs = Some c' ->
  exists F,
    written (transport c') =
      written (transport c) ++
        seal_all (cs_k (send_cs (noise c))) (cs_n (send_cs (noise c)))
          (map (BuildFrame []) F) /\
    payloads F = concat xs /\
    Forall wire_frame F /\
    (F <> [] -> cs_n (send_cs (noise c)) + Z.of_nat (length F) <= MaxNonce + 1) /\
    send_cs (noise c') =
      mkCipherState (cs_k (send_cs (noise c)))
        (cs_n (send_cs (noise c)) + Z.of_nat (length F)).
Proof.
  induction xs as [|x xs IH]; intros c c' Hr; cbn [Writes].
  { intros [= <-]. exists []. cbn [map seal_all length concat].
    rewrite app_nil_r, Z.add_0_r. repeat split; try done.
    by destruct (send_cs (noise c)). }
  destruct (Write c x) as [[c1 [n [e|]]]|] eqn:E; try done.
  intros H.
  destruct (Write_wire c x c1 n Hr E) as (F1 & G1 & G2 & G3 & G4 & G5 & G6 & G7).
  destruct (IH c1 c' G7 H) as (F2 & H1 & H2 & H3 & H4 & H5).
  rewrite G4 in H1, H4, H5. cbn [cs_k cs_n] in H1, H4, H5.
  exists (F1 ++ F2).
  split.
  { rewrite H1, G1, <- app_assoc. f_equal.
    rewrite map_app, seal_all_app. by rewrite length_map. }
  split; [by rewrite payloads_app, G2, H2|].
  split; [by apply Forall_app|].
  rewrite length_app, Nat2Z.inj_add.
  split.
  - intros Hne. destruct F2 as [|f2 F2].
    + destruct F1 as [|f1 F1]; [done|].
      specialize (G6 ltac:(done)). cbn [length] in *. lia.
    + specialize (H4 ltac:(done)). lia.
  - rewrite H5. f_equal. lia.
Qed.
End Writer.

(** ** What the reading side makes of the wire *)

Section Reader.
Context {A : AEAD} (HA : aead_ok A).
Implicit Types c : Conn A.

Lemma UnsealData_strict_prefix (nh : Noise A) dst data L (ct rest : bytes) :
  0 <= L < 2 ^ 32 -> len ct = L ->
  data ++ rest = PutUint32 L ++ ct -> len data < 4 + L ->
  UnsealData nh dst data =
    (mkUnsealed None (Some data) (Some ErrShortBuffer), nh).
Proof.
  intros HL Hct Heq Hshort. apply UnsealData_short.
  destruct (Z.lt_ge_cases (len data) 4) as [|H4]; [by left|right].
  assert (Ht : take 4 data = PutUint32 L).
  { rewrite <- (take_4_PutUint32_app L ct), <- Heq.
    rewrite take_app_le; [done|]. unfold len in H4. lia. }
  rewrite Ht, Uint32_PutUint32 by done. done.
Qed.

Lemma wire_frame_sealed_len (k : Key A) n f :
  wire_frame f ->
  len (aead_seal A k n (BuildFrame [] f)) = len (BuildFrame [] f) + 16 /\
  0 <= len (aead_seal A k n (BuildFrame [] f)) < 2 ^ 32 /\
  0 < len (aead_seal A k n (BuildFrame [] f)).
Proof.
  intros [_ Hlen]. destruct HA as [Hl _]. rewrite Hl.
  pose proof (len_nonneg (BuildFrame [] f)). lia.
Qed.

Lemma cleanupToken_Do_frame c :
  closed (cleanupToken_Do c) = closed c /\
  closedRead (cleanupToken_Do c) = closedRead c /\
  readDeadline (cleanupToken_Do c) = readDeadline c /\
  transport (cleanupToken_Do c) = transport c /\
  readRemain (cleanupToken_Do c) = readRemain c /\
  bufRead (cleanupToken_Do c) = bufRead c /\
  bufNoise (cleanupToken_Do c) = bufNoise c /\
  noise (cleanupToken_Do c) = noise c /\
  poll (cleanupToken_Do c) = poll c /\
  clock (cleanupToken_Do c) = clock c.
Proof. unfold cleanupToken_Do. by repeat case_match. Qed.

Lemma inbound_data_cons_data b rs :
  inbound_data (RawData b :: rs) = b ++ inbound_data rs.
Proof. reflexivity. Qed.

Lemma inbound_data_cons_err e rs :
  inbound_data (RawErr e :: rs) = inbound_data rs.
Proof. reflexivity. Qed.

Lemma stream_frame_sealed_len (k : Key A) n f :
  stream_frame f ->
  len (aead_seal A k n (BuildFrame [] f)) = len (BuildFrame [] f) + 16 /\
  0 <= len (aead_seal A k n (BuildFrame [] f)) < 2 ^ 32 /\
  0 < len (aead_seal A k n (BuildFrame [] f)).
Proof.
  intros [Hw| ->]; [by apply wire_frame_sealed_len|].
  destruct HA as [Hl _]. rewrite Hl.
  change (len (BuildFrame [] fin_frame)) with 5. lia.
Qed.

Lemma stream_frames fin (X F : list Frame) :
  X = F ++ fin_tail fin -> Forall wire_frame F -> Forall stream_frame X.
Proof.
  intros -> HF. apply Forall_app. split.
  - eapply Forall_impl; [exact HF|]. intros f Hf. by left.
  - destruct fin; cbn; [|constructor].
    constructor; [by right|constructor].
Qed.

Lemma wire_frame_not_fin f : wire_frame f -> Type_ f <> MsgTypeFin.
Proof. intros [[[-> _]|[-> _]] _]; discriminate. Qed.

Lemma reader_stream_inv future c hd Fbuf Frest :
  reader_inv future c hd Fbuf Frest -> stream_inv false future c hd Fbuf Frest.
Proof.
  intros (Hc & Hr & Hd & Hnf & Hrem & Hbuf & Hwb & Hwr & Hstream & Hn).
  unfold stream_inv. repeat (split; [done|]). split; [|done].
  exists (Fbuf ++ Frest). cbn [fin_tail]. rewrite app_nil_r.
  split; [done|]. by apply Forall_app.
Qed.

(** The decrypt loop moves every whole chunk of the Noise buffer, as a
    frame, to the read buffer. *)
Lemma unseal_loop_inv fin future fuel : forall c hd Fbuf Frest,
  (length (bufNoise c) < fuel)%nat ->
  stream_inv fin future c hd Fbuf Frest ->
  exists c' F1 F2,
    unseal_loop fuel c = (c', None) /\
    Frest = F1 ++ F2 /\
    stream_inv fin future c' hd (Fbuf ++ F1) F2 /\
    noise_short c' F2 /\
    transport c' = transport c /\ poll c' = poll c /\ clock c' = clock c.
Proof.
  induction fuel as [|fuel IH]; intros c hd Fbuf Frest Hfuel Hinv; [lia|].
  cbn [unseal_loop].
  destruct Hinv as (Hc & Hr & Hd & Hnf & Hrem & Hbuf & HF & Hstream & Hn).
  destruct Frest as [|f Frest].
  { (* nothing is sealed any more: the Noise buffer is empty *)
    pose proof Hstream as Hs0. cbn [map seal_all concat] in Hs0.
    apply app_eq_nil in Hs0 as [Hs0 _].
    apply app_eq_nil in Hs0 as [Hbn _].
    rewrite (UnsealData_short (noise c) [] (bufNoise c))
      by (left; rewrite Hbn; unfold len; cbn [length]; lia).
    cbn. exists c, [], []. rewrite !app_nil_r.
    split; [done|]. split; [done|].
    split; [|done]. unfold stream_inv.
    repeat (split; [done|]). done. }
  set (k := cs_k (recv_cs (noise c))) in *.
  set (n := cs_n (recv_cs (noise c))) in *.
  assert (Hwf : stream_frame f).
  { destruct HF as (F & HF1 & HF2).
    pose proof (stream_frames fin _ F HF1 HF2) as Hall.
    apply Forall_app in Hall as [_ Hall]. by apply Forall_cons in Hall as [? _]. }
  destruct (stream_frame_sealed_len k n f Hwf) as (Hl & HL & Hpos).
  set (ct := aead_seal A k n (BuildFrame [] f)) in *.
  pose proof Hstream as Hstream0.
  cbn [map seal_all concat] in Hstream. fold ct in Hstream.
  rewrite uint32_small in Hstream by done.
  rewrite <- (app_assoc (bufNoise c)) in Hstream.
  assert (Hchunk : len (PutUint32 (len ct) ++ ct) = 4 + len ct)
    by (by rewrite len_app, len_PutUint32).
  destruct (Z.lt_ge_cases (len (bufNoise c)) (4 + len ct)) as [Hshort|Hlong].
  { (* the first chunk is not whole yet *)
    assert (Hpre : exists rest, bufNoise c ++ rest = PutUint32 (len ct) ++ ct).
    { apply app_eq_inv in Hstream as [(m & Hm & _)|(m & Hm & _)].
      - rewrite Hm, len_app, Hchunk in Hshort. pose proof (len_nonneg m). lia.
      - exists m. by rewrite Hm. }
    destruct Hpre as (rest & Hpre).
    rewrite (UnsealData_strict_prefix (noise c) [] (bufNoise c) (len ct) ct rest)
      by done.
    cbn. exists c, [], (f :: Frest). rewrite !app_nil_r.
    split; [done|]. split; [done|].
    split; [unfold stream_inv; by repeat (split; [done|])|].
    split; [exact Hshort|done]. }
  (* the first chunk is whole: it is unsealed *)
  assert (Hbn : exists bn, bufNoise c = (PutUint32 (len ct) ++ ct) ++ bn /\
              (bn ++ inbound_data (readResults (transport c))) ++ future =
              concat (seal_all k (n + 1) (map (BuildFrame []) Frest))).
  { apply app_eq_inv in Hstream as [(m & Hm & Hm')|(m & Hm & Hm')].
    - exists m. split; [done|]. by rewrite Hm', app_assoc.
    - assert (len m = 0).
      { apply (f_equal len) in Hm. rewrite Hchunk, len_app in Hm.
        pose proof (len_nonneg m). lia. }
      apply len_0_nil in H. subst m. exists [].
      rewrite app_nil_r in Hm. rewrite app_nil_l in Hm'.
      split; [by rewrite app_nil_r|]. by rewrite app_nil_l. }
  destruct Hbn as (bn & Hbn & Hstream').
  assert (Hnonce : n <= MaxNonce).
  { specialize (Hn ltac:(done)). cbn [length] in Hn. lia. }
  destruct (DecryptData_ok HA (noise c) (BuildFrame [] f) Hnonce)
    as (nh' & ED & Hrecv & Hsend & Hini).
  fold k n ct in ED, Hrecv.
  rewrite Hbn, <- app_assoc.
  rewrite (UnsealData_chunk (noise c) [] (len ct) ct bn) by done.
  rewrite ED. cbn [err plaintext remaining default].
  destruct (cleanupToken_Do_frame (set_noise nh' c))
    as (T1 & T2 & T3 & T4 & T5 & T6 & T7 & T8 & T9 & T10).
  set (t := cleanupToken_Do (set_noise nh' c)) in *.
  cbn [closed closedRead readDeadline transport readRemain bufRead bufNoise
       noise poll clock set_noise] in T1, T2, T3, T4, T5, T6, T7, T8, T9, T10.
  cbn [bufNoise set_bufRead]. rewrite T7, T6.
  assert (Hused : drop (Z.to_nat (len (bufNoise c) - len bn)) (bufNoise c) = bn).
  { rewrite Hbn, len_app.
    replace (Z.to_nat (len (PutUint32 (len ct) ++ ct) + len bn - len bn))
      with (length (PutUint32 (len ct) ++ ct)) by (unfold len; lia).
    by rewrite drop_app_length. }
  unfold id. rewrite Hused.
  destruct (IH (set_bufNoise bn (set_bufRead (bufRead c ++ BuildFrame [] f) t))
              hd (Fbuf ++ [f]) Frest)
    as (c' & F1 & F2 & E & HF' & Hinv' & Hsh & Ht & Hp & Hk).
  - cbn [bufNoise set_bufNoise]. apply (f_equal len) in Hbn.
    rewrite len_app, Hchunk in Hbn. unfold len in *. lia.
  - unfold stream_inv.
    cbn [closed closedRead readDeadline transport readRemain bufRead bufNoise
         noise set_bufNoise set_bufRead].
    rewrite T1, T2, T3, T4, T5, T8, Hrecv. cbn [cs_k cs_n].
    split; [done|]. split; [done|]. split; [done|]. split; [done|].
    split; [done|].
    split.
    { rewrite Hbuf. unfold encode_frames. rewrite map_app, concat_app.
      cbn [map concat]. by rewrite app_nil_r, app_assoc. }
    split; [by rewrite <- app_assoc|].
    split; [done|].
    intros HFr. specialize (Hn ltac:(done)). cbn [length] in Hn. lia.
  - exists c', (f :: F1), F2. rewrite E.
    split; [done|]. split; [by rewrite HF'|].
    split; [by rewrite <- app_assoc in Hinv'|].
    split; [done|].
    rewrite Ht, Hp, Hk. cbn [transport poll clock set_bufNoise set_bufRead].
    by rewrite T4, T9, T10.
Qed.

Lemma read_head_empty c lenp :
  closed c = false -> closedRead c = false -> readDeadline c = None ->
  readRemain c = 0 -> bufRead c = [] ->
  read_head c lenp = FrameNone c.
Proof.
  intros Hc Hr Hd Hm Hb. unfold read_head.
  rewrite Hc, Hr, Hd, Hm, Hb. reflexivity.
Qed.

Lemma drop_min_app (payload rest : bytes) (lenp : nat) :
  drop (Z.to_nat (Z.min (len payload) (Z.of_nat lenp))) (payload ++ rest)
  = drop lenp payload ++ rest.
Proof.
  unfold len.
  destruct (Nat.le_gt_cases (length payload) lenp).
  - replace (Z.to_nat _) with (length payload) by lia.
    rewrite drop_app_length. by rewrite drop_ge.
  - replace (Z.to_nat _) with lenp by lia.
    rewrite drop_app_le by lia. done.
Qed.

Lemma len_take_drop (l : bytes) (n : nat) :
  len l - len (take n l) = len (drop n l).
Proof. unfold len. rewrite length_take, length_drop. lia. Qed.

Lemma take_nonempty (l : bytes) (n : nat) :
  (0 < n)%nat -> l <> [] -> take n l <> [].
Proof. destruct n, l; cbn; try done; lia. Qed.

(** Draining the rest of a partly read DATA payload. *)
Lemma skip_frames_drain fin future lenp fuel c hd Fbuf Frest :
  hd <> [] -> stream_inv fin future c hd Fbuf Frest ->
  exists c' d,
    skip_frames fuel c lenp = FrameReturn c' d None /\
    stream_inv fin future c' (drop lenp hd) Fbuf Frest /\
    hd = d ++ drop lenp hd /\
    ((0 < lenp)%nat -> d <> []) /\
    bufNoise c' = bufNoise c /\ noise c' = noise c.
Proof.
  intros Hhd (Hc & Hr & Hd & Hnf & Hrem & Hbuf & HF & Hstream & Hn).
  assert (Hpos : 0 < readRemain c).
  { rewrite Hrem. destruct hd; [done|].
    rewrite len_cons. pose proof (len_nonneg hd). lia. }
  eexists _, _. split.
  { apply skip_frames_return.
    apply (read_head_remain c lenp Hc Hr ltac:(by rewrite Hd) Hpos). }
  cbn zeta. rewrite Hrem, Hbuf, take_min_app, drop_min_app.
  split.
  { unfold stream_inv.
    cbn [closed closedRead readDeadline transport readRemain bufRead bufNoise
         noise set_readRemain set_bufRead].
    rewrite len_take_drop. by repeat (split; [done|]). }
  split; [by rewrite take_drop|].
  split; [intros; by apply take_nonempty|done].
Qed.

(** The head of the loop of [Read] on a stream of frames: it delivers
    payload bytes, or consumes the FIN frame and reports the end of the
    stream, or finds the read buffer used up. *)
Lemma skip_frames_inv fin future lenp fuel : forall c hd Fbuf Frest,
  (length (bufRead c) <= fuel)%nat ->
  stream_inv fin future c hd Fbuf Frest ->
  match skip_frames fuel c lenp with
  | FrameReturn c' d e =>
      (e = None /\
       exists hd' Fbuf',
         stream_inv fin future c' hd' Fbuf' Frest /\
         hd ++ payloads Fbuf = d ++ hd' ++ payloads Fbuf' /\
         ((0 < lenp)%nat -> d <> []) /\
         bufNoise c' = bufNoise c /\ noise c' = noise c) \/
      (e = Some EOF /\ d = [] /\ fin = true /\ hd = [] /\
       payloads Fbuf = [] /\ Frest = [] /\
       closed c' = false /\ closedRead c' = true)
  | FrameNone c' =>
      stream_inv fin future c' [] [] Frest /\
      hd = [] /\ payloads Fbuf = [] /\
      bufNoise c' = bufNoise c /\ noise c' = noise c /\
      poll c' = poll c /\
      readResults (transport c') = readResults (transport c)
  | FrameSkip _ => False
  end.
Proof.
  induction fuel as [|fuel IH]; intros c hd Fbuf Frest Hfuel Hinv.
  all: destruct (decide (hd = [])) as [->|Hhd];
    [|match goal with
      | |- match skip_frames ?f _ _ with _ => _ end =>
          destruct (skip_frames_drain fin future lenp f c hd Fbuf Frest Hhd Hinv)
            as (c' & d & E & I1 & I2 & I3 & I4 & I5)
      end;
      rewrite E; left; split; [done|]; exists (drop lenp hd), Fbuf;
      split; [done|]; split; [by rewrite app_assoc, <- I2|done]].
  all: pose proof Hinv as
      (Hc & Hr & Hd & Hnf & Hrem & Hbuf & HF & Hstream & Hn).
  all: rewrite app_nil_l in Hbuf; change (len []) with 0 in Hrem.
  all: destruct Fbuf as [|f Fbuf];
    [rewrite (skip_frames_none _ c lenp c
                (read_head_empty c lenp Hc Hr Hd Hrem Hbuf)); by repeat split|].
  - exfalso. rewrite Hbuf, encode_frames_cons, length_app in Hfuel.
    pose proof (len_encode_frame_pos f). unfold len, FrameHeaderSize in *. lia.
  - rewrite encode_frames_cons in Hbuf.
    assert (Hb : at_frame_boundary c) by (repeat split; try done; by rewrite Hd).
    assert (Hf : BuildFrame [] f = BuildFrame [] (mkFrame (Payload f) (Type_ f)))
      by (by destruct f).
    rewrite Hf in Hbuf.
    destruct HF as (F & HF1 & HF2).
    assert (Hsf : stream_frame f).
    { pose proof (stream_frames fin _ F HF1 HF2) as Hall.
      cbn [app] in Hall. by apply Forall_cons in Hall as [? _]. }
    assert (Hplen : len (Payload f) < 2 ^ 32).
    { destruct Hsf as [[_ Hl]| ->]; [|done]. rewrite len_BuildFrame in Hl.
      change (len (@nil byte)) with 0 in Hl. unfold FrameHeaderSize in Hl. lia. }
    pose proof (read_head_frame c lenp (Type_ f) (Payload f)
                  (encode_frames Fbuf) Hb Hplen Hbuf) as Hhead.
    cbn zeta in Hhead.
    destruct F as [|g F].
    { (* the FIN frame, last of the stream *)
      cbn [app] in HF1. destruct fin; [|discriminate]. cbn [fin_tail] in HF1.
      injection HF1 as -> HF1. apply app_eq_nil in HF1 as [-> ->].
      cbn [Type_ fin_frame] in Hhead.
      rewrite decide_False, decide_False, decide_True in Hhead by done.
      rewrite (skip_frames_return _ _ _ _ _ _ Hhead).
      right. by repeat split. }
    cbn [app] in HF1. injection HF1 as <- HF1.
    apply Forall_cons in HF2 as [Hwf HF2].
    assert (HF' : exists F0, Fbuf ++ Frest = F0 ++ fin_tail fin /\
                             Forall wire_frame F0) by (by exists F).
    destruct Hwf as [[[Hty Hnz]|[Hty Hpl]] _].
    + (* a DATA frame *)
      rewrite decide_True in Hhead by done.
      rewrite take_min_app, drop_min_app in Hhead.
      rewrite (skip_frames_return _ _ _ _ _ _ Hhead).
      left. split; [done|]. exists (drop lenp (Payload f)), Fbuf.
      split.
      { unfold stream_inv.
        cbn [closed closedRead readDeadline transport readRemain bufRead
             bufNoise noise set_readRemain set_bufRead set_peerLastSeen].
        rewrite len_take_drop. by repeat (split; [done|]). }
      split.
      { rewrite payloads_cons, decide_True by done. cbn [app].
        by rewrite !app_assoc, take_drop. }
      split; [|done]. intros. apply take_nonempty; [done|].
      intros Hnil. rewrite Hnil in Hnz. done.
    + (* a ROTATE frame *)
      rewrite Hty in Hhead.
      rewrite decide_False, decide_False, decide_False, decide_True in Hhead
        by done.
      cbn [transport set_bufRead set_peerLastSeen] in Hhead.
      assert (Hx : exists x,
                read_head c lenp = FrameSkip x /\
                bufRead x = encode_frames Fbuf /\
                stream_inv fin future x [] Fbuf Frest /\
                bufNoise x = bufNoise c /\ noise x = noise c /\
                poll x = poll c /\
                readResults (transport x) = readResults (transport c)).
      { destruct (isRotator (transport c)); eexists;
          (split; [exact Hhead|]); unfold stream_inv;
          cbn [closed closedRead readDeadline transport readRemain bufRead
               bufNoise noise poll set_bufRead set_peerLastSeen set_transport
               readResults RotateRX set_rotatedRX app];
          by repeat (split; [done|]). }
      destruct Hx as (x & Hx & Hbx & Hix & Hnx & Hnox & Hpx & Hrx).
      rewrite (skip_frames_skip _ _ _ _ Hx).
      assert (Hfx : (length (bufRead x) <= fuel)%nat).
      { rewrite Hbx. rewrite Hbuf, length_app in Hfuel.
        pose proof (len_encode_frame_pos (mkFrame (Payload f) (Type_ f))).
        unfold len, FrameHeaderSize in *. lia. }
      specialize (IH x [] Fbuf Frest Hfx Hix).
      rewrite payloads_cons, Hty, decide_False by done. cbn [app] in *.
      destruct (skip_frames fuel x lenp) as [c' d e|c'|c']; [|exact IH|].
      * destruct IH as [(He & hd' & Fbuf' & I1 & I2 & I3 & I4 & I5)|IH].
        -- left. split; [done|]. exists hd', Fbuf'. split; [done|].
           split; [done|]. split; [done|].
           by rewrite I4, I5, Hnx, Hnox.
        -- right. exact IH.
      * destruct IH as (I1 & I2 & I3 & I4 & I5 & I6 & I7).
        split; [done|]. split; [done|]. split; [done|].
        by rewrite I4, I5, I6, I7, Hnx, Hnox, Hpx, Hrx.
Qed.

Lemma noise_short_whole c Frest :
  Forall stream_frame Frest ->
  bufNoise c =
    concat (seal_all (cs_k (recv_cs (noise c))) (cs_n (recv_cs (noise c)))
              (map (BuildFrame []) Frest)) ->
  noise_short c Frest -> Frest = [].
Proof.
  intros Hwf Hb Hs. destruct Frest as [|f Frest]; [done|]. exfalso.
  cbn [noise_short map seal_all concat] in Hs, Hb.
  apply Forall_cons in Hwf as [Hwf _].
  destruct (stream_frame_sealed_len (cs_k (recv_cs (noise c)))
              (cs_n (recv_cs (noise c))) f Hwf) as (_ & HL & _).
  apply (f_equal len) in Hb. rewrite !len_app, len_PutUint32 in Hb.
  pose proof (len_nonneg (concat (seal_all (cs_k (recv_cs (noise c)))
                (cs_n (recv_cs (noise c)) + 1) (map (BuildFrame []) Frest)))).
  lia.
Qed.

(** [Read] on a stream of frames: it delivers the next bytes of the
    stream, or reports its end once the FIN frame is reached, or is left
    polling. *)
Lemma read_loop_inv fin future lenp fuel : forall c hd Fbuf Frest,
  (length (readResults (transport c)) < fuel)%nat ->
  stream_inv fin future c hd Fbuf Frest ->
  noise_short c Frest ->
  match read_loop fuel c lenp with
  | Returned c' d e =>
      (e = None /\
       exists hd' Fbuf' Frest',
         stream_inv fin future c' hd' Fbuf' Frest' /\
         noise_short c' Frest' /\
         hd ++ payloads Fbuf ++ payloads Frest =
           d ++ hd' ++ payloads Fbuf' ++ payloads Frest' /\
         ((0 < lenp)%nat -> d <> [])) \/
      (e = Some EOF /\ d = [] /\ fin = true /\
       hd ++ payloads Fbuf ++ payloads Frest = [] /\
       closed c' = false /\ closedRead c' = true)
  | Polling c' =>
      future = [] ->
      hd ++ payloads Fbuf ++ payloads Frest = [] /\ fin = false
  end.
Proof.
  induction fuel as [|fuel IH]; intros c hd Fbuf Frest Hfuel Hinv Hshort; [lia|].
  cbn [read_loop].
  pose proof (skip_frames_inv fin future lenp (length (bufRead c)) c hd Fbuf
                Frest (le_n _) Hinv) as Hskip.
  destruct (skip_frames (length (bufRead c)) c lenp) as [c1 d e|c1|c1];
    [|done|].
  { destruct Hskip as [(He & hd' & Fbuf' & I1 & I2 & I3 & I4 & I5)
                      |(He & Hd0 & Hfin & Hhd & Hpay & HFr & Hc1 & Hr1)].
    - left. split; [done|]. exists hd', Fbuf', Frest.
      split; [done|].
      split; [unfold noise_short in *; by rewrite I4, I5|].
      split; [by rewrite !app_assoc, I2, <- !app_assoc|done].
    - right. subst hd Frest. rewrite Hpay. by repeat split. }
  destruct Hskip as (I1 & -> & Hpay & I4 & I5 & I6 & I7).
  rewrite Hpay. cbn [app]. rewrite <- I7 in Hfuel.
  assert (Hshort1 : noise_short c1 Frest)
    by (unfold noise_short in *; by rewrite I4, I5).
  pose proof I1 as
    (Hc & Hr & Hd & Hnf & Hrem & Hbuf & HF & Hstream & Hn).
  unfold ReadRaw.
  destruct (readResults (transport c1)) as [|[b|e] rs] eqn:Ers.
  - (* the record of the transport ends here *)
    intros ->. cbn [inbound_data map concat] in Hstream.
    rewrite !app_nil_r in Hstream.
    destruct HF as (F & HF1 & HF2). cbn [app] in HF1.
    pose proof (stream_frames fin _ F HF1 HF2) as Hall.
    pose proof (noise_short_whole c1 Frest Hall Hstream Hshort1) as ->.
    split; [done|]. destruct fin; [|done].
    destruct F; discriminate.
  - (* more bytes *)
    set (c2 := set_bufNoise (bufNoise c1 ++ b)
                 (set_transport (set_readResults rs (transport c1)) c1)).
    assert (Hinv2 : stream_inv fin future c2 [] [] Frest).
    { unfold stream_inv. subst c2.
      cbn [closed closedRead readDeadline transport readRemain bufRead
           bufNoise noise set_bufNoise set_transport readResults
           set_readResults].
      apply Forall_cons in Hnf as [_ Hnf].
      rewrite inbound_data_cons_data in Hstream.
      repeat (split; [done|]). split; [|done].
      by rewrite <- (app_assoc (bufNoise c1)). }
    destruct (unseal_loop_inv fin future (S (length (bufNoise c2))) c2 [] []
                Frest (Nat.lt_succ_diag_r _) Hinv2)
      as (c3 & F1 & F2 & E & -> & Hinv3 & Hshort3 & Ht3 & Hp3 & Hk3).
    rewrite E. cbn [app] in Hinv3.
    match goal with
    | |- match read_loop fuel ?x lenp with _ => _ end =>
        specialize (IH x [] F1 F2)
    end.
    assert (Hfuel3 : (length (readResults (transport
               (set_poll (Reset (poll c3)) c3))) < fuel)%nat).
    { cbn [transport set_poll]. rewrite Ht3. subst c2.
      cbn [transport set_bufNoise set_transport readResults set_readResults].
      rewrite ?Ers in Hfuel. cbn [length] in Hfuel. lia. }
    assert (Hinv4 : stream_inv fin future (set_poll (Reset (poll c3)) c3)
                      [] F1 F2) by exact Hinv3.
    assert (Hshort4 : noise_short (set_poll (Reset (poll c3)) c3) F2)
      by exact Hshort3.
    specialize (IH Hfuel3 Hinv4 Hshort4).
    rewrite payloads_app.
    destruct (read_loop fuel _ lenp) as [c' d e|c']; exact IH.
  - (* nothing there yet: sleep and poll again *)
    apply Forall_cons in Hnf as [-> Hnf].
    rewrite decide_True by done.
    destruct (Sleep _) as [p slept].
    match goal with
    | |- match read_loop fuel ?x lenp with _ => _ end =>
        specialize (IH x [] [] Frest)
    end.
    rewrite inbound_data_cons_err in Hstream.
    apply IH.
    + cbn [transport set_clock set_poll set_transport readResults
           set_readResults].
      rewrite ?Ers in Hfuel. cbn [length] in Hfuel. lia.
    + unfold stream_inv.
      cbn [closed closedRead readDeadline transport readRemain bufRead
           bufNoise noise set_clock set_poll set_transport readResults
           set_readResults].
      by repeat (split; [done|]).
    + exact Hshort1.
Qed.

(** A run of [Read] calls on a stream of frames. *)
Lemma Reads_stream fin future ns : forall c hd Fbuf Frest,
  stream_inv fin future c hd Fbuf Frest ->
  noise_short c Frest ->
  let pending := hd ++ payloads Fbuf ++ payloads Frest in
  (Reads c ns).1 `prefix_of` pending /\
  (forall e, (Reads c ns).2 = Failed e ->
     e = EOF /\ fin = true /\ (Reads c ns).1 = pending) /\
  (future = [] -> Forall (fun n => 0 < n)%nat ns ->
   (length pending <= length ns)%nat ->
   (Reads c ns).1 = pending) /\
  (future = [] -> fin = true -> Forall (fun n => 0 < n)%nat ns ->
   (length pending < length ns)%nat ->
   (Reads c ns).2 = Failed EOF).
Proof.
  induction ns as [|n ns IH]; intros c hd Fbuf Frest Hinv Hshort pending;
    cbn [Reads].
  { split; [apply prefix_nil|]. split; [done|]. split.
    - intros _ _ Hlen. cbn [fst]. destruct pending; [done|cbn in Hlen; lia].
    - intros _ _ _ Hlen. cbn in Hlen. lia. }
  pose proof (read_loop_inv fin future n
                (S (length (readResults (transport c))))
                c hd Fbuf Frest (Nat.lt_succ_diag_r _) Hinv Hshort) as Hread.
  fold (Read c n) in Hread.
  destruct (Read c n) as [c' d e|c'].
  - destruct Hread as [(-> & hd' & Fbuf' & Frest' & J1 & J2 & J3 & J4)
                      |(-> & -> & Hfin & Hpend & _)].
    + destruct (IH c' hd' Fbuf' Frest' J1 J2) as (P1 & P2 & P3 & P4).
      destruct (Reads c' ns) as [rest ended]. cbn [fst snd] in *.
      subst pending. rewrite J3.
      split; [by apply prefix_app|].
      split.
      { intros e He. destruct (P2 e He) as (-> & Hf & ->). done. }
      split.
      * intros Hfut Hpos Hlen. apply Forall_cons in Hpos as [Hn Hpos].
        rewrite P3; [done|done|done|].
        rewrite length_app in Hlen.
        specialize (J4 Hn). destruct d; [done|]. cbn [length] in Hlen. lia.
      * intros Hfut Hf Hpos Hlen. apply Forall_cons in Hpos as [Hn Hpos].
        apply P4; [done|done|done|].
        rewrite length_app in Hlen.
        specialize (J4 Hn). destruct d; [done|]. cbn [length] in Hlen. lia.
    + cbn [fst snd]. subst pending. rewrite Hpend.
      split; [done|]. split; [by intros e [= <-]|]. by split.
  - cbn [fst snd]. split; [apply prefix_nil|]. split; [done|]. split.
    + intros Hfut _ _. symmetry. by apply Hread.
    + intros Hfut Hf _ _. destruct (Hread Hfut) as [_ Hff]. congruence.
Qed.

Lemma Reads_inv future ns : forall c hd Fbuf Frest,
  reader_inv future c hd Fbuf Frest ->
  noise_short c Frest ->
  let pending := hd ++ payloads Fbuf ++ payloads Frest in
  (Reads c ns).1 `prefix_of` pending /\
  (forall e, (Reads c ns).2 <> Failed e) /\
  (future = [] -> Forall (fun n => 0 < n)%nat ns ->
   (length pending <= length ns)%nat ->
   (Reads c ns).1 = pending).
Proof.
  intros c hd Fbuf Frest Hinv Hshort pending.
  destruct (Reads_stream false future ns c hd Fbuf Frest
              (reader_stream_inv _ _ _ _ _ Hinv) Hshort) as (P1 & P2 & P3 & _).
  split; [exact P1|]. split; [|exact P3].
  intros e He. by destruct (P2 e He) as (_ & ? & _).
Qed.
End Reader.

(** ** Running the model on the toy connections *)

Lemma option_check {T} (o : option T) (P : T -> bool) :
  match o with Some x => P x | None => false end = true ->
  exists x, o = Some x /\ P x = true.
Proof. destruct o as [x|]; [by exists x|discriminate]. Qed.

Lemma Some_default_fst {X Y} (o : option (X * option Y)) (d : X) :
  match o with Some (_, None) => true | _ => false end = true ->
  o = Some (match o with Some (c, _) => c | None => d end, None).
Proof. by destruct o as [[c [y|]]|]. Qed.

Lemma toy_CloseWrite :
  CloseWrite (toy_dialer 64) = Some (toy_half_closed, None).
Proof.
  apply (Some_default_fst (CloseWrite (toy_dialer 64)) (toy_dialer 64)).
  vm_compute. reflexivity.
Qed.

(** The first raw write of a [Write] fails, on a transport that does not
    rotate: the frames of [p] were buffered, the first chunk is lost. *)
Lemma Write_first_raw_write_fails {A : AEAD} (c : Conn A) (p : bytes) e rs :
  aead_ok A ->
  closed c = false -> closedWrite c = false ->
  deadline_passed (writeDeadline c) (clock c) = false ->
  0 < mtu c -> NoiseOverhead <= MaxRawSize (transport c) ->
  cs_n (send_cs (noise c)) <= MaxNonce ->
  p <> [] -> isRotator (transport c) = false ->
  writeResults (transport c) = Some e :: rs ->
  exists c',
    Write c p = Some (c', (0, Some e)) /\
    written (transport c') = written (transport c) /\
    bufWrite c' =
      drop (Z.to_nat (MaxRawSize (transport c) - NoiseOverhead))
           (bufWrite c ++ encode_frames (write_frames (length p) (mtu c) p)).
Proof.
  intros HA Hc Hw Hd Hm Hmax Hn Hp Hrot Hres.
  destruct (write_loop_total (length p) (mtu c) (bufWrite c) p Hm (le_n _))
    as (E & Hcat & _).
  set (buf := bufWrite c ++ encode_frames (write_frames (length p) (mtu c) p)) in *.
  assert (Hbuf : 0 < len buf).
  { subst buf. rewrite len_app. pose proof (len_nonneg (bufWrite c)).
    assert (0 < len (encode_frames (write_frames (length p) (mtu c) p))); [|lia].
    apply encode_frames_nonempty. intros Hnil. rewrite Hnil in Hcat.
    cbn in Hcat. congruence. }
  destruct (flush_step_write_fails HA (set_bufWrite buf c) e rs)
    as (c' & Es & Hwr & _ & Hb); try done.
  cbn [transport set_bufWrite bufWrite] in Hb, Hwr. rewrite Hrot in Hb.
  cbn [andb] in Hb.
  exists c'. split; [|by split].
  unfold Write. rewrite Hc, Hw, Hd. cbn [orb]. rewrite E.
  unfold flush, flush_fuel. cbn [flush_loop]. by rewrite Es.
Qed.

(** * The specification's claims *)

(** ** Ordered reliable delivery *)



(** ** Frame codec *)

(** C4 (amended). For every buffer, type byte and payload of fewer than
    2^32 bytes, [BuildFrame] appends exactly [5 + |payload|] bytes: a 4-byte
    big-endian length field equal to [|payload|], the type byte, then the
    payload; what was in the buffer is left unchanged. *)
Theorem BuildFrame_contract (buf : bytes) (ty : byte) (payload : bytes) :
  len payload < 2 ^ 32 ->
  let out := BuildFrame buf (mkFrame payload ty) in
  out = buf ++ PutUint32 (len payload) ++ [ty] ++ payload /\
  len (PutUint32 (len payload)) = 4 /\
  Uint32 (PutUint32 (len payload)) = len payload /\
  len out = len buf + (5 + len payload) /\
  take (length buf) out = buf.
Proof.
  intros Hp out. subst out. unfold BuildFrame. cbn [Payload Type_].
  pose proof (len_nonneg payload).
  rewrite uint32_small by lia.
  repeat split.
  - by rewrite Uint32_PutUint32 by lia.
  - rewrite !len_app, len_PutUint32, len_cons, len_nil. lia.
  - by rewrite take_app_length.
Qed.

Lemma BuildFrame_contract_witness :
  BuildFrame [x07] (mkFrame [x61; x62] MsgTypeData)
    = [x07; x00; x00; x00; x02; x00; x61; x62] /\
  Uint32 (PutUint32 (len [x61; x62])) = 2.
Proof.
  destruct (BuildFrame_contract [x07] MsgTypeData [x61; x62])
    as (H1 & _ & H3 & _); [reflexivity|].
  split; [exact H1 | exact H3].
Defined.

(** C4 as stated fails: for a payload of 2^32 bytes the length field that
    [BuildFrame] writes holds 0. *)
Lemma BuildFrame_length_field_wraps :
  len huge_payload = 2 ^ 32 /\
  Uint32 (take 4 (BuildFrame [] (mkFrame huge_payload MsgTypeData))) = 0 /\
  Uint32 (take 4 (BuildFrame [] (mkFrame huge_payload MsgTypeData)))
    <> len huge_payload.
Proof.
  assert (Hl : len huge_payload = 2 ^ 32)
    by (unfold huge_payload; apply len_replicate; lia).
  assert (H0 : Uint32 (take 4 (BuildFrame [] (mkFrame huge_payload MsgTypeData))) = 0).
  { unfold BuildFrame. cbn [Payload Type_]. rewrite Hl.
    rewrite app_nil_l, take_4_PutUint32_app. reflexivity. }
  split; [exact Hl|]. split; [exact H0|]. rewrite H0, Hl. lia.
Qed.

(** ** Noise session *)

(** C2 (amended). For an established session pair and every plaintext with
    [|plaintext| + 16 < 2^32], [SealData] on one side followed by
    [UnsealData] on the peer, applied to exactly the sealed bytes, returns
    the plaintext with no error and nothing remaining; the 4-byte
    big-endian prefix written by [SealData] equals [|plaintext| + 16]. *)
Theorem SealData_UnsealData_roundtrip {A : AEAD} (sender receiver : Noise A)
    (dst dst' p : bytes) :
  aead_ok A -> paired sender receiver -> len p + 16 < 2 ^ 32 ->
  exists sealed sender' receiver',
    SealData sender dst p = Ok (sealed, sender') /\
    UnsealData receiver dst' sealed =
      (mkUnsealed (Some p) (Some []) None, receiver') /\
    Uint32 (take 4 sealed) = len p + 16 /\
    len sealed = 4 + (len p + 16) /\
    send_cs sender' = recv_cs receiver'.
Proof.
  intros HA [Hsync Hn] Hp.
  destruct HA as [Hlen Hopen].
  destruct (SealData_ok (conj Hlen Hopen) sender dst p) as (s' & E & Hs & _);
    [lia|].
  pose proof (len_nonneg p).
  rewrite uint32_small in E by lia.
  destruct (DecryptData_ok (conj Hlen Hopen) receiver p) as (r' & D & Hr & _).
  { rewrite <- Hsync. lia. }
  rewrite <- Hsync in D.
  eexists _, s', r'. split; [exact E|].
  split.
  { rewrite <- (app_nil_r (aead_seal A _ _ p)).
    rewrite (UnsealData_chunk receiver dst' (len p + 16)
               (aead_seal A (cs_k (send_cs sender)) (cs_n (send_cs sender)) p) []);
      [ | lia | apply Hlen ].
    by rewrite D. }
  split.
  { rewrite take_4_PutUint32_app. apply Uint32_PutUint32. lia. }
  split.
  { rewrite len_app, len_PutUint32, Hlen. lia. }
  rewrite Hs, Hr. by rewrite Hsync.
Qed.

Lemma SealData_UnsealData_roundtrip_witness :
  exists sealed sender' receiver',
    SealData toy_initiator [] [x68; x69] = Ok (sealed, sender') /\
    UnsealData toy_responder [] sealed =
      (mkUnsealed (Some [x68; x69]) (Some []) None, receiver') /\
    Uint32 (take 4 sealed) = 18.
Proof.
  destruct (SealData_UnsealData_roundtrip toy_initiator toy_responder
              [] [] [x68; x69] toy_ok)
    as (sealed & s' & r' & H1 & H2 & H3 & _).
  - split; [reflexivity|]. cbn. unfold MaxNonce. lia.
  - reflexivity.
  - exists sealed, s', r'. split; [exact H1|]. split; [exact H2|exact H3].
Defined.

(** C2 as stated fails: for a plaintext of 2^32 - 16 bytes the prefix that
    [SealData] writes holds 0, and the peer's [UnsealData] of the sealed
    bytes fails to authenticate. *)
Lemma SealData_length_prefix_wraps :
  len huge_plaintext + 16 = 2 ^ 32 /\
  exists sealed sender',
    SealData toy_initiator [] huge_plaintext = Ok (sealed, sender') /\
    Uint32 (take 4 sealed) = 0 /\
    Uint32 (take 4 sealed) <> len huge_plaintext + 16 /\
    UnsealData toy_responder [] sealed =
      (mkUnsealed None None (Some ErrAuth), toy_responder).
Proof.
  assert (Hl : len huge_plaintext = 2 ^ 32 - 16)
    by (unfold huge_plaintext; apply len_replicate; lia).
  split; [lia|].
  destruct (SealData_ok toy_ok toy_initiator [] huge_plaintext)
    as (s' & E & _); [cbn; unfold MaxNonce; lia|].
  rewrite Hl in E.
  change (uint32 (2 ^ 32 - 16 + 16)) with 0 in E.
  eexists _, s'. split; [exact E|].
  rewrite take_4_PutUint32_app.
  split; [reflexivity|].
  split; [rewrite Hl; change (Uint32 (PutUint32 0)) with 0; lia|].
  assert (D : DecryptData toy_responder [] = Err ErrAuth) by reflexivity.
  pose proof (UnsealData_chunk toy_responder [] 0 []
             (aead_seal toy (cs_k (send_cs toy_initiator))
                (cs_n (send_cs toy_initiator)) huge_plaintext)
             ltac:(lia) eq_refl) as U.
  rewrite app_nil_l, D in U. exact U.
Qed.

(** C5. Whenever the input of [UnsealData] has fewer than 4 bytes, or fewer
    than [4 + length] bytes where [length] is the value of its big-endian
    prefix, [UnsealData] signals the short-buffer condition, returns no
    plaintext, returns the input unchanged as the remaining bytes, and
    leaves the session (hence the receive cipher state) as it was. *)
Theorem UnsealData_short_buffer {A : AEAD} (nh : Noise A) (dst data : bytes) :
  len data < 4 \/ len data < 4 + Uint32 (take 4 data) ->
  let '(u, nh') := UnsealData nh dst data in
  err u = Some ErrShortBuffer /\
  plaintext u = None /\
  remaining u = Some data /\
  nh' = nh /\ recv_cs nh' = recv_cs nh.
Proof.
  intros H. by rewrite (UnsealData_short nh dst data H).
Qed.

Lemma UnsealData_short_buffer_witness :
  UnsealData toy_responder [] [x00; x00; x00; x09; x01; x02] =
    (mkUnsealed None (Some [x00; x00; x00; x09; x01; x02])
       (Some ErrShortBuffer), toy_responder).
Proof.
  pose proof (UnsealData_short_buffer toy_responder []
                [x00; x00; x00; x09; x01; x02]) as H.
  destruct (UnsealData toy_responder [] [x00; x00; x00; x09; x01; x02])
    as [[pl rem e] nh'].
  destruct H as (He & Hp & Hr & Hn & _).
  - right. vm_compute. reflexivity.
  - cbn in He, Hp, Hr. by subst.
Defined.

(** ** Adaptive poller *)

(** C8 (amended). For a poller with [0 <= fast] and [steady <= 2^62] ns (so
    that doubling stays within [int64]): every [Sleep] and [Reset] preserves
    [fast <= current <= steady]; a blocking [Sleep] waits for [current] and
    then doubles [current] clamped to [steady], so the idle intervals are
    monotone non-decreasing, start at [fast] and never exceed [steady];
    [Reset] sets [current = fast] and marks skip, so after [Reset] the first
    [Sleep] returns without blocking and the second blocks for [fast]. *)
Theorem AdaptivePoll_backoff (p : AdaptivePoll) :
  0 <= Fast p -> Steady p <= 2 ^ 62 -> poll_inv p ->
  poll_inv (Sleep p).1 /\ poll_inv (Reset p) /\
  (skip p = false ->
     (Sleep p).2 = Some (Cur p) /\
     Cur (Sleep p).1 = Z.min (2 * Cur p) (Steady p)) /\
  (forall n,
     StronglySorted Z.le (idle_intervals n p) /\
     Forall (fun d => Fast p <= d <= Steady p) (idle_intervals n p)) /\
  (forall n, skip p = false -> Cur p = Fast p ->
     head (idle_intervals (S n) p) = Some (Fast p)) /\
  Cur (Reset p) = Fast p /\ skip (Reset p) = true /\
  (Sleep (Reset p)).2 = None /\
  (Sleep (Sleep (Reset p)).1).2 = Some (Fast p).
Proof.
  intros Hf Hs Hi. pose proof Hi as Hi0. unfold poll_inv in Hi0.
  split; [by apply Sleep_inv|].
  split; [unfold poll_inv, Reset; cbn; lia|].
  split.
  { intros Hk. rewrite Sleep_blocking by (done || lia). done. }
  split.
  { intros n. destruct (idle_intervals_sorted n p Hf Hs Hi) as [H1 H2].
    split; [done|]. eapply Forall_impl; [exact H2|]. cbn. lia. }
  split.
  { intros n Hk Hc. cbn [idle_intervals].
    rewrite Sleep_blocking by (done || lia). cbn. by rewrite Hc. }
  repeat split.
Qed.

Lemma AdaptivePoll_backoff_witness :
  idle_intervals 8 (NewAdaptivePoll 10 100) = [10; 20; 40; 80; 100; 100; 100; 100] /\
  (Sleep (Reset (NewAdaptivePoll 10 100))).2 = None /\
  (Sleep (Sleep (Reset (NewAdaptivePoll 10 100))).1).2 = Some 10.
Proof.
  destruct (AdaptivePoll_backoff (NewAdaptivePoll 10 100))
    as (_ & _ & _ & _ & _ & _ & _ & H1 & H2).
  - vm_compute. discriminate.
  - vm_compute. discriminate.
  - unfold poll_inv. vm_compute. split; discriminate.
  - split; [reflexivity|]. split; [exact H1|exact H2].
Defined.

(** C8 as stated fails: on the poller built by
    [NewAdaptivePoll(2^62, 2^63 - 1)] the invariant holds, and the doubling
    in [Sleep] wraps around to a negative [current]. *)
Lemma Sleep_overflow_breaks_invariant :
  poll_inv overflowing_poll /\
  Cur (Sleep overflowing_poll).1 = - 2 ^ 63 /\
  ~ poll_inv (Sleep overflowing_poll).1.
Proof.
  assert (H : Cur (Sleep overflowing_poll).1 = - 2 ^ 63) by reflexivity.
  split; [unfold poll_inv; vm_compute; split; discriminate|].
  split; [exact H|].
  unfold poll_inv. rewrite H, Sleep_Fast.
  change (Fast overflowing_poll) with (2 ^ 62). lia.
Qed.

(** ** Reading *)

(** C10. On an open connection whose read buffer starts with a complete
    DATA frame of payload length [L > 0], [Read] with a zero-length
    destination consumes the 5-byte header, copies nothing, sets
    [readRemain = L], stores the clock in [peerLastSeen] and returns 0 with
    no error, without asking the transport for more; the [L] payload bytes
    stay buffered and the next [Read] delivers them. *)
Theorem Read_zero_length_buffer {A : AEAD} (c : Conn A) (payload rest : bytes) :
  at_frame_boundary c -> 0 < len payload < 2 ^ 32 ->
  bufRead c = BuildFrame [] (mkFrame payload MsgTypeData) ++ rest ->
  let c' := set_readRemain (len payload)
              (set_bufRead (payload ++ rest) (set_peerLastSeen (clock c) c)) in
  Read c 0 = Returned c' [] None /\
  len (bufRead c) - len (bufRead c') = FrameHeaderSize /\
  readRemain c' = len payload /\
  peerLastSeen c' = clock c /\
  transport c' = transport c /\
  take (length payload) (bufRead c') = payload /\
  exists c'', Read c' (length payload) = Returned c'' payload None /\
              readRemain c'' = 0 /\ bufRead c'' = rest.
Proof.
  intros Hb Hp Hbuf c'. pose proof Hb as (Hc & Hr & Hd & Hm).
  assert (Hread : Read c 0 = Returned c' [] None).
  { unfold Read. apply read_loop_return.
    rewrite (read_head_frame c 0%nat MsgTypeData payload rest Hb) by (lia || done).
    cbn zeta. rewrite decide_True by done.
    replace (Z.to_nat (Z.min (len payload) (Z.of_nat 0))) with 0%nat by lia.
    rewrite take_0, drop_0, len_nil, Z.sub_0_r. reflexivity. }
  split; [exact Hread|].
  split.
  { subst c'. cbn [bufRead set_readRemain set_bufRead set_peerLastSeen].
    rewrite Hbuf, BuildFrame_nil. cbn [Payload Type_].
    rewrite !len_app, len_PutUint32, len_cons, len_nil.
    unfold FrameHeaderSize. lia. }
  split; [reflexivity|]. split; [reflexivity|]. split; [reflexivity|].
  split.
  { subst c'. cbn [bufRead set_readRemain set_bufRead]. by rewrite take_app_length. }
  eexists. split.
  - unfold Read. apply read_loop_return.
    rewrite read_head_remain; subst c'; cbn; try done; try lia.
    replace (Z.to_nat (Z.min (len payload) (Z.of_nat (length payload))))
      with (length payload) by (unfold len; lia).
    rewrite take_app_length, drop_app_length. reflexivity.
  - cbn. unfold len. split; [lia|done].
Qed.

Lemma Read_zero_length_buffer_witness :
  exists c', Read (set_bufRead [x00; x00; x00; x02; x00; x61; x62; x09]
                     (toy_listener 64)) 0 = Returned c' [] None /\
             readRemain c' = 2 /\ bufRead c' = [x61; x62; x09].
Proof.
  destruct (Read_zero_length_buffer
              (set_bufRead [x00; x00; x00; x02; x00; x61; x62; x09]
                 (toy_listener 64)) [x61; x62] [x09])
    as (H & _).
  - repeat split.
  - split; reflexivity.
  - reflexivity.
  - eexists. split; [exact H|]. split; reflexivity.
Defined.

(** ** Half-close *)

(** C6. Once [CloseWrite] has returned on a connection, every later [Write]
    on it fails with the closed-pipe error and leaves the connection (and
    so its write buffer) as it was, while [Read] goes on delivering what
    the peer sends until it consumes the peer's FIN frame, and then
    returns end-of-stream:
    - [Read] does not look at the flag [CloseWrite] has set;
    - a DATA frame at the head of the read buffer is consumed: its payload
      (as much as fits) is returned, the rest of it is left to be drained;
    - a FIN frame at the head of the read buffer is consumed, [Read]
      returns end-of-stream, and keeps returning it;
    - when the transport hands over, in order and cut in any way, the
      sealed chunks of the peer's DATA (and ROTATE) frames followed by its
      FIN frame, the successive [Read] calls deliver the payload bytes in
      order, nothing else and nothing twice, and the only failure they
      meet is end-of-stream, after the last payload byte; with enough
      calls with room for a byte, they deliver every byte and then
      report end-of-stream. *)
Theorem half_close {A : AEAD} (c c1 : Conn A) (e : option error) :
  aead_ok A ->
  CloseWrite c = Some (c1, e) ->
  (forall c2 p, later c1 c2 ->
     Write c2 p = Some (c2, (0, Some ErrClosedPipe))) /\
  (forall c2 lenp, later c1 c2 ->
     Read c2 lenp =
       map_outcome (set_closedWrite (closedWrite c2))
         (Read (set_closedWrite false c2) lenp)) /\
  (forall c2 lenp payload rest, later c1 c2 ->
     at_frame_boundary c2 -> len payload < 2 ^ 32 ->
     bufRead c2 = BuildFrame [] (mkFrame payload MsgTypeData) ++ rest ->
     Read c2 lenp =
       Returned
         (set_readRemain (len payload - len (take lenp payload))
            (set_bufRead (drop lenp payload ++ rest)
               (set_peerLastSeen (clock c2) c2)))
         (take lenp payload) None) /\
  (forall c2 lenp payload rest, later c1 c2 ->
     at_frame_boundary c2 -> len payload < 2 ^ 32 ->
     bufRead c2 = BuildFrame [] (mkFrame payload MsgTypeFin) ++ rest ->
     let c3 := set_closedRead true
                 (set_bufRead rest (set_peerLastSeen (clock c2) c2)) in
     Read c2 lenp = Returned c3 [] (Some EOF) /\
     forall c4 n, later c3 c4 -> closed c4 = false ->
       Read c4 n = Returned c4 [] (Some EOF)) /\
  (forall c2 hd Fbuf Frest F ns, later c1 c2 ->
     closed c2 = false -> closedRead c2 = false -> readDeadline c2 = None ->
     no_failure (readResults (transport c2)) ->
     readRemain c2 = len hd -> bufRead c2 = hd ++ encode_frames Fbuf ->
     noise_short c2 Frest ->
     bufNoise c2 ++ inbound_data (readResults (transport c2)) =
       concat (seal_all (cs_k (recv_cs (noise c2))) (cs_n (recv_cs (noise c2)))
                 (map (BuildFrame []) Frest)) ->
     Fbuf ++ Frest = F ++ [fin_frame] -> Forall wire_frame F ->
     cs_n (recv_cs (noise c2)) + Z.of_nat (length Frest) <= MaxNonce + 1 ->
     let pending := hd ++ payloads F in
     (Reads c2 ns).1 `prefix_of` pending /\
     (forall e', (Reads c2 ns).2 = Failed e' ->
        e' = EOF /\ (Reads c2 ns).1 = pending) /\
     (Forall (fun n => 0 < n)%nat ns -> (length pending < length ns)%nat ->
      Reads c2 ns = (pending, Failed EOF))).
Proof.
  intros HA H. apply CloseWrite_shut in H. destruct H as (Hshut & _).
  split.
  { intros c2 p Hl. apply Write_shut. by apply (later_flags c1 c2). }
  split.
  { intros c2 lenp _. rewrite <- Read_closedWrite.
    by rewrite set_closedWrite_id. }
  split.
  { intros c2 lenp payload rest _ Hb Hp Hbuf.
    unfold Read. apply read_loop_return.
    rewrite (read_head_frame c2 lenp MsgTypeData payload rest Hb Hp Hbuf).
    cbn zeta. rewrite decide_True by done.
    by rewrite take_min_app, drop_min_app. }
  split.
  { intros c2 lenp payload rest _ Hb Hp Hbuf c3. split.
    - unfold Read. apply read_loop_return.
      rewrite (read_head_frame c2 lenp MsgTypeFin payload rest Hb Hp Hbuf).
      cbn zeta. rewrite decide_False by done. rewrite decide_False by done.
      rewrite decide_True by done. reflexivity.
    - intros c4 n Hl Hc. apply Read_EOF; [done|].
      by apply (later_flags _ c4 Hl). }
  intros c2 hd Fbuf Frest F ns _ Hc Hr Hd Hnf Hrem Hbuf Hshort Hstream HF HwF
    Hn pending.
  assert (Hinv : stream_inv true [] c2 hd Fbuf Frest).
  { unfold stream_inv. repeat (split; [done|]).
    split; [by exists F|]. split; [by rewrite app_nil_r|done]. }
  destruct (Reads_stream HA true [] ns c2 hd Fbuf Frest Hinv Hshort)
    as (P1 & P2 & P3 & P4).
  assert (Hpend : hd ++ payloads Fbuf ++ payloads Frest = pending).
  { subst pending. rewrite <- payloads_app, HF, payloads_app.
    change (payloads [fin_frame]) with (@nil byte). by rewrite app_nil_r. }
  cbn zeta in P1, P2, P3, P4. rewrite Hpend in P1, P2, P3, P4.
  split; [exact P1|]. split.
  { intros e' He. by destruct (P2 e' He) as (? & _ & ?). }
  intros Hpos Hlen.
  specialize (P3 eq_refl Hpos ltac:(lia)). specialize (P4 eq_refl eq_refl Hpos Hlen).
  destruct (Reads c2 ns) as [d r]. cbn [fst snd] in *. by subst.
Qed.

Lemma half_close_witness :
  Write toy_half_closed_fed [x61]
    = Some (toy_half_closed_fed, (0, Some ErrClosedPipe)) /\
  Reads toy_half_closed_fed [8; 8; 8; 8; 8; 8]%nat
    = ([x68; x65; x6c; x6c; x6f], Failed EOF).
Proof.
  destruct (half_close _ _ _ toy_ok toy_CloseWrite) as (H1 & _ & _ & _ & H5).
  assert (Hl : later toy_half_closed toy_half_closed_fed).
  { unfold toy_half_closed_fed. apply rtc_once. apply step_environment. }
  split; [by apply H1|].
  destruct (H5 toy_half_closed_fed [] [] (toy_peer_frames ++ [fin_frame])
              toy_peer_frames [8; 8; 8; 8; 8; 8]%nat Hl) as (_ & _ & H).
  - vm_compute. reflexivity.
  - vm_compute. reflexivity.
  - vm_compute. reflexivity.
  - vm_compute. repeat constructor.
  - vm_compute. reflexivity.
  - vm_compute. reflexivity.
  - vm_compute. reflexivity.
  - vm_compute. reflexivity.
  - reflexivity.
  - constructor; [|constructor].
    split; [left; split; [reflexivity|vm_compute; reflexivity]
           |vm_compute; reflexivity].
  - vm_compute. discriminate.
  - rewrite H; [reflexivity|repeat constructor|vm_compute; lia].
Defined.

(** ** Flush failure *)




(** ** Size bounds *)




(** ** Janitor *)



(** * Further properties of the code *)

(** ** [Conn.Close] *)

Section Closing.
Context {A : AEAD}.
Implicit Types c : Conn A.

Lemma Read_closed c lenp :
  closed c = true -> Read c lenp = Returned c [] (Some ErrClosed).
Proof.
  intros H. unfold Read. apply read_loop_return. unfold read_head.
  by rewrite H.
Qed.

Lemma conn_step_closed c c' :
  conn_step c c' -> closed c = true -> closeOnce c = true ->
  closed c' = true /\ closeOnce c' = true.
Proof.
  intros Hs Hc Ho. inversion Hs; subst.
  - rewrite Write_shut in H by (by left). by simplify_eq.
  - rewrite Read_closed in H by done. by simplify_eq.
  - rewrite Read_closed in H by done. discriminate.
  - unfold CloseWrite in H. rewrite Hc in H. by simplify_eq.
  - unfold Close in H. rewrite Ho in H. by simplify_eq.
  - done.
  - done.
  - done.
  - unfold keepAlive_tick in H. rewrite Hc in H. cbn [orb] in H.
    by simplify_eq.
  - done.
Qed.

Lemma later_closed c c' :
  later c c' -> closed c = true -> closeOnce c = true ->
  closed c' = true /\ closeOnce c' = true.
Proof.
  induction 1 as [|x y z Hxy _ IH]; [done|].
  intros Hc Ho. destruct (conn_step_closed _ _ Hxy Hc Ho). by apply IH.
Qed.

Lemma Close_first c c1 e :
  closeOnce c = false -> Close c = Some (c1, e) ->
  e = None /\ closed c1 = true /\ closeOnce c1 = true /\
  bufRead c1 = [] /\ bufWrite c1 = [] /\ bufNoise c1 = [] /\
  transportClosed (transport c1) = true.
Proof.
  intros Ho H. unfold Close in H. rewrite Ho in H.
  destruct (flush _) as [[c2 r2]|] eqn:E2; [|discriminate].
  apply flush_loop_frame in E2. destruct E2 as (Hc2 & _ & _ & Ho2 & _).
  cbn in Hc2, Ho2.
  match type of H with
  | match flush ?x with _ => _ end = _ =>
      assert (Hx : closed x = true /\ closeOnce x = true)
        by (by destruct (closedWrite c2));
      destruct (flush x) as [[c3 r3]|] eqn:E3; [|discriminate]
  end.
  apply flush_loop_frame in E3. destruct E3 as (Hc3 & _ & _ & Ho3 & _).
  destruct Hx as [Hx1 Hx2]. rewrite Hx1 in Hc3. rewrite Hx2 in Ho3.
  by simplify_eq.
Qed.

End Closing.

Lemma toy_Close : Close (toy_dialer 64) = Some (toy_closed, None).
Proof.
  apply (Some_default_fst (Close (toy_dialer 64)) (toy_dialer 64)).
  vm_compute. reflexivity.
Qed.


(** ** One chunk through [flush] *)

Section OneChunk.
Context {A : AEAD} (HA : aead_ok A).
Implicit Types c : Conn A.

(** A write buffer that fits one chunk, on a transport that accepts the
    write and does not ask for a rotation: [flush] seals the buffer into
    one chunk, hands it over and returns. *)
Lemma flush_single c :
  0 < len (bufWrite c) <= MaxRawSize (transport c) - NoiseOverhead ->
  writeResults (transport c) = [] -> shouldRotate (transport c) = [] ->
  cs_n (send_cs (noise c)) <= MaxNonce ->
  exists c',
    flush c = Some (c', None) /\
    written (transport c') =
      written (transport c) ++
        [PutUint32 (uint32 (len (bufWrite c) + 16)) ++
         aead_seal A (cs_k (send_cs (noise c))) (cs_n (send_cs (noise c)))
           (bufWrite c)] /\
    bufWrite c' = [] /\ lastActive c' = clock c /\
    writeResults (transport c') = [] /\ shouldRotate (transport c') = [] /\
    send_cs (noise c') =
      mkCipherState (cs_k (send_cs (noise c))) (cs_n (send_cs (noise c)) + 1) /\
    flush_frame c c'.
Proof.
  intros Hlen Hw Hr Hn.
  assert (Hfl : exists c', flush c = Some (c', None) /\
     written (transport c') =
      written (transport c) ++
        [PutUint32 (uint32 (len (bufWrite c) + 16)) ++
         aead_seal A (cs_k (send_cs (noise c))) (cs_n (send_cs (noise c)))
           (bufWrite c)] /\
    bufWrite c' = [] /\ lastActive c' = clock c /\
    writeResults (transport c') = [] /\ shouldRotate (transport c') = [] /\
    send_cs (noise c') =
      mkCipherState (cs_k (send_cs (noise c))) (cs_n (send_cs (noise c)) + 1)).
  2:{ destruct Hfl as (c' & E & H). exists c'. split; [exact E|].
      repeat (split; [apply H|]). by apply flush_loop_frame in E. }
  unfold flush, flush_fuel.
  destruct (SealData_ok HA (noise c) [] (bufWrite c) Hn)
    as (nh' & Es & Hs & _).
  destruct c as [t nh pl bR bW bN rd wd la ps ct td co cl cr cw m rr ck].
  cbn [transport bufWrite noise clock] in *.
  destruct t as [mx ir wr wres sr rtr rtx rres rrx tc].
  cbn [MaxRawSize writeResults shouldRotate written] in *. subst wres sr.
  destruct bW as [|b bW].
  { unfold len in Hlen. cbn [length] in Hlen. lia. }
  cbn [length Nat.add flush_loop]. unfold flush_step.
  cbn -[len SealData Z.min Z.sub Z.ltb Z.eqb NoiseOverhead Z.to_nat take drop
        flush_loop].
  replace (len (b :: bW) =? 0) with false by (symmetry; apply Z.eqb_neq; lia).
  destruct ir.
  all: cbn -[len SealData Z.min Z.sub Z.ltb Z.eqb NoiseOverhead Z.to_nat take
             drop flush_loop].
  all: rewrite Z.min_l by lia.
  all: replace (len (b :: bW) <? 0) with false
         by (symmetry; apply Z.ltb_ge; lia).
  all: unfold len at 1 2; rewrite Nat2Z.id, firstn_all, drop_all.
  all: fold (len (b :: bW)); rewrite Es.
  all: cbn -[len SealData Z.min Z.sub Z.ltb Z.eqb NoiseOverhead Z.to_nat take
             drop flush_loop].
  all: eexists; (split; [reflexivity|]); repeat split; exact Hs.
Qed.
End OneChunk.

(** ** FIN and PING frames on the wire *)

Section ControlFrames.
Context {A : AEAD} (HA : aead_ok A).
Implicit Types c : Conn A.

Lemma flush_empty c : bufWrite c = [] -> flush c = Some (c, None).
Proof.
  intros H. unfold flush, flush_fuel. cbn [flush_loop]. unfold flush_step.
  by rewrite H.
Qed.

(** [flush] of one control frame appended to an empty write buffer. *)
Lemma flush_control_frame c ty :
  bufWrite c = [] ->
  writeResults (transport c) = [] -> shouldRotate (transport c) = [] ->
  FrameHeaderSize + NoiseOverhead <= MaxRawSize (transport c) ->
  cs_n (send_cs (noise c)) <= MaxNonce ->
  exists c',
    flush (set_bufWrite (BuildFrame (bufWrite c) (mkFrame [] ty)) c)
      = Some (c', None) /\
    written (transport c') =
      written (transport c) ++
        seal_all (cs_k (send_cs (noise c))) (cs_n (send_cs (noise c)))
          [BuildFrame [] (mkFrame [] ty)] /\
    bufWrite c' = [] /\ lastActive c' = clock c /\
    writeResults (transport c') = [] /\ shouldRotate (transport c') = [] /\
    flush_frame c c'.
Proof.
  intros Hb Hw Hr Hmax Hn. rewrite Hb.
  destruct (flush_single HA
              (set_bufWrite (BuildFrame [] (mkFrame [] ty)) c))
    as (c' & E & Hwr & Hb' & Hla & Hw' & Hr' & _ & Hf); try done.
  { cbn [bufWrite set_bufWrite transport]. rewrite len_BuildFrame.
    cbn [Payload]. change (len (@nil byte)) with 0.
    unfold FrameHeaderSize in *. lia. }
  exists c'. split; [exact E|]. split.
  { rewrite Hwr. cbn [transport set_bufWrite bufWrite noise seal_all].
    destruct HA as [Hlen _]. by rewrite Hlen. }
  repeat (split; [done|]).
  eapply flush_frame_trans; [apply flush_frame_set_bufWrite|exact Hf].
Qed.


End ControlFrames.



(** ** Control frames in front of [Read] *)

Section SkipControl.
Context {A : AEAD}.
Implicit Types c : Conn A.

Lemma len_encode_frames_ge (fs : list Frame) :
  Z.of_nat (length fs) <= len (encode_frames fs).
Proof.
  induction fs as [|f fs IH]; [done|].
  rewrite encode_frames_cons, len_app, len_BuildFrame. cbn [length].
  pose proof (len_nonneg (Payload f)). rewrite len_nil.
  unfold FrameHeaderSize. lia.
Qed.

(** The turns of the loop of [Read] that consume PING, ROTATE and
    unknown frames: they leave the connection at the frame that
    follows, having seen the peer. *)
Lemma skip_frames_control lenp (ctl : list Frame) : forall c fuel tail,
  at_frame_boundary c ->
  Forall (fun f => Type_ f <> MsgTypeData /\ Type_ f <> MsgTypeFin /\
                   len (Payload f) < 2 ^ 32) ctl ->
  bufRead c = encode_frames ctl ++ tail ->
  (length ctl <= fuel)%nat ->
  exists c0,
    skip_frames fuel c lenp = skip_frames (fuel - length ctl) c0 lenp /\
    at_frame_boundary c0 /\ bufRead c0 = tail /\ clock c0 = clock c /\
    peerLastSeen c0 =
      match ctl with [] => peerLastSeen c | _ => clock c end /\
    readResults (transport c0) = readResults (transport c) /\
    written (transport c0) = written (transport c) /\
    bufNoise c0 = bufNoise c /\ noise c0 = noise c.
Proof.
  induction ctl as [|f ctl IH]; intros c fuel tail Hb Hall Hbuf Hfuel.
  { exists c. rewrite Nat.sub_0_r. split; [done|]. split; [exact Hb|].
    split; [exact Hbuf|]. by repeat split. }
  apply Forall_cons in Hall. destruct Hall as [(Hd & Hf & Hp) Hall].
  destruct fuel as [|fuel]; [cbn in Hfuel; lia|].
  destruct f as [pl ty]. cbn [Type_ Payload] in *.
  rewrite encode_frames_cons, <- app_assoc in Hbuf.
  pose proof (read_head_frame c lenp ty pl _ Hb Hp Hbuf) as Hh.
  cbn zeta in Hh. rewrite decide_False in Hh by done.
  destruct Hb as (Hc & Hcr & Hdl & Hrr).
  assert (Hstep : exists c1,
    read_head c lenp = FrameSkip c1 /\ at_frame_boundary c1 /\
    bufRead c1 = encode_frames ctl ++ tail /\ clock c1 = clock c /\
    peerLastSeen c1 = clock c /\
    readResults (transport c1) = readResults (transport c) /\
    written (transport c1) = written (transport c) /\
    bufNoise c1 = bufNoise c /\ noise c1 = noise c).
  { destruct (decide (ty = MsgTypePing)).
    { eexists. split; [exact Hh|]. by repeat split. }
    rewrite decide_False in Hh by done.
    destruct (decide (ty = MsgTypeRotate)).
    { eexists. split; [exact Hh|].
      cbn [transport set_bufRead set_peerLastSeen].
      destruct (isRotator (transport c)); by repeat split. }
    eexists. split; [exact Hh|]. by repeat split. }
  destruct Hstep as (c1 & E1 & Hb1 & Hbuf1 & Hck1 & Hps1 & Hrr1 & Hw1 & Hn1 & Hnh1).
  destruct (IH c1 fuel tail Hb1 Hall Hbuf1 ltac:(cbn in Hfuel; lia))
    as (c0 & E0 & Hb0 & Hbuf0 & Hck0 & Hps0 & Hrr0 & Hw0 & Hn0 & Hnh0).
  exists c0. split.
  { cbn [skip_frames length Nat.sub]. by rewrite E1. }
  split; [exact Hb0|]. split; [exact Hbuf0|]. split; [congruence|].
  split; [rewrite Hps0; destruct ctl; congruence|].
  repeat split; congruence.
Qed.

(** X4. PING, ROTATE and unknown frames are invisible to the caller of
    [Read]: when the read buffer holds any number of them in front of a
    DATA frame, one [Read] consumes them all and returns the payload of
    the DATA frame (as much as fits), and in front of a FIN frame it
    returns end-of-stream; the peer counts as seen at that moment, and the
    transport is not asked for anything. *)
Theorem Read_skips_control_frames c lenp (ctl : list Frame) payload rest :
  at_frame_boundary c ->
  Forall (fun f => Type_ f <> MsgTypeData /\ Type_ f <> MsgTypeFin /\
                   len (Payload f) < 2 ^ 32) ctl ->
  len payload < 2 ^ 32 ->
  (bufRead c =
     encode_frames ctl ++ BuildFrame [] (mkFrame payload MsgTypeData) ++ rest ->
   exists c',
     Read c lenp = Returned c' (take lenp payload) None /\
     bufRead c' = drop lenp payload ++ rest /\
     readRemain c' = len payload - len (take lenp payload) /\
     peerLastSeen c' = clock c /\
     readResults (transport c') = readResults (transport c) /\
     written (transport c') = written (transport c)) /\
  (bufRead c =
     encode_frames ctl ++ BuildFrame [] (mkFrame payload MsgTypeFin) ++ rest ->
   exists c',
     Read c lenp = Returned c' [] (Some EOF) /\
     closedRead c' = true /\ bufRead c' = rest /\
     peerLastSeen c' = clock c /\
     readResults (transport c') = readResults (transport c) /\
     written (transport c') = written (transport c)).
Proof.
  intros Hb Hall Hp.
  assert (Hfuel : forall tail, bufRead c = encode_frames ctl ++ tail ->
            (length ctl <= length (bufRead c))%nat).
  { intros tail ->. rewrite length_app.
    pose proof (len_encode_frames_ge ctl). unfold len in *. lia. }
  split; intros Hbuf.
  - destruct (skip_frames_control lenp ctl c (length (bufRead c)) _ Hb Hall
                Hbuf (Hfuel _ Hbuf))
      as (c0 & E0 & Hb0 & Hbuf0 & Hck0 & _ & Hrr0 & Hw0 & _).
    pose proof (read_head_frame c0 lenp MsgTypeData payload rest Hb0 Hp Hbuf0)
      as Hh.
    cbn zeta in Hh. rewrite decide_True in Hh by done.
    rewrite take_min_app, drop_min_app in Hh.
    eexists. split.
    { unfold Read. cbn [read_loop]. rewrite E0.
      by rewrite (skip_frames_return _ _ _ _ _ _ Hh). }
    cbn [bufRead readRemain peerLastSeen transport set_readRemain set_bufRead
         set_peerLastSeen]. by repeat split.
  - destruct (skip_frames_control lenp ctl c (length (bufRead c)) _ Hb Hall
                Hbuf (Hfuel _ Hbuf))
      as (c0 & E0 & Hb0 & Hbuf0 & Hck0 & _ & Hrr0 & Hw0 & _).
    pose proof (read_head_frame c0 lenp MsgTypeFin payload rest Hb0 Hp Hbuf0)
      as Hh.
    cbn zeta in Hh.
    rewrite decide_False, decide_False, decide_True in Hh by done.
    eexists. split.
    { unfold Read. cbn [read_loop]. rewrite E0.
      by rewrite (skip_frames_return _ _ _ _ _ _ Hh). }
    cbn [bufRead closedRead peerLastSeen transport set_closedRead set_bufRead
         set_peerLastSeen]. by repeat split.
Qed.
End SkipControl.

Lemma Read_skips_control_frames_witness :
  exists c',
    Read (set_bufRead
            (encode_frames [mkFrame [] MsgTypePing; mkFrame [] MsgTypeRotate]
             ++ BuildFrame [] (mkFrame [x68; x69] MsgTypeData) ++ [])
            (toy_dialer 64)) 8
    = Returned c' [x68; x69] None.
Proof.
  destruct (Read_skips_control_frames
              (set_bufRead
                 (encode_frames [mkFrame [] MsgTypePing; mkFrame [] MsgTypeRotate]
                  ++ BuildFrame [] (mkFrame [x68; x69] MsgTypeData) ++ [])
                 (toy_dialer 64))
              8 [mkFrame [] MsgTypePing; mkFrame [] MsgTypeRotate]
              [x68; x69] [])
    as [H _].
  - repeat split.
  - repeat constructor; (discriminate || (vm_compute; reflexivity)).
  - vm_compute. reflexivity.
  - destruct (H eq_refl) as (c' & E & _). by exists c'.
Defined.


(** ** The intervals of the adaptive poller *)

Lemma idle_intervals_geometric n : forall p,
  skip p = false -> 0 < Cur p <= Steady p -> Steady p <= 2 ^ 62 ->
  idle_intervals n p =
    map (fun i => Z.min (Cur p * 2 ^ Z.of_nat i) (Steady p)) (seq 0 n).
Proof.
  induction n as [|n IH]; intros p Hs Hc Hst; [done|].
  cbn [idle_intervals seq map].
  rewrite (Sleep_blocking p) by (done || lia).
  rewrite IH by (cbn [skip Cur Steady]; (done || lia)).
  cbn [Cur Steady]. f_equal; [lia|].
  rewrite <- seq_shift, map_map. apply map_ext. intros i.
  rewrite Nat2Z.inj_succ, Z.pow_succ_r by lia.
  assert (0 < 2 ^ Z.of_nat i) by (apply Z.pow_pos_nonneg; lia).
  destruct (Z.le_gt_cases (2 * Cur p) (Steady p)).
  - rewrite (Z.min_l (2 * Cur p)) by lia. f_equal. lia.
  - rewrite (Z.min_r (2 * Cur p)) by lia.
    rewrite !Z.min_r by nia. done.
Qed.

Lemma NewAdaptivePoll_start (fast steady : Z) :
  let f := if fast <=? 0 then DefaultFastPoll else fast in
  0 < f /\
  NewAdaptivePoll fast steady = mkAdaptivePoll f f (Z.max f steady) false.
Proof.
  intros f.
  assert (Hf : 0 < f).
  { subst f. destruct (Z.leb_spec fast 0); [by unfold DefaultFastPoll|lia]. }
  split; [exact Hf|].
  unfold NewAdaptivePoll. fold f.
  destruct (Z.ltb_spec steady f); f_equal; lia.
Qed.

(** X5. Whatever intervals it is given, [NewAdaptivePoll] starts the
    poller inside its invariant, with a positive fast interval (the
    default when the given one is not positive) and a steady interval no
    smaller (raised to the fast one when it is); and as long as the steady
    interval is at most 2^62 ns, the n-th idle [Sleep] in a row lasts
    [min (fast * 2^n) steady]: the intervals double from the fast one
    until they reach the steady one, and stay there. *)
Theorem NewAdaptivePoll_intervals (fast steady : Z) (n : nat) :
  let f := if fast <=? 0 then DefaultFastPoll else fast in
  let s := Z.max f steady in
  let p := NewAdaptivePoll fast steady in
  (0 < Fast p /\ poll_inv p /\ Fast p = f /\ Steady p = s /\ skip p = false) /\
  (s <= 2 ^ 62 ->
   idle_intervals n p =
     map (fun i => Z.min (f * 2 ^ Z.of_nat i) s) (seq 0 n)).
Proof.
  intros f s p.
  destruct (NewAdaptivePoll_start fast steady) as [Hf Hp].
  fold f in Hf, Hp. fold s p in Hp.
  rewrite Hp. cbn [Fast Steady Cur skip]. split.
  - unfold poll_inv. cbn [Fast Steady Cur]. subst s. repeat split; lia.
  - intros Hs. rewrite idle_intervals_geometric; cbn [Fast Steady Cur skip];
      (done || lia).
Qed.

(** ** Sealed messages one after another *)

Section NoiseStream.
Context {A : AEAD} (HA : aead_ok A).

End NoiseStream.

Lemma NewAdaptivePoll_intervals_witness :
  idle_intervals 5 (NewAdaptivePoll 0 35000000)
  = [10000000; 20000000; 35000000; 35000000; 35000000].
Proof.
  destruct (NewAdaptivePoll_intervals 0 35000000 5) as [_ H].
  rewrite H; [reflexivity|vm_compute; discriminate].
Defined.


(** ** The frames [Write] makes *)

Lemma write_frames_count fuel : forall mtu p,
  0 < mtu -> (length p <= fuel)%nat ->
  Z.of_nat (length (write_frames fuel mtu p)) = (len p + mtu - 1) / mtu.
Proof.
  induction fuel as [|fuel IH]; intros mtu p Hm Hfuel.
  { destruct p; [|cbn in Hfuel; lia]. cbn [write_frames].
    change (len (@nil byte)) with 0. cbn [Z.leb Z.compare length Z.of_nat].
    symmetry. apply Z.div_small. lia. }
  cbn [write_frames].
  destruct (Z.leb_spec (len p) 0) as [H0|H0].
  { pose proof (len_nonneg p). replace (len p) with 0 by lia.
    cbn [length Z.of_nat]. symmetry. apply Z.div_small. lia. }
  destruct (Z.ltb_spec (Z.min (len p) mtu) 0); [lia|].
  cbn [length]. rewrite Nat2Z.inj_succ, IH; [|done|].
  2:{ rewrite length_drop. unfold len in *. lia. }
  unfold len at 1. rewrite length_drop. fold (len p).
  destruct (Z.le_gt_cases (len p) mtu).
  - rewrite Z.min_l by lia.
    replace (Z.of_nat (length p - Z.to_nat (len p))) with 0
      by (unfold len; lia).
    rewrite (Z.div_small (0 + mtu - 1)) by lia.
    apply (Z.div_unique _ _ (Z.succ 0) (len p - 1)); lia.
  - rewrite Z.min_r by lia.
    replace (Z.of_nat (length p - Z.to_nat mtu)) with (len p - mtu)
      by (unfold len in *; lia).
    replace (len p + mtu - 1) with (len p - mtu + mtu - 1 + 1 * mtu) by lia.
    rewrite Z.div_add by lia. lia.
Qed.

Lemma len_encode_frames (fs : list Frame) :
  len (encode_frames fs) =
    len (concat (map Payload fs)) + FrameHeaderSize * Z.of_nat (length fs).
Proof.
  induction fs as [|f fs IH]; [done|].
  rewrite encode_frames_cons. cbn [map concat length].
  rewrite !len_app, len_BuildFrame, IH, len_nil. lia.
Qed.

(** X7. [Write] on a connection with a positive MTU cuts [p] into
    [ceil (len p / mtu)] DATA frames appended to the write buffer: their
    payloads are not empty, have at most [mtu] bytes and are, put end to
    end, [p], so that framing adds 5 bytes for each frame. And a [Write]
    that returns no error returns [len p] and leaves the write buffer
    empty: everything has been handed to the transport. *)
Theorem Write_framing {A : AEAD} (c : Conn A) (p : bytes) :
  0 < mtu c ->
  (exists fs,
     write_loop (length p) (mtu c) (bufWrite c) p
       = Some (bufWrite c ++ encode_frames fs) /\
     concat (map Payload fs) = p /\
     Forall (fun f => Type_ f = MsgTypeData /\
                      0 < len (Payload f) <= mtu c) fs /\
     Z.of_nat (length fs) = (len p + mtu c - 1) / mtu c /\
     len (encode_frames fs) = len p + FrameHeaderSize * Z.of_nat (length fs)) /\
  (forall c' n, Write c p = Some (c', (n, None)) ->
     n = len p /\ bufWrite c' = []).
Proof.
  intros Hm. split.
  - destruct (write_loop_total (length p) (mtu c) (bufWrite c) p Hm (le_n _))
      as (E & Hcat & Hpos).
    pose proof (write_frames_bound (length p) (mtu c) p) as Hb.
    exists (write_frames (length p) (mtu c) p).
    split; [exact E|]. split; [exact Hcat|]. split.
    { apply Forall_forall. intros f Hf.
      rewrite Forall_forall in Hb, Hpos.
      destruct (Hb f Hf). specialize (Hpos f Hf). cbn in Hpos. by repeat split. }
    split; [by apply write_frames_count|].
    by rewrite len_encode_frames, Hcat.
  - intros c' n. unfold Write.
    destruct (closed c || closedWrite c); [intros; simplify_eq|].
    destruct (deadline_passed _ _); [intros; simplify_eq|].
    destruct (write_loop _ _ _ _) as [buf|]; [|done].
    destruct (flush _) as [[c1 [e1|]]|] eqn:E; intros; simplify_eq.
    split; [done|]. by apply flush_loop_suffix in E as [_ ->].
Qed.

Lemma Write_framing_witness :
  exists fs,
    write_loop 5 3 [] [x68; x65; x6c; x6c; x6f] = Some (encode_frames fs) /\
    length fs = 2%nat.
Proof.
  destruct (Write_framing (toy_dialer 28) [x68; x65; x6c; x6c; x6f])
    as [(fs & E & _ & _ & Hn & _) _]; [reflexivity|].
  exists fs. split; [exact E|].
  apply Nat2Z.inj. rewrite Hn. reflexivity.
Defined.

(** ** When the methods return *)

Section Termination.
Context {A : AEAD}.
Implicit Types c : Conn A.

(** A turn of [flush] that continues has used up a byte of the write
    buffer or an answer of [ShouldRotate]. *)
Lemma flush_step_measure c :
  NoiseOverhead < MaxRawSize (transport c) ->
  match flush_step c with
  | FlushMore c' =>
      (length (bufWrite c') + length (shouldRotate (transport c')) <
       length (bufWrite c) + length (shouldRotate (transport c)))%nat
  | FlushPanic => False
  | _ => True
  end.
Proof.
  intros Hmax. unfold flush_step.
  destruct (Z.eqb_spec (len (bufWrite c)) 0) as [H0|H0]; [done|].
  assert (Hlen : 0 < len (bufWrite c))
    by (pose proof (len_nonneg (bufWrite c)); lia).
  assert (Hrot : exists t1 rot,
            (if isRotator (transport c) then ShouldRotate (transport c)
             else (transport c, false)) = (t1, rot) /\
            (length (shouldRotate t1) <= length (shouldRotate (transport c)))%nat /\
            (rot = true ->
             (length (shouldRotate t1) < length (shouldRotate (transport c)))%nat)).
  { destruct (isRotator (transport c)); [|by eexists _, _].
    unfold ShouldRotate.
    destruct (shouldRotate (transport c)) as [|b bs] eqn:Es.
    - eexists _, _. split; [done|]. rewrite Es. split; [done|done].
    - eexists _, _. split; [done|]. cbn. split; [lia|]. intros; lia. }
  destruct Hrot as (t1 & rot & -> & Hle & Hlt).
  destruct rot.
  - specialize (Hlt eq_refl).
    destruct (SealData _ _ _) as [[sealed nh]|e]; [|done].
    cbn [transport set_noise set_transport].
    pose proof (WriteRaw_frame t1 sealed) as (_ & _ & _ & W4).
    destruct (WriteRaw t1 sealed) as [t2 [e|]]; [done|]. cbn [fst] in W4.
    pose proof (RotateTX_frame t2) as (_ & _ & _ & R4 & _).
    destruct (RotateTX t2) as [t3 [e|]]; [done|]. cbn [fst] in R4.
    cbn [bufWrite transport set_transport set_noise]. rewrite R4, W4. lia.
  - cbn [bufWrite set_transport transport].
    destruct (Z.ltb_spec (Z.min (len (bufWrite c))
                            (MaxRawSize (transport c) - NoiseOverhead)) 0);
      [lia|].
    destruct (SealData _ _ _) as [[sealed nh]|e]; [|done].
    cbn [transport set_noise set_transport set_bufWrite].
    pose proof (WriteRaw_frame t1 sealed) as (_ & _ & _ & W4).
    destruct (WriteRaw t1 sealed) as [t2 [e|]]; [done|]. cbn [fst] in W4.
    cbn [bufWrite transport set_transport set_noise set_bufWrite
         set_lastActive].
    rewrite W4, length_drop. unfold len in *. lia.
Qed.

Lemma flush_loop_returns fuel : forall c,
  NoiseOverhead < MaxRawSize (transport c) ->
  (length (bufWrite c) + length (shouldRotate (transport c)) < fuel)%nat ->
  exists r, flush_loop fuel c = Some r.
Proof.
  induction fuel as [|fuel IH]; intros c Hmax Hfuel; [lia|].
  cbn [flush_loop].
  pose proof (flush_step_measure c Hmax) as Hm.
  pose proof (flush_step_frame c) as Hf.
  destruct (flush_step c) as [c1|c1|c1 e|]; [by eexists| |by eexists|done].
  destruct Hf as (_ & _ & _ & _ & _ & _ & _ & _ & _ & _ & _ & _ & HM & _).
  apply IH; [by rewrite HM|lia].
Qed.

Lemma flush_returns c :
  NoiseOverhead < MaxRawSize (transport c) -> exists r, flush c = Some r.
Proof.
  intros Hmax. apply flush_loop_returns; [done|]. unfold flush_fuel. lia.
Qed.

(** X8. Over a transport whose raw unit is larger than the Noise overhead
    ([max_raw_size > 20]), [flush] always returns, and so do [CloseWrite],
    [Close] and a tick of the keep-alive; [Write] returns as well when the
    MTU is positive. When the MTU is zero or negative ([max_raw_size <=
    25] on a connection made by [newConn]), no [Write] of a non-empty [p]
    on an open connection ever returns: its framing loop does not end, or
    panics on a negative slice bound, whatever the number of turns. *)
Theorem methods_return c :
  (NoiseOverhead < MaxRawSize (transport c) ->
   (exists r, flush c = Some r) /\
   (exists r, CloseWrite c = Some r) /\
   (exists r, Close c = Some r) /\
   (forall d, exists c', keepAlive_tick d c = Some c') /\
   (0 < mtu c -> forall p, exists r, Write c p = Some r)) /\
  (mtu c <= 0 -> forall p, p <> [] ->
   (forall fuel buf, write_loop fuel (mtu c) buf p = None) /\
   (closed c = false -> closedWrite c = false ->
    deadline_passed (writeDeadline c) (clock c) = false ->
    Write c p = None)).
Proof.
  split.
  - intros Hmax. split; [by apply flush_returns|].
    split.
    { unfold CloseWrite. destruct (closed c); [by eexists|].
      destruct (closedWrite c); [by eexists|]. by apply flush_returns. }
    split.
    { unfold Close. destruct (closeOnce c); [by eexists|].
      destruct (flush_returns (set_closed true (set_closeOnce true c)) Hmax)
        as [[c1 r1] E1].
      rewrite E1.
      pose proof (flush_loop_frame _ _ _ _ E1)
        as (_ & _ & _ & _ & _ & _ & _ & _ & _ & _ & _ & _ & HM & _).
      cbn [transport set_closed set_closeOnce] in HM.
      match goal with
      | |- exists r, match flush ?x with _ => _ end = _ =>
          destruct (flush_returns x) as [[c2 r2] E2];
            [by destruct (closedWrite c1); cbn [transport set_bufWrite];
                rewrite HM|]
      end.
      rewrite E2. by eexists. }
    split.
    { intros d. unfold keepAlive_tick.
      destruct (closed c || closedWrite c); [by eexists|].
      destruct (_ <=? _); [|by eexists].
      match goal with
      | |- exists c', match flush ?x with _ => _ end = _ =>
          destruct (flush_returns x Hmax) as [[c1 r1] E1]
      end.
      rewrite E1. by eexists. }
    intros Hm p. unfold Write.
    destruct (closed c || closedWrite c); [by eexists|].
    destruct (deadline_passed _ _); [by eexists|].
    destruct (write_loop_total (length p) (mtu c) (bufWrite c) p Hm (le_n _))
      as (E & _). rewrite E.
    match goal with
    | |- exists r, match flush ?x with _ => _ end = _ =>
        destruct (flush_returns x Hmax) as [[c1 [e1|]] E1]
    end; rewrite E1; by eexists.
  - intros Hm p Hp.
    assert (Hloop : forall fuel buf, write_loop fuel (mtu c) buf p = None).
    { assert (Hlen : 0 < len p).
      { destruct p; [done|]. rewrite len_cons. pose proof (len_nonneg p). lia. }
      induction fuel as [|fuel IH]; intros buf; cbn [write_loop];
        (destruct (Z.leb_spec (len p) 0); [lia|]); [done|].
      destruct (Z.ltb_spec (Z.min (len p) (mtu c)) 0); [done|].
      assert (Hz : Z.min (len p) (mtu c) = 0) by lia.
      rewrite Hz. cbn [Z.to_nat drop]. apply IH. }
    split; [exact Hloop|].
    intros Hc Hw Hd. unfold Write. rewrite Hc, Hw, Hd. cbn [orb].
    by rewrite Hloop.
Qed.
End Termination.

Lemma methods_return_witness :
  (exists r, Write (toy_dialer 28) [x68; x69] = Some r) /\
  Write (toy_dialer 25) [x68; x69] = None.
Proof.
  destruct (methods_return (toy_dialer 28)) as [H1 _].
  destruct (methods_return (toy_dialer 25)) as [_ H2].
  split.
  - destruct H1 as (_ & _ & _ & _ & H); [vm_compute; reflexivity|].
    apply H. reflexivity.
  - destruct (H2 ltac:(vm_compute; discriminate) [x68; x69] ltac:(discriminate))
      as [_ H].
    apply H; reflexivity.
Defined.

(** ** The configuration *)

Lemma apply_sane (o : Cfg.Option) (c : Cfg.Config) :
  Cfg.sane c -> Cfg.sane (Cfg.apply o c).
Proof.
  unfold Cfg.sane. intros H.
  destruct o; cbn [Cfg.apply]; repeat case_decide; repeat case_match;
    cbn; intuition lia.
Qed.

Lemma foldl_apply_sane (opts : list Cfg.Option) : forall c,
  Cfg.sane c -> Cfg.sane (foldl (fun c o => Cfg.apply o c) c opts).
Proof.
  induction opts as [|o opts IH]; intros c H; [done|].
  cbn [foldl]. apply IH. by apply apply_sane.
Qed.


(** ** The table driver: row keys *)

Lemma digit_N (d : Z) :
  0 <= d < 10 -> Ascii.N_of_ascii (Table.digit d) = Z.to_N (48 + d).
Proof.
  intros Hd. unfold Table.digit.
  rewrite Z.mod_small by lia.
  apply Ascii.N_ascii_embedding. lia.
Qed.

Lemma digit_compare (x y : Z) :
  0 <= x < 10 -> 0 <= y < 10 ->
  Ascii.compare (Table.digit x) (Table.digit y) = (x ?= y).
Proof.
  intros Hx Hy. unfold Ascii.compare. rewrite !digit_N by done.
  rewrite Z2N.inj_compare by lia. apply Z.add_compare_mono_l.
Qed.

Lemma formatRowKey_loop_length i : forall seq b,
  String.length (Table.formatRowKey_loop i seq b) = (i + String.length b)%nat.
Proof.
  induction i as [|i IH]; intros seq b; cbn [Table.formatRowKey_loop]; [done|].
  rewrite IH. cbn [String.length]. lia.
Qed.

Lemma formatRowKey_loop_compare i : forall a b sa sb,
  0 <= a < 10 ^ Z.of_nat i -> 0 <= b < 10 ^ Z.of_nat i ->
  String.compare (Table.formatRowKey_loop i a sa)
                 (Table.formatRowKey_loop i b sb) =
    match a ?= b with
    | Eq => String.compare sa sb
    | c => c
    end.
Proof.
  induction i as [|i IH]; intros a b sa sb Ha Hb;
    cbn [Table.formatRowKey_loop].
  { change (10 ^ Z.of_nat 0) with 1 in *.
    replace a with 0 by lia. replace b with 0 by lia. done. }
  rewrite Nat2Z.inj_succ, Z.pow_succ_r in Ha, Hb by lia.
  rewrite !Z.quot_div_nonneg, !Z.rem_mod_nonneg by lia.
  pose proof (Z.mod_pos_bound a 10 ltac:(lia)).
  pose proof (Z.mod_pos_bound b 10 ltac:(lia)).
  pose proof (Z.div_mod a 10 ltac:(lia)).
  pose proof (Z.div_mod b 10 ltac:(lia)).
  assert (0 <= a / 10 < 10 ^ Z.of_nat i)
    by (split; [apply Z.div_pos; lia|apply Z.div_lt_upper_bound; lia]).
  assert (0 <= b / 10 < 10 ^ Z.of_nat i)
    by (split; [apply Z.div_pos; lia|apply Z.div_lt_upper_bound; lia]).
  rewrite IH by done. cbn [String.compare].
  rewrite digit_compare by done.
  destruct (Z.compare_spec (a / 10) (b / 10));
    destruct (Z.compare_spec (a mod 10) (b mod 10));
    destruct (Z.compare_spec a b); try done; lia.
Qed.

Lemma formatRowKey_loop_wrap i : forall a k s,
  0 <= a -> 0 <= k ->
  Table.formatRowKey_loop i (a + 10 ^ Z.of_nat i * k) s =
  Table.formatRowKey_loop i a s.
Proof.
  induction i as [|i IH]; intros a k s Ha Hk;
    cbn [Table.formatRowKey_loop]; [done|].
  rewrite Nat2Z.inj_succ, Z.pow_succ_r by lia.
  assert (0 <= 10 ^ Z.of_nat i) by (apply Z.pow_nonneg; lia).
  rewrite !Z.quot_div_nonneg, !Z.rem_mod_nonneg by nia.
  replace (a + 10 * 10 ^ Z.of_nat i * k) with (a + (10 ^ Z.of_nat i * k) * 10)
    by lia.
  rewrite Z.div_add, Z_mod_plus_full by lia.
  apply IH; [apply Z.div_pos; lia|done].
Qed.

Lemma string_compare_refl (s : string) : String.compare s s = Eq.
Proof.
  induction s as [|c s IH]; [done|].
  cbn [String.compare]. unfold Ascii.compare. by rewrite N.compare_refl.
Qed.

Lemma formatRowKey_compare (a b : Z) :
  0 <= a < 10 ^ 9 -> 0 <= b < 10 ^ 9 ->
  String.compare (Table.formatRowKey a) (Table.formatRowKey b) = (a ?= b).
Proof.
  intros Ha Hb. unfold Table.formatRowKey.
  rewrite formatRowKey_loop_compare by done. by destruct (a ?= b).
Qed.

Lemma formatRowKey_inj (a b : Z) :
  0 <= a < 10 ^ 9 -> 0 <= b < 10 ^ 9 ->
  Table.formatRowKey a = Table.formatRowKey b -> a = b.
Proof.
  intros Ha Hb E. apply Z.compare_eq.
  rewrite <- (formatRowKey_compare a b Ha Hb), E. apply string_compare_refl.
Qed.

(** X10. [formatRowKey] writes a sequence number as nine decimal digits.
    Below 10^9 the keys sort, as strings, the way the numbers do, so no
    two numbers share a key and the filter [RowKey ge formatRowKey(seq)]
    of [ReadRaw] selects the entities from [seq] on; from 10^9 on the
    keys start again at ["000000000"]. *)
Theorem formatRowKey_order (a b : Z) :
  0 <= a < 10 ^ 9 -> 0 <= b < 10 ^ 9 ->
  String.length (Table.formatRowKey a) = 9%nat /\
  String.compare (Table.formatRowKey a) (Table.formatRowKey b) = (a ?= b) /\
  (Table.formatRowKey a = Table.formatRowKey b -> a = b) /\
  Table.formatRowKey (a + 10 ^ 9) = Table.formatRowKey a.
Proof.
  intros Ha Hb.
  split; [unfold Table.formatRowKey; by rewrite formatRowKey_loop_length|].
  split; [by apply formatRowKey_compare|].
  split; [by apply formatRowKey_inj|].
  unfold Table.formatRowKey.
  replace (a + 10 ^ 9) with (a + 10 ^ Z.of_nat 9 * 1) by lia.
  apply formatRowKey_loop_wrap; lia.
Qed.

Lemma formatRowKey_order_witness :
  String.compare (Table.formatRowKey 9) (Table.formatRowKey 10) = Lt /\
  Table.formatRowKey (0 + 10 ^ 9) = Table.formatRowKey 0.
Proof.
  destruct (formatRowKey_order 9 10) as (_ & H & _); [lia|lia|].
  destruct (formatRowKey_order 0 0) as (_ & _ & _ & H'); [lia|lia|].
  split; [by rewrite H|exact H'].
Defined.

(** ** The table driver: entities *)

Section TableEntity.
Variable b64encode : bytes -> string.
Variable b64decode : string -> bytes.
Hypothesis b64_round_trip : forall b, b64decode (b64encode b) = b.

Lemma build_loop_lookup (keys : list string) : forall data (m : Table.Entity) k,
  k ∉ keys ->
  (forall k', k' ∈ keys -> k <> (k' +:+ "@odata.type")%string) ->
  Table.build_loop b64encode keys data m !! k = m !! k.
Proof.
  induction keys as [|key keys IH]; intros data m k Hk Hty;
    cbn [Table.build_loop]; [done|].
  destruct (0 <? len data); [|done].
  rewrite IH.
  - rewrite lookup_insert_ne by (intros E; apply (Hty key); [left|done]).
    rewrite lookup_insert_ne; [done|]. intros ->. apply Hk. left.
  - intros Hin. apply Hk. by right.
  - intros k' Hin. apply Hty. by right.
Qed.

Lemma take_min_len (data : bytes) (n : Z) :
  0 <= n ->
  take (Z.to_nat (Z.min (len data) n)) data = take (Z.to_nat n) data /\
  drop (Z.to_nat (Z.min (len data) n)) data = drop (Z.to_nat n) data.
Proof.
  intros Hn. unfold len. destruct (Z.le_gt_cases (Z.of_nat (length data)) n).
  - rewrite Z.min_l, Nat2Z.id by lia.
    rewrite firstn_all, drop_all, take_ge, drop_ge by lia. done.
  - by rewrite Z.min_r by lia.
Qed.

Lemma extract_build (keys : list string) : forall data (m : Table.Entity) res,
  NoDup keys ->
  (forall k k', k ∈ keys -> k' ∈ keys -> k <> (k' +:+ "@odata.type")%string) ->
  (forall k, k ∈ keys -> m !! k = None) ->
  Table.extract_loop b64decode keys
    (Table.build_loop b64encode keys data m) res =
  res ++ take (length keys * Z.to_nat Table.MaxTableBinaryPropertySize) data.
Proof.
  set (n := Z.to_nat Table.MaxTableBinaryPropertySize).
  induction keys as [|key keys IH]; intros data m res Hnd Hty Hm.
  { cbn. by rewrite take_0, app_nil_r. }
  apply NoDup_cons in Hnd as [Hkey Hnd].
  cbn [Table.build_loop Table.extract_loop].
  destruct (Z.ltb_spec 0 (len data)) as [Hpos|Hz].
  2:{ rewrite Hm by left.
      assert (data = []) as ->
        by (apply len_0_nil; pose proof (len_nonneg data); lia).
      by rewrite take_nil, app_nil_r. }
  destruct (take_min_len data Table.MaxTableBinaryPropertySize ltac:(done))
    as [-> ->]. fold n.
  rewrite build_loop_lookup.
  2:{ exact Hkey. }
  2:{ intros k' Hin. apply Hty; [left|by right]. }
  rewrite lookup_insert_ne by (apply not_eq_sym, Hty; left).
  rewrite lookup_insert_eq. cbv beta iota. rewrite b64_round_trip.
  rewrite IH.
  - rewrite <- app_assoc. f_equal. cbn [length]. apply take_take_drop.
  - done.
  - intros k k' Hk Hk'. apply Hty; by right.
  - intros k Hk.
    rewrite lookup_insert_ne by (apply not_eq_sym, Hty; [by right|left]).
    rewrite lookup_insert_ne by (intros ->; done).
    apply Hm. by right.
Qed.

Lemma buildTableEntity_spec (pk rk : string) (data : bytes) :
  let e := Table.buildTableEntity b64encode pk rk data in
  Table.extractTableData b64decode e =
    take (Z.to_nat Table.MaxTableEntitySize) data /\
  e !! "PartitionKey" = Some pk /\ e !! "RowKey" = Some rk.
Proof.
  intros e.
  assert (Hnd : NoDup Table.dataKeys)
    by (apply (bool_decide_unpack _); vm_compute; reflexivity).
  assert (Hty : Forall (fun k =>
                  Forall (fun k' => k <> (k' +:+ "@odata.type")%string)
                         ("RowKey" :: "PartitionKey" :: Table.dataKeys))
                  ("RowKey" :: "PartitionKey" :: Table.dataKeys))
    by (apply (bool_decide_unpack _); vm_compute; reflexivity).
  assert (Hrk : Forall (fun k => k <> "RowKey" /\ k <> "PartitionKey")
                  Table.dataKeys)
    by (apply (bool_decide_unpack _); vm_compute; reflexivity).
  rewrite Forall_forall in Hty, Hrk.
  split.
  { unfold Table.extractTableData, e, Table.buildTableEntity.
    rewrite extract_build.
    - cbn [app].
      replace (Z.to_nat Table.MaxTableEntitySize)
        with (length Table.dataKeys *
              Z.to_nat Table.MaxTableBinaryPropertySize)%nat; [reflexivity|].
      change (length Table.dataKeys) with 15%nat.
      assert (HN : 0 <= Table.MaxTableBinaryPropertySize) by done.
      unfold Table.MaxTableEntitySize, Table.MaxTableProperties.
      revert HN. generalize Table.MaxTableBinaryPropertySize. intros N HN.
      lia.
    - exact Hnd.
    - intros k k' Hk Hk'. specialize (Hty k ltac:(by do 2 right)).
      rewrite Forall_forall in Hty. apply Hty. by do 2 right.
    - intros k Hk. destruct (Hrk k Hk).
      by rewrite !lookup_insert_ne. }
  assert (Hother : forall k, k = "RowKey" \/ k = "PartitionKey" ->
            e !! k = (<["RowKey" := rk]> (<["PartitionKey" := pk]>
                        (∅ : gmap string string))) !! k).
  { intros k Hk. unfold e, Table.buildTableEntity. apply build_loop_lookup.
    - intros Hin. destruct (Hrk k Hin). by destruct Hk.
    - intros k' Hin.
      assert (Hkin : k ∈ "RowKey" :: "PartitionKey" :: Table.dataKeys)
        by (destruct Hk as [-> | ->]; [left|right; left]).
      specialize (Hty k Hkin). rewrite Forall_forall in Hty.
      apply Hty. by do 2 right. }
  split.
  - rewrite Hother by (by right).
    rewrite lookup_insert_ne by done. by rewrite lookup_insert_eq.
  - rewrite Hother by (by left). by rewrite lookup_insert_eq.
Qed.

(** X11. What [buildTableEntity] makes of [data], [extractTableData]
    reads back: all of it when it has at most [MaxTableEntitySize] (15
    times 64 KiB) bytes, which is what the table transport announces as
    its [MaxRawSize], and otherwise its first [MaxTableEntitySize] bytes
    only: the rest is dropped without an error. The entity carries the
    partition and row keys it was given. *)
Theorem table_entity_round_trip (pk rk : string) (data : bytes) :
  let e := Table.buildTableEntity b64encode pk rk data in
  Table.extractTableData b64decode e =
    take (Z.to_nat Table.MaxTableEntitySize) data /\
  (len data <= Table.MaxTableEntitySize ->
   Table.extractTableData b64decode e = data) /\
  e !! "PartitionKey" = Some pk /\ e !! "RowKey" = Some rk.
Proof.
  intros e. destruct (buildTableEntity_spec pk rk data) as (Hx & Hpk & Hrk).
  fold e in Hx, Hpk, Hrk.
  split; [exact Hx|]. split; [|by split].
  intros Hlen. rewrite Hx. apply take_ge. unfold len in Hlen. lia.
Qed.

(** *** The table transport *)

Lemma WriteRaw_RowKey (t : Table.tableTransport) (d : bytes) :
  Table.RowKey (Table.WriteRaw b64encode t d).2 = Table.formatRowKey (Table.txSeq t) /\
  Table.txSeq (Table.WriteRaw b64encode t d).1 = Table.txSeq t + 1 /\
  Table.rxSeq (Table.WriteRaw b64encode t d).1 = Table.rxSeq t /\
  Table.extractTableData b64decode (Table.WriteRaw b64encode t d).2 =
    take (Z.to_nat Table.MaxTableEntitySize) d.
Proof.
  unfold Table.WriteRaw, Table.RowKey. cbn [fst snd Table.txSeq Table.rxSeq].
  destruct (buildTableEntity_spec "data" (Table.formatRowKey (Table.txSeq t)) d)
    as (Hx & _ & Hrk).
  cbn zeta in Hx, Hrk. by rewrite Hrk.
Qed.

Lemma read_page_written (ds : list bytes) : forall t seq combined processed,
  Table.txSeq t = seq + processed ->
  Forall (fun d => len d <= Table.MaxTableEntitySize) ds ->
  Table.read_page b64decode seq
    (Table.WriteRaws b64encode t (map (fun d => (d, true)) ds)).2
    combined processed =
  (combined ++ concat ds, processed + len ds) /\
  Table.txSeq (Table.WriteRaws b64encode t (map (fun d => (d, true)) ds)).1
    = Table.txSeq t + len ds.
Proof.
  induction ds as [|d ds IH]; intros t seq combined processed Hseq Hall.
  { cbn [map Table.WriteRaws Table.read_page concat fst snd].
    rewrite app_nil_r. change (len (@nil bytes)) with 0.
    split; [f_equal; lia|lia]. }
  apply Forall_cons in Hall as [Hd Hall].
  cbn [map Table.WriteRaws].
  destruct (WriteRaw_RowKey t d) as (Hrk & Htx & _ & Hx).
  destruct (Table.WriteRaw b64encode t d) as [t1 e]. cbn [fst snd] in *.
  specialize (IH t1 seq (combined ++ d) (processed + 1) ltac:(lia) Hall).
  destruct (Table.WriteRaws b64encode t1 _) as [t2 es]. cbn [fst snd] in *.
  destruct IH as [IH1 IH2].
  cbn [Table.read_page]. rewrite Hrk, Hseq, decide_True by done.
  rewrite Hx, take_ge by (unfold len in Hd; lia).
  rewrite IH1, IH2, len_cons. cbn [concat]. rewrite <- app_assoc.
  split; [f_equal; lia|lia].
Qed.

(** X12. What one end hands to [WriteRaw] of the table transport, the
    other end's [ReadRaw] returns: when the page the service answers with
    holds, in the order they were added, the entities of the writer's
    [WriteRaw] calls from the reader's sequence number on, [ReadRaw]
    returns their chunks put end to end (each of at most
    [MaxTableEntitySize] bytes) and moves its sequence number past
    them. *)
Theorem table_transport_round_trip (w r : Table.tableTransport)
    (ds : list bytes) :
  Table.rxSeq r = Table.txSeq w -> ds <> [] ->
  Forall (fun d => len d <= Table.MaxTableEntitySize) ds ->
  let '(w', stored) :=
    Table.WriteRaws b64encode w (map (fun d => (d, true)) ds) in
  Table.txSeq w' = Table.txSeq w + len ds /\
  Table.ReadRaw b64decode r (Table.Page stored) =
    (Table.mkTableTransport (Table.txSeq r) (Table.rxSeq r + len ds),
     Ok (concat ds)).
Proof.
  intros Hseq Hne Hall.
  destruct (read_page_written ds w (Table.rxSeq r) [] 0 ltac:(lia) Hall)
    as [Hp Htx].
  destruct (Table.WriteRaws b64encode w _) as [w' stored] eqn:E.
  cbn [fst snd] in *. split; [exact Htx|].
  unfold Table.ReadRaw.
  destruct stored as [|e es].
  { exfalso. destruct ds as [|d ds]; [done|]. cbn [map Table.WriteRaws] in E.
    destruct (Table.WriteRaw b64encode w d) as [t1 e1].
    destruct (Table.WriteRaws b64encode t1 _) as [t2 es2]. by simplify_eq. }
  rewrite Hp. cbn [app].
  replace (0 <? 0 + len ds) with true; [by rewrite Z.add_0_l|].
  symmetry. apply Z.ltb_lt. destruct ds; [done|]. rewrite len_cons.
  pose proof (len_nonneg ds). lia.
Qed.

Lemma read_page_stops (k : Z) (es : list Table.Entity) :
  forall seq combined processed,
  Forall (fun e => Table.RowKey e <> Table.formatRowKey k) es ->
  seq + processed <= k ->
  seq + (Table.read_page b64decode seq es combined processed).2 <= k.
Proof.
  induction es as [|e es IH]; intros seq combined processed Hall Hle;
    cbn [Table.read_page]; [done|].
  apply Forall_cons in Hall as [He Hall].
  destruct (decide _) as [E|]; [|done].
  apply IH; [done|].
  assert (seq + processed <> k) by (intros <-; done). lia.
Qed.

Lemma WriteRaws_stored_keys (ws : list (bytes * bool)) : forall t e,
  e ∈ (Table.WriteRaws b64encode t ws).2 ->
  exists j d, ws !! j = Some (d, true) /\
    Table.RowKey e = Table.formatRowKey (Table.txSeq t + Z.of_nat j).
Proof.
  induction ws as [|[d stored] ws IH]; intros t e; cbn [Table.WriteRaws].
  { intros Hin. by apply elem_of_nil in Hin. }
  destruct (WriteRaw_RowKey t d) as (Hrk & Htx & _).
  destruct (Table.WriteRaw b64encode t d) as [t1 e1]. cbn [fst snd] in *.
  specialize (IH t1 e).
  destruct (Table.WriteRaws b64encode t1 ws) as [t2 es]. cbn [fst snd] in *.
  intros Hin.
  assert (Hcase : (stored = true /\ e = e1) \/ e ∈ es).
  { destruct stored; [|by right].
    apply elem_of_cons in Hin as [->|Hin]; [by left|by right]. }
  destruct Hcase as [[-> ->]|Hes].
  - exists 0%nat, d. split; [done|]. rewrite Hrk. f_equal. lia.
  - destruct (IH Hes) as (j & d' & Hj & Hk).
    exists (S j), d'. split; [done|]. rewrite Hk, Htx. f_equal. lia.
Qed.

(** X13. [WriteRaw] of the table transport takes the next sequence number
    whether or not [AddEntity] then stores the entity, and [ReadRaw] only
    moves on over entities whose row keys are the sequence numbers that
    follow one another. So a write that failed leaves a hole the reader
    never gets past: whatever page of stored entities the service answers
    with, [ReadRaw] leaves the reader's sequence number at or before that
    of the failed write, and the chunks written after it are not
    delivered. *)
Theorem table_failed_write_stalls (w r : Table.tableTransport)
    (ws : list (bytes * bool)) (k : nat) (d : bytes)
    (page : list Table.Entity) :
  0 <= Table.txSeq w -> Table.txSeq w + len ws <= 10 ^ 9 ->
  ws !! k = Some (d, false) ->
  (forall e, e ∈ page -> e ∈ (Table.WriteRaws b64encode w ws).2) ->
  Table.rxSeq r <= Table.txSeq w + Z.of_nat k ->
  Table.rxSeq (Table.ReadRaw b64decode r (Table.Page page)).1
    <= Table.txSeq w + Z.of_nat k.
Proof.
  intros Hw Hmax Hk Hpage Hr.
  assert (Hklen : Z.of_nat k < len ws).
  { apply lookup_lt_Some in Hk. unfold len. lia. }
  assert (Hall : Forall (fun e => Table.RowKey e <>
                           Table.formatRowKey (Table.txSeq w + Z.of_nat k)) page).
  { apply Forall_forall. intros e He Heq.
    destruct (WriteRaws_stored_keys ws w e (Hpage e He)) as (j & d' & Hj & Hkey).
    assert (Hjlen : Z.of_nat j < len ws).
    { apply lookup_lt_Some in Hj. unfold len. lia. }
    rewrite Hkey in Heq. apply formatRowKey_inj in Heq; [|lia|lia].
    assert (j = k) by lia. subst j. congruence. }
  unfold Table.ReadRaw. destruct page as [|e es]; [done|].
  pose proof (read_page_stops _ (e :: es) (Table.rxSeq r) [] 0 Hall
                ltac:(lia)) as Hstop.
  destruct (Table.read_page b64decode (Table.rxSeq r) (e :: es) [] 0)
    as [combined processed].
  cbn [snd] in Hstop. destruct (0 <? processed); cbn [fst Table.rxSeq]; lia.
Qed.
End TableEntity.

Lemma table_entity_round_trip_witness :
  Table.extractTableData String.list_byte_of_string
    (Table.buildTableEntity String.string_of_list_byte "data" "000000000"
       [x68; x69])
  = [x68; x69].
Proof.
  destruct (table_entity_round_trip String.string_of_list_byte String.list_byte_of_string
              String.list_byte_of_string_of_list_byte "data" "000000000" [x68; x69])
    as (_ & H & _).
  apply H. vm_compute. discriminate.
Defined.

Lemma table_transport_round_trip_witness :
  Table.ReadRaw String.list_byte_of_string (Table.mkTableTransport 0 0)
    (Table.Page
       (Table.WriteRaws String.string_of_list_byte (Table.mkTableTransport 0 0)
          [([x68], true); ([x69], true)]).2)
  = (Table.mkTableTransport 0 2, Ok [x68; x69]).
Proof.
  pose proof (table_transport_round_trip String.string_of_list_byte
                String.list_byte_of_string
                String.list_byte_of_string_of_list_byte
                (Table.mkTableTransport 0 0) (Table.mkTableTransport 0 0)
                [[x68]; [x69]] eq_refl ltac:(discriminate)) as H.
  cbn [map] in H.
  destruct (Table.WriteRaws _ _ _) as [w' stored].
  apply H. repeat constructor; vm_compute; discriminate.
Defined.

Lemma table_failed_write_stalls_witness :
  Table.rxSeq
    (Table.ReadRaw String.list_byte_of_string (Table.mkTableTransport 0 0)
       (Table.Page
          (Table.WriteRaws String.string_of_list_byte
             (Table.mkTableTransport 0 0)
             [([x68], true); ([x69], false); ([x6a], true)]).2)).1
  <= 1.
Proof.
  apply (table_failed_write_stalls String.string_of_list_byte
           String.list_byte_of_string String.list_byte_of_string_of_list_byte
           (Table.mkTableTransport 0 0) (Table.mkTableTransport 0 0)
           [([x68], true); ([x69], false); ([x6a], true)] 1 [x69]).
  - done.
  - vm_compute. discriminate.
  - reflexivity.
  - done.
  - done.
Defined.

(** ** The blob transport *)

Lemma drop_take_app_take (l : bytes) (off L m : nat) :
  (off <= L <= length l)%nat ->
  drop off (take L l) ++ take m (drop L l) = take (L - off + m) (drop off l).
Proof.
  intros H.
  rewrite <- (take_take_drop (drop off l) (L - off) m).
  rewrite drop_drop. replace (off + (L - off))%nat with L by lia.
  f_equal. by rewrite take_drop_commute, Nat.add_comm, Nat.sub_add by lia.
Qed.




(** ** [Read] with a deadline, on a silent transport *)

Section ReadDeadline.
Context {A : AEAD}.
Implicit Types c : Conn A.

Lemma read_head_idle c lenp :
  closed c = false -> closedRead c = false -> readRemain c = 0 ->
  bufRead c = [] ->
  deadline_passed (readDeadline c) (clock c) = false ->
  read_head c lenp = FrameNone c.
Proof.
  intros Hc Hr Hm Hb Hd. unfold read_head. rewrite Hc, Hr, Hd, Hm, Hb.
  reflexivity.
Qed.

Lemma read_loop_deadline lenp d (rest : list RawResult) (k : nat) :
  forall fuel c,
  (k < fuel)%nat ->
  closed c = false -> closedRead c = false -> readRemain c = 0 ->
  bufRead c = [] -> readDeadline c = Some d ->
  poll_inv (poll c) -> 0 < Fast (poll c) -> Steady (poll c) <= 2 ^ 62 ->
  readResults (transport c) = replicate k (RawErr ErrNoData) ++ rest ->
  (clock c <= d ->
   (if skip (poll c) then 1 else 0) + (d - clock c) / Fast (poll c) + 1
     <= Z.of_nat k) ->
  exists c',
    read_loop fuel c lenp = Returned c' [] (Some ErrDeadlineExceeded) /\
    d < clock c' /\
    (clock c <= d -> clock c' <= d + Steady (poll c)) /\
    (d < clock c -> c' = c) /\
    bufRead c' = [] /\ bufNoise c' = bufNoise c /\ noise c' = noise c /\
    written (transport c') = written (transport c).
Proof.
  induction k as [|k IH]; intros fuel c Hfuel Hc Hr Hm Hb Hd Hinv HF HS Hres HT.
  all: destruct (Z.ltb_spec d (clock c)) as [Hpast|Hnot].
  all: try (
    exists c; split;
    [ apply read_loop_return; unfold read_head;
      rewrite Hc, Hr, Hd; cbn [deadline_passed];
      by replace (d <? clock c) with true by (symmetry; apply Z.ltb_lt; lia)
    | repeat split; (done || lia) ]).
  { exfalso. specialize (HT Hnot).
    assert (0 <= (d - clock c) / Fast (poll c)) by (apply Z.div_pos; lia).
    destruct (skip (poll c)); lia. }
  destruct fuel as [|fuel]; [lia|].
  assert (Hdl : deadline_passed (readDeadline c) (clock c) = false).
  { rewrite Hd. cbn. apply Z.ltb_ge. lia. }
  cbn [read_loop]. rewrite Hb. cbn [length].
  rewrite (skip_frames_none _ c lenp c
             (read_head_idle c lenp Hc Hr Hm Hb Hdl)).
  unfold ReadRaw. rewrite Hres. cbn [replicate app].
  rewrite decide_True by done.
  cbn [transport set_transport poll].
  specialize (HT Hnot).
  destruct Hinv as [Hi1 Hi2].
  assert (Hdiv : 0 <= (d - clock c) / Fast (poll c)) by (apply Z.div_pos; lia).
  destruct (skip (poll c)) eqn:Hskip.
  - (* the call after a reset returns at once *)
    rewrite (Sleep_skipped _ Hskip).
    cbn [default]. rewrite Z.max_l by lia.
    replace (clock (set_poll _ _) + 0) with (clock c)
      by (cbn [clock set_poll set_transport]; lia).
    match goal with
    | |- exists c', read_loop fuel ?x lenp = _ /\ _ =>
        destruct (IH fuel x) as (c' & E & G1 & G2 & G3 & G4 & G5 & G6 & G7);
          [ lia | done | done | done | done | done
          | unfold poll_inv; cbn [poll set_clock set_poll Fast Cur Steady]; lia
          | cbn [poll set_clock set_poll Fast]; lia
          | cbn [poll set_clock set_poll Steady]; lia
          | reflexivity
          | cbn [poll clock set_clock set_poll Fast skip]; intros _; lia
          | ]
    end.
    cbn [clock poll set_clock set_poll set_transport Steady bufNoise noise
         transport written set_readResults] in G2, G3, G5, G6, G7.
    exists c'. split; [exact E|]. split; [exact G1|].
    split; [intros _; apply G2; lia|]. split; [lia|].
    by repeat split.
  - (* a sleep of the current interval *)
    rewrite (Sleep_blocking (poll c)) by (done || lia).
    cbn [default]. unfold id.
    rewrite Z.max_r by lia.
    assert (Hstep : clock c + Cur (poll c) <= d ->
              (d - (clock c + Cur (poll c))) / Fast (poll c) + 1
                <= Z.of_nat k).
    { intros Hle.
      assert (H : (d - (clock c + Cur (poll c))) / Fast (poll c)
                  <= (d - clock c - Fast (poll c)) / Fast (poll c))
        by (apply Z.div_le_mono; lia).
      replace (d - clock c - Fast (poll c))
        with (d - clock c + (-1) * Fast (poll c)) in H by lia.
      rewrite Z.div_add in H by lia. lia. }
    match goal with
    | |- exists c', read_loop fuel ?x lenp = _ /\ _ =>
        destruct (IH fuel x) as (c' & E & G1 & G2 & G3 & G4 & G5 & G6 & G7);
          [ lia | done | done | done | done | done
          | unfold poll_inv; cbn [poll set_clock set_poll Fast Cur Steady]; lia
          | cbn [poll set_clock set_poll Fast]; lia
          | cbn [poll set_clock set_poll Steady]; lia
          | reflexivity
          | cbn [poll clock set_clock set_poll set_transport Fast skip];
            intros Hle; specialize (Hstep Hle); lia
          | ]
    end.
    cbn [clock poll set_clock set_poll set_transport Steady bufNoise noise
         transport written set_readResults] in G2, G3, G5, G6, G7.
    exists c'. split; [exact E|]. split; [exact G1|].
    split.
    { intros _.
      destruct (Z.le_gt_cases (clock c + Cur (poll c)) d) as [Hle|Hgt].
      - apply G2. exact Hle.
      - rewrite (G3 Hgt). cbn [clock set_clock]. lia. }
    split; [lia|]. by repeat split.
Qed.

End ReadDeadline.

